(** * Board columns, cards and invitations of the project routes

    A shallow embedding of [src/routes/projects.js] (the column/card
    normalizer, the column endpoints and the invitation endpoint) together
    with the properties of the board that the routes maintain.

    Modelling conventions.
    - A JavaScript object with optional properties is a record of [option]s:
      [None] is an absent property, [Some v] a present one.
    - Strings are sequences of ASCII code units; [""] is the only falsy one.
    - JSON numbers are rationals ([Q]); [Math.floor] is [Qfloor].
    - A [Date] is its time value in milliseconds ([Z]); the clock read by
      [new Date()] is the explicit argument [now].
    - A route handler is a function from what [Project.findOne] returned and
      the request to a reply: the HTTP status and the column list handed to
      [Project.findOneAndUpdate], if any.
    - [String.prototype.localeCompare] is the collation of the platform the
      routes run on, not code of the routes: it is a parameter of the model
      ([Js.Collation]), and the properties hold for every collation. *)

From Stdlib Require Import ZArith QArith Qround String Ascii Lia Lqa.
From stdpp Require Import base list strings gmap pretty lexico sorting.

Open Scope string_scope.
Open Scope list_scope.

(** ** JavaScript built-ins used by the routes *)

Module Js.

(** [o || d] for an optional string property. *)
Definition or_else (o : option string) (d : string) : string :=
  match o with
  | Some (String _ _ as s) => s
  | _ => d
  end.

(** [o || null]. *)
Definition or_null (o : option string) : option string :=
  match o with
  | Some (String _ _ as s) => Some s
  | _ => None
  end.

(** White space and line terminators removed by [String.prototype.trim]. *)
Definition is_space (c : ascii) : bool :=
  let n := N_of_ascii c in
  ((9 <=? n) && (n <=? 13) || (n =? 32))%N.

Fixpoint trimStart (s : string) : string :=
  match s with
  | String c s' => if is_space c then trimStart s' else s
  | EmptyString => EmptyString
  end.

Fixpoint trimEnd (s : string) : string :=
  match s with
  | String c s' =>
      match trimEnd s' with
      | EmptyString => if is_space c then EmptyString else String c EmptyString
      | r => String c r
      end
  | EmptyString => EmptyString
  end.

Definition trim (s : string) : string := trimEnd (trimStart s).

Definition is_upper (c : ascii) : bool :=
  let n := N_of_ascii c in ((65 <=? n) && (n <=? 90))%N.

Definition lower_char (c : ascii) : ascii :=
  if is_upper c then ascii_of_N (N_of_ascii c + 32) else c.

Fixpoint toLowerCase (s : string) : string :=
  match s with
  | String c s' => String (lower_char c) (toLowerCase s')
  | EmptyString => EmptyString
  end.

(** [String.prototype.localeCompare] with no locale argument compares by
    the collation of the platform's default locale.  Which strings it puts
    first, and which it ties, is the platform's matter; the language only
    requires it to be a consistent comparison: a string ties with itself,
    swapping the arguments reverses the result, and "not after" is
    transitive. *)
Class Collation := {
  localeCompare : string → string → comparison;
  localeCompare_refl : ∀ a, localeCompare a a = Eq;
  localeCompare_swap : ∀ a b, localeCompare b a = CompOpp (localeCompare a b);
  localeCompare_trans : ∀ a b c,
    localeCompare a b ≠ Gt → localeCompare b c ≠ Gt → localeCompare a c ≠ Gt
}.

(** [Array.prototype.sort(cmp)]: a stable sort; [cmp a b = Gt] puts [a]
    after [b]. *)
Fixpoint sort_insert {A} (cmp : A → A → comparison) (x : A) (l : list A) : list A :=
  match l with
  | [] => [x]
  | y :: l' =>
      match cmp x y with
      | Gt => y :: sort_insert cmp x l'
      | _ => x :: l
      end
  end.

Fixpoint sort {A} (cmp : A → A → comparison) (l : list A) : list A :=
  match l with
  | [] => []
  | x :: l' => sort_insert cmp x (sort cmp l')
  end.

(** [Array.prototype.splice(start, 0, x)]: a negative [start] counts from
    the end, and the position is clamped to the array. *)
Definition splice_insert {A} (start : Z) (x : A) (l : list A) : list A :=
  let len := Z.of_nat (length l) in
  let k := if (start <? 0)%Z then Z.max (len + start) 0 else Z.min start len in
  take (Z.to_nat k) l ++ x :: drop (Z.to_nat k) l.

(** [Number.MAX_SAFE_INTEGER] *)
Definition MAX_SAFE_INTEGER : Q := inject_Z 9007199254740991.

End Js.

(** ** A collation to run the model with *)

(** Strings compared through a key: the primary weights of the characters
    (a letter weighs the same in both cases), a level separator, then the
    tertiary weights (lower case before upper case); keys are compared
    lexicographically.  Unaccented letters are ordered as the default
    collation of ICU orders them.  It serves to evaluate the routes on sample
    boards; no property of the routes is derived from it. *)
Definition primary (c : ascii) : N := (N_of_ascii (Js.lower_char c) + 1)%N.
Definition tertiary (c : ascii) : N := if Js.is_upper c then 2%N else 1%N.

Definition sortKey (s : string) : list N :=
  let cs := list_ascii_of_string s in
  (primary <$> cs) ++ 0%N :: (tertiary <$> cs).

Definition keyCompare (a b : string) : comparison :=
  match trichotomyT lexico (sortKey a) (sortKey b) with
  | inleft (left _) => Lt
  | inleft (right _) => Eq
  | inright _ => Gt
  end.

Definition sampleCollation : Js.Collation.
Proof.
  assert (∀ a b, match keyCompare a b with
                 | Lt => lexico (sortKey a) (sortKey b)
                 | Eq => sortKey a = sortKey b
                 | Gt => lexico (sortKey b) (sortKey a)
                 end) as Hspec.
  { intros a b. unfold keyCompare. by destruct (trichotomyT _ _ _) as [[?|?]|?]. }
  assert (∀ a b, keyCompare a b ≠ Gt ↔
                 lexico (sortKey a) (sortKey b) ∨ sortKey a = sortKey b) as Hle.
  { intros a b. pose proof (Hspec a b) as H.
    destruct (keyCompare a b); split; try tauto; try done.
    intros [H'|H'] _.
    - by apply (irreflexivity lexico (sortKey a)); etrans.
    - rewrite H' in H. by apply (irreflexivity lexico (sortKey b)). }
  refine {| Js.localeCompare := keyCompare |}.
  - intros a. pose proof (Hspec a a) as H.
    destruct (keyCompare a a); [done| |]; by apply irreflexivity in H; [|apply _].
  - intros a b. pose proof (Hspec a b) as Hab. pose proof (Hspec b a) as Hba.
    destruct (keyCompare a b), (keyCompare b a); simpl; try done; exfalso;
      first [ rewrite Hab in Hba; apply irreflexivity in Hba; [done|apply _]
            | rewrite Hba in Hab; apply irreflexivity in Hab; [done|apply _]
            | by apply (irreflexivity lexico (sortKey a)); etrans ].
  - intros a b c. rewrite !Hle. intros [H1|H1] [H2|H2].
    + left. by etrans.
    + left. by rewrite <- H2.
    + left. by rewrite H1.
    + right. congruence.
Defined.

(** * The routes

    Everything in this part is relative to the collation of the platform. *)

Section Routes.
Context {collation : Js.Collation}.

(** ** Data model *)

Record Card := mkCard {
  card_title : option string;
  card_description : option string;
  card_status : option string;
  card_assignee : option string;
  card_dueDate : option Z
}.

(** A column descriptor as the client or the store supplies it.  [col_cards]
    is [Some] exactly when the property is an array; [col_defaultCard] is the
    truth value of the property when the object has it. *)
Record Column := mkColumn {
  col_name : option string;
  col_order : option Q;
  col_cards : option (list Card);
  col_defaultCard : option bool
}.

(** The empty object [{}]. *)
Definition emptyColumn : Column := mkColumn None None None None.

(** Object spread [{...a, ...b}]. *)
Definition spread (a b : Column) : Column :=
  {| col_name := from_option Some (col_name a) (col_name b);
     col_order := from_option Some (col_order a) (col_order b);
     col_cards := from_option Some (col_cards a) (col_cards b);
     col_defaultCard := from_option Some (col_defaultCard a) (col_defaultCard b) |}.

Definition set_name (n : string) (c : Column) : Column :=
  {| col_name := Some n; col_order := col_order c;
     col_cards := col_cards c; col_defaultCard := col_defaultCard c |}.

Definition set_order (q : Q) (c : Column) : Column :=
  {| col_name := col_name c; col_order := Some q;
     col_cards := col_cards c; col_defaultCard := col_defaultCard c |}.

Definition set_cards (cs : list Card) (c : Column) : Column :=
  {| col_name := col_name c; col_order := col_order c;
     col_cards := Some cs; col_defaultCard := col_defaultCard c |}.

Definition set_status (s : option string) (k : Card) : Card :=
  {| card_title := card_title k; card_description := card_description k;
     card_status := s; card_assignee := card_assignee k;
     card_dueDate := card_dueDate k |}.

(** The cards of a column that went through [normalizeColumns]. *)
Definition cardsOf (c : Column) : list Card := default [] (col_cards c).

(** [index + 1] as a number. *)
Definition position (index : nat) : Q := inject_Z (Z.of_nat (S index)).

(** ** The normalizer *)

Definition DEFAULT_BOARD_COLUMNS : list Column :=
  [ mkColumn (Some "To Do") None None (Some true);
    mkColumn (Some "In Progress") None None None;
    mkColumn (Some "In Review") None None None;
    mkColumn (Some "Done") None None None ].

Definition createDefaultCards (now : Z) (columnConfig : Column) : list Card :=
  match col_defaultCard columnConfig with
  | Some true =>
      let columnName := Js.or_else (col_name columnConfig) "To Do" in
      [ {| card_title := Some "Task 1";
           card_description := Some "Scrum 1 default work item";
           card_status := Some columnName;
           card_assignee := None;
           card_dueDate := Some now |} ]
  | _ => []
  end.

(** The arrow function mapped over [col.cards]. *)
Definition prepareCard (now : Z) (columnName : string) (card : Card) : Card :=
  {| card_title := Some (Js.or_else (card_title card) "Scrum 1");
     card_description := Some (Js.or_else (card_description card) "");
     card_status := Some (Js.or_else (card_status card) columnName);
     card_assignee := Js.or_null (card_assignee card);
     card_dueDate := Some (default now (card_dueDate card)) |}.

(** The arrow function mapped over a non-empty [columns]. *)
Definition normalizeColumn (now : Z) (enforceDefaultCard : bool)
    (index : nat) (col : Column) : Column :=
  let fallbackColumn := default emptyColumn (DEFAULT_BOARD_COLUMNS !! index) in
  let columnName :=
    Js.or_else (col_name col)
      (Js.or_else (col_name fallbackColumn) ("Column " +:+ pretty (S index))) in
  let preparedCards :=
    match col_cards col with
    | Some cards => prepareCard now columnName <$> cards
    | None => []
    end in
  let cards :=
    match preparedCards with
    | _ :: _ => preparedCards
    | [] =>
        if enforceDefaultCard
        then createDefaultCards now (set_name columnName (spread fallbackColumn col))
        else []
    end in
  {| col_name := Some columnName;
     col_order := Some (default (position index) (col_order col));
     col_cards := Some cards;
     col_defaultCard := None |}.

Definition normalizeColumns (now : Z) (columns : list Column)
    (enforceDefaultCard : bool) : list Column :=
  match columns with
  | [] =>
      imap (λ index column,
              {| col_name := col_name column;
                 col_order := Some (position index);
                 col_cards := Some (createDefaultCards now column);
                 col_defaultCard := None |})
           DEFAULT_BOARD_COLUMNS
  | _ => imap (normalizeColumn now enforceDefaultCard) columns
  end.

Definition normalizeExistingColumns (now : Z) (columns : list Column)
    (fallbackToDefault enforceDefaultCard : bool) : list Column :=
  match columns with
  | [] => if fallbackToDefault then normalizeColumns now [] enforceDefaultCard else []
  | _ => normalizeColumns now columns enforceDefaultCard
  end.

Definition normalizeColumnName (name : option string) : string :=
  Js.trim (Js.or_else name "").

(** The key under which [findColumnIndex] and [columnNameExists] compare. *)
Definition nameKey (name : option string) : string :=
  Js.toLowerCase (normalizeColumnName name).

(** [-1] is [None]. *)
Definition findColumnIndex (columns : list Column) (searchName : option string)
    : option nat :=
  let normalizedSearch := nameKey searchName in
  if decide (normalizedSearch = "") then None
  else fst <$> list_find (λ column, nameKey (col_name column) = normalizedSearch) columns.

(** The comparison function handed to [sort]. *)
Definition compareColumns (a b : Column) : comparison :=
  let orderA := default Js.MAX_SAFE_INTEGER (col_order a) in
  let orderB := default Js.MAX_SAFE_INTEGER (col_order b) in
  if Qeq_bool orderA orderB
  then Js.localeCompare (normalizeColumnName (col_name a))
                        (normalizeColumnName (col_name b))
  else (orderA ?= orderB)%Q.

Definition sortColumnsByOrder (columns : list Column) : list Column :=
  Js.sort compareColumns columns.

Definition reindexColumns (columns : list Column) : list Column :=
  imap (λ idx column, set_order (position idx) column) columns.

Definition sanitizeColumns (now : Z) (columns : list Column)
    (fallbackToDefault enforceDefaultCard : bool) : list Column :=
  match normalizeExistingColumns now columns fallbackToDefault enforceDefaultCard with
  | [] => []
  | preparedColumns => reindexColumns (sortColumnsByOrder preparedColumns)
  end.

(** [ignoreIndex = -1] is [None]. *)
Definition columnNameExists (columns : list Column) (name : option string)
    (ignoreIndex : option nat) : bool :=
  let normalized := nameKey name in
  if decide (normalized = "") then false
  else existsb id
         (imap (λ idx column,
                  bool_decide (Some idx ≠ ignoreIndex) &&
                  bool_decide (nameKey (col_name column) = normalized))
               columns).

(** ** Request values *)

(** The [order] property of a request body: a JSON number, or another value
    with the number [Number(order)] makes of it ([None] is [NaN]). *)
Inductive OrderArg :=
| OrderUndefined
| OrderNull
| OrderNumber (q : Q)
| OrderOther (n : option Q).

(** [Number(order)]; [None] is [NaN]. *)
Definition toNumber (order : OrderArg) : option Q :=
  match order with
  | OrderUndefined => None
  | OrderNull => Some 0%Q
  | OrderNumber q => Some q
  | OrderOther n => n
  end.

(** [order] as the property of a column descriptor. *)
Definition orderProp (order : OrderArg) : option Q :=
  match order with OrderNumber q => Some q | _ => None end.

(** The [cards] property of a request body. *)
Inductive CardsArg :=
| CardsUndefined
| CardsNull
| CardsArray (cards : list Card)
| CardsOther.

Definition cardsProp (cards : CardsArg) : option (list Card) :=
  match cards with CardsArray l => Some l | _ => None end.

(** ** Column endpoints *)

(** What a handler did: the status it sent and, when it called
    [findOneAndUpdate], the column list it stored. *)
Record Reply := mkReply {
  status : nat;
  written : option (list Column)
}.

Definition reject (code : nat) : Reply := mkReply code None.
Definition persist (code : nat) (columns : list Column) : Reply :=
  mkReply code (Some columns).

(** The column list of the project after the request. *)
Definition stored_after (before : list Column) (r : Reply) : list Column :=
  default before (written r).

(** [GET /:projectId/columns] (the [columns] of the response). *)
Definition getColumns (now : Z) (project : option (list Column))
    : nat * list Column :=
  match project with
  | None => (404, [])
  | Some stored =>
      (200, sortColumnsByOrder (normalizeExistingColumns now stored false false))
  end.

(** [POST /:projectId/columns] *)
Definition createColumn (now : Z) (project : option (list Column))
    (name : option string) (order : OrderArg) (cards : CardsArg) : Reply :=
  let normalizedName := normalizeColumnName name in
  if decide (normalizedName = "") then reject 400
  else if match cards with CardsUndefined | CardsArray _ => false | _ => true end
  then reject 400
  else match project with
  | None => reject 404
  | Some stored =>
      let columns := sanitizeColumns now stored false false in
      if columnNameExists columns (Some normalizedName) None then reject 409
      else
        let preparedColumn :=
          default emptyColumn
            (head (normalizeColumns now
                     [mkColumn (Some normalizedName) (orderProp order) (cardsProp cards) None]
                     false)) in
        let insertionIndex :=
          match toNumber order with
          | Some parsedOrder =>
              if negb (Qle_bool parsedOrder 0)
              then Z.min (Qfloor parsedOrder - 1) (Z.of_nat (length columns))
              else Z.of_nat (length columns)
          | None => Z.of_nat (length columns)
          end in
        let columns := Js.splice_insert insertionIndex preparedColumn columns in
        persist 201 (reindexColumns columns)
  end.

(** [PUT /:projectId/columns/:columnName] *)
Definition updateColumn (now : Z) (project : option (list Column))
    (columnName : string) (name : option string) (order : OrderArg)
    (cards : CardsArg) : Reply :=
  let hasUpdates :=
    bool_decide (is_Some name)
    || match order with OrderUndefined | OrderNull => false | _ => true end
    || match cards with CardsArray _ => true | _ => false end in
  if negb hasUpdates then reject 400
  else if match cards with CardsOther => true | _ => false end then reject 400
  else match project with
  | None => reject 404
  | Some stored =>
      let columns := sanitizeColumns now stored false false in
      match findColumnIndex columns (Some columnName) with
      | None => reject 404
      | Some columnIndex =>
          let column := default emptyColumn (columns !! columnIndex) in
          (* the rename; [inl] is an early return *)
          let renamed : nat + Column :=
            match name with
            | Some name =>
                let newName := normalizeColumnName (Some name) in
                if decide (newName = "") then inl 400
                else if columnNameExists columns (Some newName) (Some columnIndex)
                then inl 409
                else inr (set_cards (set_status (Some newName) <$> cardsOf column)
                            (set_name newName column))
            | None => inr column
            end in
          match renamed with
          | inl code => reject code
          | inr column =>
              let column :=
                match cards with
                | CardsArray cards =>
                    let normalizedColumn :=
                      default emptyColumn
                        (head (normalizeColumns now [set_cards cards column] false)) in
                    set_cards (cardsOf normalizedColumn) column
                | _ => column
                end in
              let columns := <[columnIndex := column]> columns in
              match order with
              | OrderUndefined | OrderNull => persist 200 (reindexColumns columns)
              | _ =>
                  match toNumber order with
                  | None => reject 400
                  | Some parsedOrder =>
                      let nextColumns := delete columnIndex columns in
                      let targetIndex :=
                        Z.min (Z.max (Qfloor parsedOrder - 1) 0)
                              (Z.of_nat (length nextColumns)) in
                      persist 200
                        (reindexColumns (Js.splice_insert targetIndex column nextColumns))
                  end
              end
          end
      end
  end.

(** [DELETE /:projectId/columns/:columnName] *)
Definition deleteColumn (now : Z) (project : option (list Column))
    (columnName : string) (targetColumn : option string) : Reply :=
  match project with
  | None => reject 404
  | Some stored =>
      let columns := sanitizeColumns now stored false false in
      match findColumnIndex columns (Some columnName) with
      | None => reject 404
      | Some columnIndex =>
          let removedColumn := default emptyColumn (columns !! columnIndex) in
          let columns := delete columnIndex columns in
          match col_cards removedColumn with
          | Some ((_ :: _) as removedCards) =>
              let normalizedTarget := normalizeColumnName targetColumn in
              if decide (normalizedTarget = "") then reject 400
              else match findColumnIndex columns (Some normalizedTarget) with
              | None => reject 400
              | Some targetIndex =>
                  let destinationName :=
                    col_name (default emptyColumn (columns !! targetIndex)) in
                  let migratedCards := set_status destinationName <$> removedCards in
                  persist 200
                    (reindexColumns
                       (alter (λ c, set_cards (cardsOf c ++ migratedCards) c)
                              targetIndex columns))
              end
          | _ => persist 200 (reindexColumns columns)
          end
      end
  end.

(** ** Project endpoints (the [columns] they store) *)

(** [POST /] *)
Definition createProject (now : Z) (name : option string)
    (columns : option (list Column)) : Reply :=
  match Js.or_null name with
  | None => reject 400
  | Some _ => persist 201 (normalizeColumns now (default [] columns) true)
  end.

(** [PUT /:projectId]; a [columns] payload that is an array is truthy even
    when it is empty. *)
Definition updateProject (now : Z) (project : option (list Column))
    (columns : option (list Column)) : Reply :=
  match project with
  | None => reject 404
  | Some _ =>
      match columns with
      | Some columns => persist 200 (normalizeColumns now columns false)
      | None => mkReply 200 None
      end
  end.

(** ** Members and invitations *)

Definition UserId := N.

Inductive Role := RoleOwner | RoleCollaborator.
Inductive InviteStatus := Pending | Accepted | Cancelled.

Record Member := mkMember {
  member_user : UserId;
  member_role : Role;
  member_addedBy : UserId;
  member_joinedAt : Z
}.

Record Invite := mkInvite {
  invite_email : string;
  invite_invitedBy : UserId;
  invite_status : InviteStatus;
  invite_invitedAt : Z;
  invite_acceptedAt : option Z;
  invite_cancelledAt : option Z
}.

Record Project := mkProject {
  project_owner : UserId;
  project_members : list Member;
  project_invites : list Invite
}.

Record User := mkUser {
  user_id : UserId;
  user_email : string
}.

#[global] Instance InviteStatus_eq_dec : EqDecision InviteStatus.
Proof. solve_decision. Defined.

(** [Project.findOne(buildProjectAccessQuery(projectId, userId))] on the
    document stored under [projectId], if there is one. *)
Definition findProject (store : option Project) (userId : UserId) : option Project :=
  match store with
  | Some project =>
      if bool_decide (project_owner project = userId)
         || existsb (λ member, bool_decide (member_user member = userId))
                    (project_members project)
      then Some project else None
  | None => None
  end.

Definition isProjectMember (project : Project) (userId : UserId) : bool :=
  if bool_decide (project_owner project = userId) then true
  else existsb (λ member, bool_decide (member_user member = userId))
               (project_members project).

Definition isProjectOwner (project : Project) (userId : UserId) : bool :=
  bool_decide (project_owner project = userId).

(** An entry of the [emails] array. *)
Inductive EmailEntry :=
| EmailString (s : string)
| EmailOther.

Definition normalizeEmail (email : EmailEntry) : string :=
  match email with
  | EmailString s => Js.toLowerCase (Js.trim s)
  | EmailOther => ""
  end.

(** [[...new Set(l)]]: the first occurrence of each element, in order. *)
Definition unique (l : list string) : list string :=
  reverse (remove_dups (reverse l)).

Record InviteResults := mkResults {
  addedMembers : list string;
  invitationsSent : list string;
  alreadyMembers : list string;
  alreadyInvited : list string;
  invalidEmails : list EmailEntry
}.

(** The variables the [forEach] over [normalizedEmails] updates;
    [loop_invites] is [project.invites], changed in place by
    [markInviteAccepted]. *)
Record InviteLoop := mkLoop {
  loop_invites : list Invite;
  membersToAdd : list Member;
  invitesToAdd : list Invite;
  results : InviteResults
}.

Definition markInviteAccepted (now : Z) (targetEmail : string)
    (invites : list Invite) : list Invite :=
  (λ invite,
     if bool_decide (invite_email invite = targetEmail)
        && bool_decide (invite_status invite = Pending)
     then {| invite_email := invite_email invite;
             invite_invitedBy := invite_invitedBy invite;
             invite_status := Accepted;
             invite_invitedAt := invite_invitedAt invite;
             invite_acceptedAt := Some now;
             invite_cancelledAt := invite_cancelledAt invite |}
     else invite) <$> invites.

(** [new Map(existingUsers.map(user => [normalizeEmail(user.email), user]))];
    a later entry replaces an earlier one with the same key. *)
Definition userMap (existingUsers : list User) : gmap string User :=
  foldl (λ m user, <[normalizeEmail (EmailString (user_email user)) := user]> m)
        ∅ existingUsers.

(** [User.find({ email: { $in: normalizedEmails } })] *)
Definition findUsers (users : list User) (normalizedEmails : list string) : list User :=
  filter (λ user, user_email user ∈ normalizedEmails) users.

(** The body of [normalizedEmails.forEach]. *)
Definition inviteStep (now : Z) (requester : UserId) (project : Project)
    (userByEmail : gmap string User) (st : InviteLoop) (normalizedEmail : string)
    : InviteLoop :=
  let r := results st in
  match userByEmail !! normalizedEmail with
  | Some existingUser =>
      let alreadyScheduled :=
        existsb (λ member, bool_decide (member_user member = user_id existingUser))
                (membersToAdd st)
        || isProjectMember project (user_id existingUser) in
      if alreadyScheduled
      then mkLoop (loop_invites st) (membersToAdd st) (invitesToAdd st)
             (mkResults (addedMembers r) (invitationsSent r)
                (alreadyMembers r ++ [normalizedEmail]) (alreadyInvited r)
                (invalidEmails r))
      else mkLoop (markInviteAccepted now normalizedEmail (loop_invites st))
             (membersToAdd st ++
                [mkMember (user_id existingUser) RoleCollaborator requester now])
             (invitesToAdd st)
             (mkResults (addedMembers r ++ [normalizedEmail]) (invitationsSent r)
                (alreadyMembers r) (alreadyInvited r) (invalidEmails r))
  | None =>
      let hasPendingInvite :=
        existsb (λ invite,
                   bool_decide (invite_email invite = normalizedEmail)
                   && bool_decide (invite_status invite = Pending))
                (loop_invites st) in
      if hasPendingInvite
      then mkLoop (loop_invites st) (membersToAdd st) (invitesToAdd st)
             (mkResults (addedMembers r) (invitationsSent r) (alreadyMembers r)
                (alreadyInvited r ++ [normalizedEmail]) (invalidEmails r))
      else mkLoop (loop_invites st) (membersToAdd st)
             (invitesToAdd st ++ [mkInvite normalizedEmail requester Pending now None None])
             (mkResults (addedMembers r) (invitationsSent r ++ [normalizedEmail])
                (alreadyMembers r) (alreadyInvited r) (invalidEmails r))
  end.

Record InviteReply := mkInviteReply {
  invite_code : nat;
  saved : option Project;
  reported : option InviteResults
}.

(** The emails of the request body, normalized, without the empty ones and
    without repetitions. *)
Definition requestedEmails (email : option string) (emails : option (list EmailEntry))
    : list EmailEntry :=
  default [] emails ++
  match email with
  | Some (String _ _ as s) => [EmailString s]
  | _ => []
  end.

Definition normalizedEmailsOf (requested : list EmailEntry) : list string :=
  unique (filter (λ e, e ≠ "") (normalizeEmail <$> requested)).

(** [POST /:projectId/invite] *)
Definition invite (now : Z) (store : option Project) (users : list User)
    (requester : UserId) (email : option string) (emails : option (list EmailEntry))
    : InviteReply :=
  let requested := requestedEmails email emails in
  let invalid := filter (λ raw, normalizeEmail raw = "") requested in
  let normalizedEmails := normalizedEmailsOf requested in
  match normalizedEmails with
  | [] => mkInviteReply 400 None None
  | _ =>
      match findProject store requester with
      | None => mkInviteReply 404 None None
      | Some project =>
          if negb (isProjectOwner project requester) then mkInviteReply 403 None None
          else
            let existingUsers := findUsers users normalizedEmails in
            let userByEmail := userMap existingUsers in
            let st :=
              foldl (inviteStep now requester project userByEmail)
                    (mkLoop (project_invites project) [] []
                       (mkResults [] [] [] [] invalid))
                    normalizedEmails in
            mkInviteReply 200
              (Some (mkProject (project_owner project)
                       (project_members project ++ membersToAdd st)
                       (loop_invites st ++ invitesToAdd st)))
              (Some (results st))
      end
  end.

(** ** More endpoints of the project routes *)

(** [invite] with the status and the date [markInviteAccepted] sets. *)
Definition acceptedInvite (now : Z) (invite : Invite) : Invite :=
  {| invite_email := invite_email invite;
     invite_invitedBy := invite_invitedBy invite;
     invite_status := Accepted;
     invite_invitedAt := invite_invitedAt invite;
     invite_acceptedAt := Some now;
     invite_cancelledAt := invite_cancelledAt invite |}.

(** [GET /:projectId/columns/:columnName]: the status and the [column] of
    the response. *)
Definition getColumn (now : Z) (project : option (list Column))
    (columnName : string) : nat * option Column :=
  match project with
  | None => (404, None)
  | Some stored =>
      let columns := normalizeExistingColumns now stored false false in
      match findColumnIndex columns (Some columnName) with
      | None => (404, None)
      | Some columnIndex => (200, columns !! columnIndex)
      end
  end.

Record RevokeResult := mkRevoked {
  membersRemoved : list string;
  invitesCancelled : list string;
  notFound : list string;
  notRemovable : list string;
  revoke_invalidEmails : list EmailEntry
}.

(** What the [forEach] of the revoke endpoint updates: [project.members]
    (spliced in place), [project.invites] (changed in place) and [result]. *)
Record RevokeLoop := mkRevokeLoop {
  revoke_members : list Member;
  revoke_invites : list Invite;
  revoke_result : RevokeResult
}.

(** [invite] with the status and the date the revoke endpoint sets. *)
Definition cancelledInvite (now : Z) (invite : Invite) : Invite :=
  {| invite_email := invite_email invite;
     invite_invitedBy := invite_invitedBy invite;
     invite_status := Cancelled;
     invite_invitedAt := invite_invitedAt invite;
     invite_acceptedAt := invite_acceptedAt invite;
     invite_cancelledAt := Some now |}.

(** The part of the loop body after the account branch: cancel the first
    pending invite for the email, or report the email as not found. *)
Definition revokeInvite (now : Z) (st : RevokeLoop) (normalizedEmail : string)
    : RevokeLoop :=
  let r := revoke_result st in
  match list_find (λ entry, invite_email entry = normalizedEmail
                            ∧ invite_status entry = Pending) (revoke_invites st) with
  | Some (i, invite) =>
      mkRevokeLoop (revoke_members st)
        (<[i := cancelledInvite now invite]> (revoke_invites st))
        (mkRevoked (membersRemoved r) (invitesCancelled r ++ [normalizedEmail])
           (notFound r) (notRemovable r) (revoke_invalidEmails r))
  | None =>
      mkRevokeLoop (revoke_members st) (revoke_invites st)
        (mkRevoked (membersRemoved r) (invitesCancelled r)
           (notFound r ++ [normalizedEmail]) (notRemovable r) (revoke_invalidEmails r))
  end.

(** The body of [normalizedEmails.forEach] in the revoke endpoint. *)
Definition revokeStep (now : Z) (project : Project) (userByEmail : gmap string User)
    (st : RevokeLoop) (normalizedEmail : string) : RevokeLoop :=
  let r := revoke_result st in
  match userByEmail !! normalizedEmail with
  | Some existingUser =>
      if bool_decide (project_owner project = user_id existingUser)
      then mkRevokeLoop (revoke_members st) (revoke_invites st)
             (mkRevoked (membersRemoved r) (invitesCancelled r) (notFound r)
                (notRemovable r ++ [normalizedEmail]) (revoke_invalidEmails r))
      else
        match list_find (λ member, member_user member = user_id existingUser)
                        (revoke_members st) with
        | Some (memberIndex, _) =>
            mkRevokeLoop (delete memberIndex (revoke_members st)) (revoke_invites st)
              (mkRevoked (membersRemoved r ++ [normalizedEmail]) (invitesCancelled r)
                 (notFound r) (notRemovable r) (revoke_invalidEmails r))
        | None => revokeInvite now st normalizedEmail
        end
  | None => revokeInvite now st normalizedEmail
  end.

Record RevokeReply := mkRevokeReply {
  revoke_code : nat;
  revoke_saved : option Project;
  revoke_reported : option RevokeResult
}.

(** [DELETE /:projectId/invite] *)
Definition revoke (now : Z) (store : option Project) (users : list User)
    (requester : UserId) (email : option string) (emails : option (list EmailEntry))
    : RevokeReply :=
  let requested := requestedEmails email emails in
  let invalid := filter (λ raw, normalizeEmail raw = "") requested in
  let normalizedEmails := normalizedEmailsOf requested in
  match normalizedEmails with
  | [] => mkRevokeReply 400 None None
  | _ =>
      match findProject store requester with
      | None => mkRevokeReply 404 None None
      | Some project =>
          if negb (isProjectOwner project requester) then mkRevokeReply 403 None None
          else
            let existingUsers := findUsers users normalizedEmails in
            let userByEmail := userMap existingUsers in
            let st :=
              foldl (revokeStep now project userByEmail)
                    (mkRevokeLoop (project_members project) (project_invites project)
                       (mkRevoked [] [] [] [] invalid))
                    normalizedEmails in
            match membersRemoved (revoke_result st), invitesCancelled (revoke_result st) with
            | [], [] => mkRevokeReply 404 None (Some (revoke_result st))
            | _, _ =>
                mkRevokeReply 200
                  (Some (mkProject (project_owner project)
                           (revoke_members st) (revoke_invites st)))
                  (Some (revoke_result st))
            end
      end
  end.

(** [User.findById(userId)] *)
Definition findById (users : list User) (userId : UserId) : option User :=
  snd <$> list_find (λ user, user_id user = userId) users.

(** [POST /:projectId/accept-invite]: the status and the project saved, if
    any.  [store] is the document under [projectId]; the query asks for a
    pending invite for the caller's email, not for access.  [invite.invitedBy]
    is always there, so it is the member's [addedBy]. *)
Definition acceptInvite (now : Z) (store : option Project) (users : list User)
    (caller : UserId) : nat * option Project :=
  match findById users caller with
  | None => (404, None)
  | Some user =>
      match Js.or_null (Some (user_email user)) with
      | None => (404, None)
      | Some _ =>
          let email := normalizeEmail (EmailString (user_email user)) in
          let isPending := λ entry : Invite,
            invite_email entry = email ∧ invite_status entry = Pending in
          let found :=
            match store with
            | Some project =>
                if existsb (λ entry, bool_decide (isPending entry)) (project_invites project)
                then Some project else None
            | None => None
            end in
          match found with
          | None => (404, None)
          | Some project =>
              match list_find isPending (project_invites project) with
              | None => (404, None)
              | Some (i, invite) =>
                  let members :=
                    if isProjectMember project (user_id user)
                    then project_members project
                    else project_members project ++
                         [mkMember (user_id user) RoleCollaborator
                                   (invite_invitedBy invite) now] in
                  (200,
                   Some (mkProject (project_owner project) members
                           (<[i := acceptedInvite now invite]> (project_invites project))))
              end
          end
      end
  end.

(** [s.split(sep)] for a separator of one character: the pieces between
    the separators, at least one. *)
Fixpoint split (sep : ascii) (s : string) : list string :=
  match s with
  | EmptyString => [EmptyString]
  | String c rest =>
      if decide (c = sep) then EmptyString :: split sep rest
      else match split sep rest with
           | piece :: pieces => String c piece :: pieces
           | [] => [String c EmptyString]
           end
  end.

(** An entry of [requestedColumns]. *)
Record RequestedColumn := mkRequested {
  requested_name : string;
  requested_exists : bool;
  requested_column : option Column
}.

(** The [requestedColumns] of [GET /:projectId/columns] for the [names] of
    the query string, [None] when the response has no such property;
    [names] is [None] when the query has no string under that key. *)
Definition requestedColumns (columns : list Column) (names : option string)
    : option (list RequestedColumn) :=
  match names with
  | Some names =>
      if decide (Js.trim names = "") then None
      else
        let requestedNames :=
          unique (filter (λ value, value ≠ "")
                    ((λ value, normalizeColumnName (Some value)) <$> split "," names)) in
        match requestedNames with
        | [] => None
        | _ =>
            Some ((λ targetName,
                     let column :=
                       snd <$> list_find
                         (λ col, Js.toLowerCase (normalizeColumnName (col_name col))
                                 = Js.toLowerCase targetName) columns in
                     mkRequested targetName (bool_decide (is_Some column)) column)
                  <$> requestedNames)
        end
  | None => None
  end.

(** [GET /:projectId/columns] with its query: the status, the [columns] and
    the [requestedColumns] of the response. *)
Definition listColumns (now : Z) (project : option (list Column)) (names : option string)
    : nat * list Column * option (list RequestedColumn) :=
  match project with
  | None => (404, [], None)
  | Some stored =>
      let columns := sortColumnsByOrder (normalizeExistingColumns now stored false false) in
      (200, columns, requestedColumns columns names)
  end.

(** * Vocabulary of the properties

    The predicates the theorems are stated with, the readings of the
    specification that the code is compared against, and the sample data
    the endpoints are run on. *)

(** ** Orders *)

(** The [order] fields read [1..N] along the array. *)
Definition dense_orders (columns : list Column) : Prop :=
  col_order <$> columns = (λ i, Some (position i)) <$> seq 0 (length columns).

(** What a reply stored, if anything, has dense orders. *)
Definition writes_dense (r : Reply) : Prop :=
  match written r with
  | Some columns => dense_orders columns
  | None => True
  end.

(** ** Boards *)

(** The card seeded into "To Do". *)
Definition seededCard (now : Z) : Card :=
  mkCard (Some "Task 1") (Some "Scrum 1 default work item") (Some "To Do") None (Some now).

(** The default board. *)
Definition defaultBoard (now : Z) : list Column :=
  [ mkColumn (Some "To Do") (Some 1%Q) (Some [seededCard now]) None;
    mkColumn (Some "In Progress") (Some 2%Q) (Some []) None;
    mkColumn (Some "In Review") (Some 3%Q) (Some []) None;
    mkColumn (Some "Done") (Some 4%Q) (Some []) None ].

(** A board with one card, used to run the endpoints. *)
Definition sampleCard : Card :=
  mkCard (Some "Fix login") (Some "") (Some "To Do") None (Some 7%Z).

Definition sampleBoard : list Column :=
  [ mkColumn (Some "To Do") (Some 1%Q) (Some [sampleCard]) None;
    mkColumn (Some "Done") (Some 2%Q) (Some []) None ].

(** ** Deleting, renaming *)

(** The rejection rule of the delete endpoint as the specification words
    it, for a column that holds cards: [missing] is the status for an absent
    or blank [targetColumn], [unknown] the status for one that names no
    remaining column.  Neither case may write. *)
Definition delete_rejects_with (missing unknown : nat)
    (now : Z) (stored : list Column) (columnName : string)
    (targetColumn : option string) : Prop :=
  let columns := sanitizeColumns now stored false false in
  let r := deleteColumn now (Some stored) columnName targetColumn in
  ∀ ci removed k ks,
    findColumnIndex columns (Some columnName) = Some ci →
    columns !! ci = Some removed →
    col_cards removed = Some (k :: ks) →
    (normalizeColumnName targetColumn = "" →
       status r = missing ∧ written r = None ∧ stored_after stored r = stored)
    ∧ (normalizeColumnName targetColumn ≠ "" →
       findColumnIndex (delete ci columns) (Some (normalizeColumnName targetColumn)) = None →
       status r = unknown ∧ written r = None ∧ stored_after stored r = stored).

(** [s] does not begin with white space. *)
Definition starts_clean (s : string) : Prop :=
  match s with
  | String c _ => Js.is_space c = false
  | EmptyString => True
  end.

(** The column as the rename step of the update endpoint leaves it. *)
Definition renamedColumn (name : option string) (column : Column) : Column :=
  match name with
  | Some name =>
      let newName := normalizeColumnName (Some name) in
      set_cards (set_status (Some newName) <$> cardsOf column) (set_name newName column)
  | None => column
  end.

(** The column as the card replacement step leaves it. *)
Definition withCards (now : Z) (cards : CardsArg) (column : Column) : Column :=
  match cards with
  | CardsArray l =>
      set_cards (cardsOf (normalizeColumn now false 0 (set_cards l column))) column
  | _ => column
  end.

(** The rename claim as it is stated: after a successful rename, whatever
    else the request carries, the cards of the column that bears the new
    name all have the new name as status. *)
Definition rename_mirrors_status (now : Z) (stored : list Column)
    (columnName name : string) (order : OrderArg) (cards : CardsArg) : Prop :=
  ∀ result,
    updateColumn now (Some stored) columnName (Some name) order cards
    = persist 200 result →
    ∀ c, c ∈ result → col_name c = Some (normalizeColumnName (Some name)) →
      Forall (λ k, card_status k = Some (normalizeColumnName (Some name))) (cardsOf c).

(** A card that arrives with a status of its own. *)
Definition blockedCard : Card :=
  mkCard (Some "Write docs") None (Some "Blocked") None None.

(** ** Names *)

Definition names_of (columns : list Column) : list (option string) :=
  col_name <$> columns.

(** Every column has a name, and the name is not empty. *)
Definition names_nonempty (columns : list Column) : Prop :=
  Forall (λ c, ∃ n, col_name c = Some n ∧ n ≠ "") columns.

(** The names as the data model wants them: non-empty, equal to their
    trimmed form, and pairwise different when letter case is ignored. *)
Definition names_canonical (columns : list Column) : Prop :=
  Forall (λ c, ∃ n, col_name c = Some n ∧ n ≠ "" ∧ Js.trim n = n) columns
  ∧ NoDup ((λ c, Js.toLowerCase (Js.or_else (col_name c) "")) <$> columns).

(** A property of what a reply stored, if it stored anything. *)
Definition stores (P : list Column → Prop) (r : Reply) : Prop :=
  match written r with
  | Some columns => P columns
  | None => True
  end.

(** [names_canonical] on the list of names alone. *)
Definition canonical_list (ns : list (option string)) : Prop :=
  Forall (λ o, ∃ n, o = Some n ∧ n ≠ "" ∧ Js.trim n = n) ns
  ∧ NoDup (nameKey <$> ns).

(** The naming claim as it is stated: whatever a column-producing
    operation stores has canonical names. *)
Definition stores_canonical_names (r : Reply) : Prop := stores names_canonical r.

(** ** Sorting *)

(** The number a column is sorted by. *)
Definition orderOf (c : Column) : Q := default Js.MAX_SAFE_INTEGER (col_order c).

(** [a] may stand before [b]: a smaller order, or the same order and a
    trimmed name that [localeCompare] does not put after the other. *)
Definition precedes (a b : Column) : Prop :=
  (orderOf a < orderOf b)%Q
  ∨ ((orderOf a == orderOf b)%Q
     ∧ Js.localeCompare (normalizeColumnName (col_name a))
                        (normalizeColumnName (col_name b)) ≠ Gt).

(** The comparison the specification describes: ties between equal orders
    broken by the names compared without regard to letter case. *)
Definition compareColumns_ignoring_case (a b : Column) : comparison :=
  let orderA := default Js.MAX_SAFE_INTEGER (col_order a) in
  let orderB := default Js.MAX_SAFE_INTEGER (col_order b) in
  if Qeq_bool orderA orderB
  then Js.localeCompare (Js.toLowerCase (normalizeColumnName (col_name a)))
                        (Js.toLowerCase (normalizeColumnName (col_name b)))
  else (orderA ?= orderB)%Q.

Definition sortColumns_ignoring_case (columns : list Column) : list Column :=
  Js.sort compareColumns_ignoring_case columns.

(** Two columns of equal order whose names differ in letter case only. *)
Definition bugUpper : Column := mkColumn (Some "Bug") (Some 1%Q) (Some []) None.
Definition bugLower : Column := mkColumn (Some "bug") (Some 1%Q) (Some []) None.

(** ** Normalizing twice *)

(** The first column declines the default card: it has a falsy
    [defaultCard] of its own and no cards. *)
Definition firstOptsOut (columns : list Column) : bool :=
  match columns with
  | c :: _ =>
      match col_defaultCard c, cardsOf c with
      | Some false, [] => true
      | _, _ => false
      end
  | [] => false
  end.

(** The name [normalizeColumn] resolves for the column at [index]. *)
Definition resolvedName (index : nat) (col : Column) : string :=
  Js.or_else (col_name col)
    (Js.or_else (col_name (default emptyColumn (DEFAULT_BOARD_COLUMNS !! index)))
       ("Column " +:+ pretty (S index))).

(** The card [createDefaultCards] makes for a column named [n]. *)
Definition taskCard (now : Z) (n : string) : Card :=
  mkCard (Some "Task 1") (Some "Scrum 1 default work item") (Some n) None (Some now).

(** The idempotence claim as it is stated: normalizing the output of
    [normalizeColumns] again, with the same flag and the same clock, changes
    nothing. *)
Definition normalize_idempotent (now : Z) (columns : list Column) (e : bool) : Prop :=
  normalizeColumns now (normalizeColumns now columns e) e = normalizeColumns now columns e.

(** ** Invitations *)

(** The effect on one invite of [markInviteAccepted] for all of [targets]. *)
Definition acceptFor (now : Z) (targets : list string) (invite : Invite) : Invite :=
  if bool_decide (invite_email invite ∈ targets)
     && bool_decide (invite_status invite = Pending)
  then acceptedInvite now invite else invite.

(** What holds of the loop variables of the invite endpoint between two
    iterations, for the invites [invites0] the project came with. *)
Record LoopInv (now : Z) (requester : UserId) (userByEmail : gmap string User)
    (invites0 : list Invite) (st : InviteLoop) : Prop := {
  inv_members : ∀ m, m ∈ membersToAdd st →
    member_role m = RoleCollaborator ∧ member_addedBy m = requester
    ∧ ∃ e u, e ∈ addedMembers (results st)
             ∧ userByEmail !! e = Some u ∧ member_user m = user_id u;
  inv_added : ∀ e, e ∈ addedMembers (results st) →
    ∃ u m, userByEmail !! e = Some u
           ∧ m ∈ membersToAdd st ∧ member_user m = user_id u;
  inv_sent : ∀ i, i ∈ invitesToAdd st → userByEmail !! invite_email i = None;
  inv_invites :
    loop_invites st = acceptFor now (addedMembers (results st)) <$> invites0
}.

(** A project with its owner and one pending invitation. *)
Definition sampleProject : Project :=
  mkProject 1%N
    [mkMember 1%N RoleOwner 1%N 0%Z]
    [mkInvite "ann@x.io" 1%N Pending 0%Z None None].

Definition sampleUsers : list User := [mkUser 1%N "owner@x.io"; mkUser 2%N "ann@x.io"].

(** ** Replies *)

(** A reply that stored something reports success. *)
Definition writes_only_on_success (r : Reply) : Prop :=
  written r = None ∨ status r = 200 ∨ status r = 201.

(** A reply either rejects and stores nothing, or succeeds and stores. *)
Definition writes_iff_success (r : Reply) : Prop :=
  (written r = None ∧ (400 ≤ status r)%nat)
  ∨ (is_Some (written r) ∧ (status r = 200 ∨ status r = 201)).

(** ** Boards that read back as they are *)

(** A card that [normalizeColumns] leaves as it is, in any column and at
    any time. *)
Definition stable_card (k : Card) : Prop :=
  ∀ now columnName, prepareCard now columnName k = k.

(** A column as the normalizer makes it: named, ordered, with an array of
    stable cards and no [defaultCard]. *)
Definition stable_column (c : Column) : Prop :=
  (∃ n, col_name c = Some n ∧ n ≠ "")
  ∧ is_Some (col_order c)
  ∧ (∃ cards, col_cards c = Some cards ∧ Forall stable_card cards)
  ∧ col_defaultCard c = None.

(** Sanitize-on-read and the column listing return the board unchanged, at
    any time. *)
Definition reads_back (columns : list Column) : Prop :=
  ∀ now, sanitizeColumns now columns false false = columns
         ∧ getColumns now (Some columns) = (200, columns).

(** ** What the schema requires *)

(** The fields [boardColumnSchema] and [boardCardSchema] mark as required are
    there: the column has a non-empty name and an array of cards, each with
    a non-empty status. *)
Definition schema_valid (c : Column) : Prop :=
  (∃ n, col_name c = Some n ∧ n ≠ "")
  ∧ ∃ cards, col_cards c = Some cards
             ∧ Forall (λ k, ∃ s, card_status k = Some s ∧ s ≠ "") cards.

(** ** Members and pending invitations *)

(** The accounts that are members of a project. *)
Definition member_users (members : list Member) : list UserId :=
  member_user <$> members.

(** The pending invitations for an email. *)
Definition pending_for (e : string) (invites : list Invite) : list Invite :=
  filter (λ i, invite_email i = e ∧ invite_status i = Pending) invites.

(** No email has two pending invitations. *)
Definition one_pending_each (invites : list Invite) : Prop :=
  ∀ e, (length (pending_for e invites) ≤ 1)%nat.

(** What the invite loop keeps true of the members it schedules. *)
Definition scheduled_ok (requester : UserId) (project : Project) (st : InviteLoop) : Prop :=
  NoDup (member_users (membersToAdd st))
  ∧ Forall (λ m, member_role m = RoleCollaborator ∧ member_addedBy m = requester
                 ∧ isProjectMember project (member_user m) = false)
           (membersToAdd st)
  ∧ length (membersToAdd st) = length (addedMembers (results st)).

(** What the invite loop keeps true of the invitations, with [rest] the
    emails still to be handled. *)
Definition pending_ok (invites0 : list Invite) (rest : list string) (st : InviteLoop)
    : Prop :=
  (∀ e, (length (pending_for e (loop_invites st))
         ≤ length (pending_for e invites0))%nat)
  ∧ NoDup (invite_email <$> invitesToAdd st)
  ∧ Forall (λ i, invite_status i = Pending
                 ∧ (invite_email i ∉ rest)
                 ∧ pending_for (invite_email i) (loop_invites st) = [])
           (invitesToAdd st).

(** The email [e] has been dealt with: its account is a member or is
    scheduled to become one, or, having no account, it has a pending
    invitation in the project or among the new ones. *)
Definition settled (project : Project) (userByEmail : gmap string User)
    (st : InviteLoop) (e : string) : Prop :=
  match userByEmail !! e with
  | Some u =>
      isProjectMember project (user_id u) = true
      ∨ user_id u ∈ member_users (membersToAdd st)
  | None =>
      pending_for e (loop_invites st) ≠ [] ∨ pending_for e (invitesToAdd st) ≠ []
  end.

(** ** Revoking access *)

(** What the revoke loop may have done between the states [st] and [st']:
    member rows were only taken out, one per email reported as removed, no
    row of the owner among them, and an invitation is either as it was or was
    pending and is now cancelled. *)
Definition revoked_from (now : Z) (owner : UserId) (st st' : RevokeLoop) : Prop :=
  revoke_members st' `sublist_of` revoke_members st
  ∧ (length (revoke_members st') + length (membersRemoved (revoke_result st'))
     = length (revoke_members st) + length (membersRemoved (revoke_result st)))%nat
  ∧ filter (λ m, member_user m = owner) (revoke_members st')
    = filter (λ m, member_user m = owner) (revoke_members st)
  ∧ Forall2 (λ i i', i' = i ∨ (invite_status i = Pending ∧ i' = cancelledInvite now i))
            (revoke_invites st) (revoke_invites st').

(** The emails reported as cancelled have no pending invitation left. *)
Definition cancelled_ok (st : RevokeLoop) : Prop :=
  one_pending_each (revoke_invites st)
  ∧ ∀ e, e ∈ invitesCancelled (revoke_result st)
         → pending_for e (revoke_invites st) = [].

(** What the invite loop keeps true of the emails it reports as invited. *)
Definition invited_ok (userByEmail : gmap string User) (st : InviteLoop) : Prop :=
  ∀ e, e ∈ invitationsSent (results st) ∨ e ∈ alreadyInvited (results st) →
       userByEmail !! e = None
       ∧ (pending_for e (loop_invites st) ≠ [] ∨ pending_for e (invitesToAdd st) ≠ []).

(** * Properties *)

Example normalize_empty_shape :
  col_name <$> normalizeColumns 0 [] true
  = [Some "To Do"; Some "In Progress"; Some "In Review"; Some "Done"].
Proof. reflexivity. Qed.

Example column_fallback_name :
  col_name <$> normalizeColumns 0 (replicate 5 emptyColumn) false
  = [Some "To Do"; Some "In Progress"; Some "In Review"; Some "Done"; Some "Column 5"].
Proof. vm_compute. reflexivity. Qed.

(** A fractional [order] below one makes the insertion index [-1], which
    [splice] counts from the end. *)
Example createColumn_fractional_order :
  names_of (stored_after sampleBoard
              (createColumn 0 (Some sampleBoard) (Some "Review") (OrderNumber (1 # 2))
                 CardsUndefined))
  = [Some "To Do"; Some "Review"; Some "Done"].
Proof. vm_compute. reflexivity. Qed.

Example updateColumn_moves_to_end :
  names_of (stored_after sampleBoard
              (updateColumn 0 (Some sampleBoard) "to do" None (OrderOther (Some 5%Q))
                 CardsUndefined))
  = [Some "Done"; Some "To Do"].
Proof. vm_compute. reflexivity. Qed.

Example updateColumn_name_taken :
  updateColumn 0 (Some sampleBoard) "to do" (Some "done ") OrderUndefined CardsUndefined
  = reject 409.
Proof. vm_compute. reflexivity. Qed.

Example normalizedEmails_first_occurrences :
  normalizedEmailsOf
    [EmailString " B@x "; EmailOther; EmailString "a@x"; EmailString "b@X"; EmailString "  "]
  = ["b@x"; "a@x"].
Proof. vm_compute. reflexivity. Qed.

(** ** Dense orders *)

Lemma imap_seq_from {A B} (f : nat → A → B) (g : B → option Q) (l : list A) k :
  (∀ i x, g (f i x) = Some (position (k + i))) →
  g <$> imap f l = (λ i, Some (position i)) <$> seq k (length l).
Proof.
  intros Hg. revert k f Hg. induction l as [|x l IH]; intros k f Hg; [done|].
  cbn [imap fmap list_fmap length seq]. f_equal.
  - rewrite Hg. by rewrite Nat.add_0_r.
  - apply (IH (S k)). intros i y. unfold compose. rewrite Hg.
    do 2 f_equal. lia.
Qed.

Lemma reindexColumns_dense columns : dense_orders (reindexColumns columns).
Proof.
  unfold dense_orders, reindexColumns. rewrite length_imap.
  by apply imap_seq_from.
Qed.

Lemma reindexColumns_length columns : length (reindexColumns columns) = length columns.
Proof. apply length_imap. Qed.

Lemma reindexColumns_lookup columns i :
  reindexColumns columns !! i = set_order (position i) <$> columns !! i.
Proof. unfold reindexColumns. by rewrite list_lookup_imap. Qed.

Lemma sanitizeColumns_dense now columns f e :
  dense_orders (sanitizeColumns now columns f e).
Proof.
  unfold sanitizeColumns. case_match; [done|]. apply reindexColumns_dense.
Qed.

Lemma createColumn_dense now project name order cards :
  writes_dense (createColumn now project name order cards).
Proof.
  unfold createColumn, writes_dense.
  repeat case_match; simplify_eq/=; try done; apply reindexColumns_dense.
Qed.

Lemma updateColumn_dense now project columnName name order cards :
  writes_dense (updateColumn now project columnName name order cards).
Proof.
  unfold updateColumn, writes_dense.
  repeat case_match; simplify_eq/=; try done; apply reindexColumns_dense.
Qed.

Lemma deleteColumn_dense now project columnName targetColumn :
  writes_dense (deleteColumn now project columnName targetColumn).
Proof.
  unfold deleteColumn, writes_dense.
  repeat case_match; simplify_eq/=; try done; apply reindexColumns_dense.
Qed.

(** C2: the list [sanitizeColumns] returns, and the list each of the column
    endpoints (create, update, delete) stores, carries the orders [1..N] in
    array position, whatever its length. *)
Theorem orders_dense_after_column_operations
    now stored fallbackToDefault enforceDefaultCard project
    name order cards columnName targetColumn :
  dense_orders (sanitizeColumns now stored fallbackToDefault enforceDefaultCard)
  ∧ writes_dense (createColumn now project name order cards)
  ∧ writes_dense (updateColumn now project columnName name order cards)
  ∧ writes_dense (deleteColumn now project columnName targetColumn).
Proof.
  split; [apply sanitizeColumns_dense|].
  split; [apply createColumn_dense|].
  split; [apply updateColumn_dense|apply deleteColumn_dense].
Qed.

(** ** The default board *)

(** C1: on an empty list [normalizeColumns] returns the four default columns
    with orders 1 to 4, and "To Do" carries the seeded card for either value
    of [enforceDefaultCard]: the flag is not consulted on this path, so with
    [enforceDefaultCard = false] the board is not free of cards. *)
Theorem normalizeColumns_empty_seeds_regardless now enforceDefaultCard :
  normalizeColumns now [] enforceDefaultCard = defaultBoard now
  ∧ (cardsOf <$> normalizeColumns now [] false) = [[seededCard now]; []; []; []].
Proof. split; reflexivity. Qed.

(** ** Sanitize-on-read of an empty board *)

Lemma or_else_nonempty s d : s ≠ "" → Js.or_else (Some s) d = s.
Proof. by destruct s. Qed.

Lemma or_else_default_nonempty o d : d ≠ "" → Js.or_else o d ≠ "".
Proof. destruct o as [[|]|]; simpl; congruence. Qed.

Lemma splice_insert_nil {A} start (x : A) : Js.splice_insert start x [] = [x].
Proof. unfold Js.splice_insert. by rewrite take_nil, drop_nil. Qed.

Lemma normalizeColumns_cons now c columns e :
  normalizeColumns now (c :: columns) e = imap (normalizeColumn now e) (c :: columns).
Proof. reflexivity. Qed.

Lemma normalizeColumn_name_given now e i c n :
  col_name c = Some n → n ≠ "" → col_name (normalizeColumn now e i c) = Some n.
Proof.
  intros Hc Hn. unfold normalizeColumn. cbn [col_name].
  rewrite Hc. by rewrite or_else_nonempty.
Qed.

(** C10: with [fallbackToDefault] left at [false], an empty stored list stays
    empty through [normalizeExistingColumns] and [sanitizeColumns], the
    column listing of such a project has no column, and creating a column on
    it stores a board of exactly that one column. *)
Theorem empty_board_is_not_resurrected now enforceDefaultCard name order cards :
  normalizeColumnName name ≠ "" →
  (cards = CardsUndefined ∨ ∃ l, cards = CardsArray l) →
  normalizeExistingColumns now [] false enforceDefaultCard = []
  ∧ sanitizeColumns now [] false enforceDefaultCard = []
  ∧ getColumns now (Some []) = (200, [])
  ∧ ∃ column,
      createColumn now (Some []) name order cards = persist 201 [column]
      ∧ col_name column = Some (normalizeColumnName name)
      ∧ col_order column = Some 1%Q.
Proof.
  intros Hname Hcards. do 3 (split; [reflexivity|]).
  unfold createColumn. rewrite decide_False by done.
  assert (match cards with CardsUndefined | CardsArray _ => false | _ => true end = false)
    as -> by (destruct Hcards as [->|[l ->]]; done).
  cbn [sanitizeColumns normalizeExistingColumns].
  unfold columnNameExists. cbn [imap existsb].
  replace (if decide (nameKey (Some (normalizeColumnName name)) = "") then false else false)
    with false by (by case_match).
  rewrite normalizeColumns_cons. cbn [imap head default].
  rewrite splice_insert_nil. eexists. split; [reflexivity|].
  split; [|reflexivity].
  cbn [set_order col_name]. by apply normalizeColumn_name_given.
Qed.

(** ** Deleting a column *)

Lemma findColumnIndex_nonempty columns name i :
  findColumnIndex columns (Some name) = Some i → name ≠ "".
Proof.
  intros H ->. unfold findColumnIndex in H. by rewrite decide_True in H.
Qed.

Lemma findColumnIndex_lookup columns name i :
  findColumnIndex columns name = Some i →
  ∃ c, columns !! i = Some c ∧ nameKey (col_name c) = nameKey name ∧ nameKey name ≠ "".
Proof.
  unfold findColumnIndex. case_decide; [done|].
  destruct (list_find _ _) as [[j c]|] eqn:Hf; [|done].
  intros [= <-]. apply list_find_Some in Hf as (Hl & Hk & _). eauto.
Qed.

(** C3: deleting a column that holds cards, with a [targetColumn] that
    resolves to one of the remaining columns, stores a board in which the
    destination holds its former cards followed by the removed column's
    cards, each with the destination's name as status; the other columns
    keep their cards, so no card is lost. *)
Theorem delete_migrates_cards
    now stored columnName targetColumn ci removed k ks ti dest :
  let columns := sanitizeColumns now stored false false in
  let remaining := delete ci columns in
  findColumnIndex columns (Some columnName) = Some ci →
  columns !! ci = Some removed →
  col_cards removed = Some (k :: ks) →
  findColumnIndex remaining (Some (normalizeColumnName targetColumn)) = Some ti →
  remaining !! ti = Some dest →
  ∃ result dest',
    deleteColumn now (Some stored) columnName targetColumn = persist 200 result
    ∧ length result = length remaining
    ∧ result !! ti = Some dest'
    ∧ col_name dest' = col_name dest
    ∧ cardsOf dest' = cardsOf dest ++ (set_status (col_name dest) <$> k :: ks)
    ∧ length (cardsOf dest') = length (cardsOf dest) + length (cardsOf removed)
    ∧ Forall (λ card, card_status card = col_name dest)
             (drop (length (cardsOf dest)) (cardsOf dest'))
    ∧ ∀ j c, j ≠ ti → remaining !! j = Some c →
        ∃ c', result !! j = Some c'
              ∧ col_name c' = col_name c ∧ col_cards c' = col_cards c.
Proof.
  intros columns remaining Hci Hremoved Hcards Hti Hdest.
  pose proof (findColumnIndex_nonempty _ _ _ Hti) as Htarget.
  unfold deleteColumn. cbv zeta. fold columns. rewrite Hci, Hremoved. cbn [from_option id].
  rewrite Hcards. fold remaining. rewrite decide_False by done.
  rewrite Hti, Hdest. cbn [from_option id].
  eexists _, _. split; [reflexivity|].
  split; [by rewrite reindexColumns_length, length_alter|].
  split.
  { rewrite reindexColumns_lookup, list_lookup_alter_eq, Hdest. reflexivity. }
  split; [reflexivity|].
  assert (∀ q cs c, cardsOf (set_order q (set_cards cs c)) = cs) as -> by done.
  split; [reflexivity|].
  split.
  { rewrite length_app, length_fmap. unfold cardsOf at 3. by rewrite Hcards. }
  split.
  { rewrite drop_app_length. apply Forall_fmap, Forall_true. done. }
  intros j c Hj Hc. eexists. split.
  { rewrite reindexColumns_lookup, list_lookup_alter_ne, Hc by done. reflexivity. }
  done.
Qed.

(** C4, as amended: deleting a column that holds cards is rejected with
    status 400 when [targetColumn] is absent or blank, and with status 400 as
    well when it names no remaining column; neither rejection writes, so the
    stored columns stay as they were. *)
Theorem delete_rejections_do_not_write
    now stored columnName targetColumn ci removed k ks :
  let columns := sanitizeColumns now stored false false in
  let r := deleteColumn now (Some stored) columnName targetColumn in
  findColumnIndex columns (Some columnName) = Some ci →
  columns !! ci = Some removed →
  col_cards removed = Some (k :: ks) →
  (normalizeColumnName targetColumn = "" →
     status r = 400 ∧ written r = None ∧ stored_after stored r = stored)
  ∧ (normalizeColumnName targetColumn ≠ "" →
     findColumnIndex (delete ci columns) (Some (normalizeColumnName targetColumn)) = None →
     status r = 400 ∧ written r = None ∧ stored_after stored r = stored).
Proof.
  intros columns r Hci Hremoved Hcards. subst r.
  unfold deleteColumn. cbv zeta. fold columns. rewrite Hci, Hremoved. cbn [from_option id].
  rewrite Hcards. split.
  - intros ->. by rewrite decide_True.
  - intros Hne Hnone. rewrite decide_False by done. by rewrite Hnone.
Qed.

(** ** Lists after a splice *)

Lemma splice_insert_Permutation {A} start (x : A) l :
  Js.splice_insert start x l ≡ₚ x :: l.
Proof.
  unfold Js.splice_insert.
  rewrite <- Permutation_middle. by rewrite take_drop.
Qed.

Lemma insert_delete_Permutation {A} (l : list A) i x y :
  l !! i = Some y → <[i := x]> l ≡ₚ x :: delete i l.
Proof.
  intros Hi. revert i Hi. induction l as [|z l IH]; intros [|i] Hi; simplify_eq/=.
  - done.
  - rewrite (IH i Hi). apply perm_swap.
Qed.

Lemma delete_insert_same {A} (l : list A) i x : delete i (<[i := x]> l) = delete i l.
Proof.
  revert i. induction l as [|z l IH]; intros [|i]; simpl; try done.
  by rewrite IH.
Qed.

Lemma elem_of_delete_lookup {A} (l : list A) i x :
  x ∈ delete i l → ∃ j, j ≠ i ∧ l !! j = Some x.
Proof.
  revert i. induction l as [|z l IH]; intros [|i]; simpl.
  - by intros ?%elem_of_nil.
  - by intros ?%elem_of_nil.
  - intros [j Hj]%list_elem_of_lookup. exists (S j). done.
  - intros [->|Hx]%elem_of_cons.
    + exists 0. done.
    + destruct (IH _ Hx) as (j & ? & ?). exists (S j). split; [lia|done].
Qed.

Lemma elem_of_reindexColumns c columns :
  c ∈ reindexColumns columns → ∃ q d, d ∈ columns ∧ c = set_order q d.
Proof.
  intros [i Hi]%list_elem_of_lookup. rewrite reindexColumns_lookup in Hi.
  destruct (columns !! i) as [d|] eqn:Hd; simplify_eq/=.
  exists (position i), d. split; [|done]. eapply list_elem_of_lookup_2; eauto.
Qed.

(** ** Name collisions *)

Lemma columnNameExists_false columns name ignoreIndex j c :
  columnNameExists columns name ignoreIndex = false →
  nameKey name ≠ "" →
  columns !! j = Some c →
  Some j ≠ ignoreIndex →
  nameKey (col_name c) ≠ nameKey name.
Proof.
  unfold columnNameExists. intros Hex Hne Hj Hig Heq.
  rewrite decide_False in Hex by done.
  apply not_true_iff_false in Hex. apply Hex.
  apply existsb_exists. exists true. split; [|done].
  apply list_elem_of_In, list_elem_of_lookup. exists j.
  rewrite list_lookup_imap, Hj. simpl.
  by rewrite !bool_decide_eq_true_2.
Qed.

(** ** Trimming *)

Lemma trimStart_clean s : starts_clean (Js.trimStart s).
Proof.
  induction s as [|c s IH]; simpl; [done|].
  destruct (Js.is_space c) eqn:Hc; [done|]. simpl. done.
Qed.

Lemma trimStart_id s : starts_clean s → Js.trimStart s = s.
Proof. destruct s as [|c s]; simpl; [done|]. by intros ->. Qed.

Lemma trimEnd_clean s : starts_clean s → starts_clean (Js.trimEnd s).
Proof.
  destruct s as [|c s]; simpl; [done|]. intros Hc.
  destruct (Js.trimEnd s); rewrite ?Hc; done.
Qed.

Lemma trimEnd_idem s : Js.trimEnd (Js.trimEnd s) = Js.trimEnd s.
Proof.
  induction s as [|c s IH]; simpl; [done|].
  destruct (Js.trimEnd s) as [|d r] eqn:Hr.
  - destruct (Js.is_space c) eqn:Hc; simpl; [done|]. by rewrite Hc.
  - change (Js.trimEnd (String c (String d r)))
      with (match Js.trimEnd (String d r) with
            | EmptyString => if Js.is_space c then EmptyString else String c EmptyString
            | r' => String c r'
            end).
    by rewrite IH.
Qed.

Lemma trim_idem s : Js.trim (Js.trim s) = Js.trim s.
Proof.
  unfold Js.trim.
  rewrite (trimStart_id (Js.trimEnd _)) by apply trimEnd_clean, trimStart_clean.
  apply trimEnd_idem.
Qed.

Lemma toLowerCase_empty s : Js.toLowerCase s = "" ↔ s = "".
Proof. destruct s; simpl; split; congruence. Qed.

Lemma normalizeColumnName_Some s : normalizeColumnName (Some s) = Js.trim s.
Proof. by destruct s. Qed.

(** The key of a name that is already trimmed. *)
Lemma nameKey_trimmed n : Js.trim n = n → nameKey (Some n) = Js.toLowerCase n.
Proof. intros H. unfold nameKey. by rewrite normalizeColumnName_Some, H. Qed.

Lemma nameKey_normalized name :
  nameKey (Some (normalizeColumnName name)) = Js.toLowerCase (normalizeColumnName name).
Proof.
  apply nameKey_trimmed. unfold normalizeColumnName. apply trim_idem.
Qed.

(** ** Updating a column *)

(** What the update endpoint stores: the columns of the sanitized board
    with the addressed one renamed, refilled and moved, then reindexed. *)
Lemma updateColumn_written now stored columnName name order cards result :
  let columns := sanitizeColumns now stored false false in
  let r := updateColumn now (Some stored) columnName name order cards in
  written r = Some result →
  ∃ ci column moved,
    findColumnIndex columns (Some columnName) = Some ci
    ∧ columns !! ci = Some column
    ∧ (∀ n, name = Some n →
         normalizeColumnName (Some n) ≠ ""
         ∧ columnNameExists columns (Some (normalizeColumnName (Some n))) (Some ci) = false)
    ∧ status r = 200
    ∧ result = reindexColumns moved
    ∧ moved ≡ₚ withCards now cards (renamedColumn name column) :: delete ci columns.
Proof.
  intros columns r. subst r. unfold updateColumn. cbv zeta. fold columns.
  destruct (negb _); [done|].
  destruct (match cards with CardsOther => true | _ => false end); [done|].
  destruct (findColumnIndex columns (Some columnName)) as [ci|] eqn:Hci; [|done].
  destruct (findColumnIndex_lookup _ _ _ Hci) as (column & Hcol & _).
  rewrite Hcol. cbn [from_option id].
  set (renamed := match name with Some _ => _ | None => _ end).
  assert (∀ c', renamed = inr c' →
            c' = renamedColumn name column
            ∧ ∀ n, name = Some n →
                normalizeColumnName (Some n) ≠ ""
                ∧ columnNameExists columns (Some (normalizeColumnName (Some n))) (Some ci)
                  = false) as Hrenamed.
  { subst renamed. intros c'. destruct name as [n|]; simpl.
    - case_decide as Hn; [done|].
      destruct (columnNameExists _ _ _) eqn:Hex; [done|].
      intros [= <-]. split; [done|]. intros ? [= <-]. done.
    - intros [= <-]. split; [done|]. by intros. }
  destruct renamed as [code|c']; [done|].
  destruct (Hrenamed c' eq_refl) as [-> Hname]. clear Hrenamed.
  set (column' := match cards with CardsArray _ => _ | _ => _ end).
  assert (column' = withCards now cards (renamedColumn name column)) as Hcolumn'.
  { subst column'. by destruct cards. }
  rewrite Hcolumn'. clear column' Hcolumn'.
  set (column' := withCards now cards (renamedColumn name column)).
  intros Hw. exists ci, column.
  destruct order as [| |q|[q|]]; cbn [toNumber] in *; try done;
    injection Hw as <-; eexists;
    (split; [done|]); (split; [done|]); (split; [exact Hname|]);
    (split; [reflexivity|]); (split; [reflexivity|]).
  - by eapply insert_delete_Permutation.
  - by eapply insert_delete_Permutation.
  - rewrite splice_insert_Permutation. by rewrite delete_insert_same.
  - rewrite splice_insert_Permutation. by rewrite delete_insert_same.
Qed.

Lemma normalizeColumn_cards_kept now i c n l :
  col_name c = Some n → n ≠ "" → col_cards c = Some l →
  cardsOf (normalizeColumn now false i c) = prepareCard now n <$> l.
Proof.
  intros Hn Hne Hl. unfold normalizeColumn, cardsOf. cbn [col_cards from_option id].
  rewrite Hn, Hl, (or_else_nonempty n) by done.
  by destruct l.
Qed.

Lemma nameKey_new_nonempty name :
  normalizeColumnName name ≠ "" → nameKey (Some (normalizeColumnName name)) ≠ "".
Proof. intros Hne. rewrite nameKey_normalized. by rewrite toLowerCase_empty. Qed.

(** C5, as amended: after a successful rename the stored board has a column
    with the new name; when the request carries no [cards] array, every card
    of that column has the new name as status; when it does, the column holds
    the supplied cards as [normalizeColumns] prepares them, so a supplied card
    keeps a non-empty status of its own and takes the new name otherwise. *)
Theorem rename_rewrites_status now stored columnName name order cards result :
  let newName := normalizeColumnName (Some name) in
  updateColumn now (Some stored) columnName (Some name) order cards
  = persist 200 result →
  (∃ c, c ∈ result ∧ col_name c = Some newName)
  ∧ ∀ c, c ∈ result → col_name c = Some newName →
      match cards with
      | CardsArray l => cardsOf c = prepareCard now newName <$> l
      | _ => Forall (λ k, card_status k = Some newName) (cardsOf c)
      end.
Proof.
  intros newName Hupd.
  destruct (updateColumn_written now stored columnName (Some name) order cards result)
    as (ci & column & moved & Hci & Hcol & Hname & _ & -> & Hperm).
  { by rewrite Hupd. }
  destruct (Hname name eq_refl) as [Hne Hex]. fold newName in Hne, Hex.
  set (column' := withCards now cards (renamedColumn (Some name) column)) in *.
  assert (col_name column' = Some newName) as Hname'.
  { subst column'. by destruct cards. }
  assert (match cards with
          | CardsArray l => cardsOf column' = prepareCard now newName <$> l
          | _ => Forall (λ k, card_status k = Some newName) (cardsOf column')
          end) as Hcards'.
  { subst column'. destruct cards as [| |l|]; cbn [withCards];
      try (apply Forall_fmap, Forall_true; done).
    change (cardsOf (set_cards ?x _)) with x.
    by apply normalizeColumn_cards_kept. }
  split.
  - assert (column' ∈ moved) as [i Hi]%list_elem_of_lookup.
    { rewrite Hperm. left. }
    exists (set_order (position i) column'). split; [|done].
    apply list_elem_of_lookup. exists i.
    by rewrite reindexColumns_lookup, Hi.
  - intros c [q [d [Hd ->]]]%elem_of_reindexColumns Hc.
    change (col_name (set_order q d)) with (col_name d) in Hc.
    change (cardsOf (set_order q d)) with (cardsOf d).
    rewrite Hperm in Hd. apply elem_of_cons in Hd as [->|Hd]; [done|].
    exfalso. apply elem_of_delete_lookup in Hd as (j & Hj & Hd).
    eapply (columnNameExists_false _ _ _ j d Hex); [by apply nameKey_new_nonempty|done| |].
    + intros [= ?]. done.
    + by rewrite Hc.
Qed.

(** ** Column names *)

Lemma sort_insert_Permutation {A} (cmp : A → A → comparison) x l :
  Js.sort_insert cmp x l ≡ₚ x :: l.
Proof.
  induction l as [|y l IH]; simpl; [done|].
  destruct (cmp x y); try done. rewrite IH. apply perm_swap.
Qed.

Lemma sort_Permutation {A} (cmp : A → A → comparison) l : Js.sort cmp l ≡ₚ l.
Proof.
  induction l as [|x l IH]; simpl; [done|].
  by rewrite sort_insert_Permutation, IH.
Qed.

Lemma names_of_reindexColumns columns : names_of (reindexColumns columns) = names_of columns.
Proof.
  unfold names_of. apply list_eq. intros i.
  rewrite !list_lookup_fmap, reindexColumns_lookup.
  by destruct (columns !! i).
Qed.

Lemma cards_of_reindexColumns columns :
  col_cards <$> reindexColumns columns = col_cards <$> columns.
Proof.
  apply list_eq. intros i.
  rewrite !list_lookup_fmap, reindexColumns_lookup.
  by destruct (columns !! i).
Qed.

Lemma column_name_ne index : "Column " +:+ pretty (S index) ≠ "".
Proof. done. Qed.

Lemma normalizeColumn_name_nonempty now e i c :
  ∃ n, col_name (normalizeColumn now e i c) = Some n ∧ n ≠ "".
Proof.
  eexists. split; [reflexivity|].
  apply or_else_default_nonempty, or_else_default_nonempty, column_name_ne.
Qed.

Lemma Forall_imap {A B} (P : B → Prop) (f : nat → A → B) l :
  (∀ i x, P (f i x)) → Forall P (imap f l).
Proof.
  intros Hf. apply Forall_lookup. intros i y.
  rewrite list_lookup_imap. destruct (l !! i); intros [= <-]. apply Hf.
Qed.

Lemma normalizeColumns_names_nonempty now columns e :
  names_nonempty (normalizeColumns now columns e).
Proof.
  destruct columns as [|c columns].
  - repeat constructor; (eexists; split; [reflexivity|done]).
  - rewrite normalizeColumns_cons. apply Forall_imap.
    intros. apply normalizeColumn_name_nonempty.
Qed.

Lemma names_nonempty_spec columns :
  names_nonempty columns ↔ Forall (λ o, ∃ n, o = Some n ∧ n ≠ "") (names_of columns).
Proof. unfold names_nonempty, names_of. by rewrite Forall_fmap. Qed.

Lemma names_canonical_spec columns :
  names_canonical columns ↔
  Forall (λ o, ∃ n, o = Some n ∧ n ≠ "" ∧ Js.trim n = n) (names_of columns)
  ∧ NoDup (nameKey <$> names_of columns).
Proof.
  unfold names_canonical, names_of. rewrite Forall_fmap, <- list_fmap_compose.
  assert (Forall (λ c, ∃ n, col_name c = Some n ∧ n ≠ "" ∧ Js.trim n = n) columns →
          (λ c, Js.toLowerCase (Js.or_else (col_name c) "")) <$> columns
          = nameKey ∘ col_name <$> columns) as Hkeys.
  2:{ split; intros [Hall Hdup]; (split; [done|]);
        [rewrite <- Hkeys|rewrite Hkeys]; done. }
  intros Hall. apply Forall_fmap_ext_1. eapply Forall_impl; [exact Hall|].
  intros c (n & Hn & Hne & Htrim). simpl. rewrite Hn.
  rewrite nameKey_trimmed by done. by rewrite or_else_nonempty.
Qed.

Lemma sanitizeColumns_names_nonempty now stored f e :
  names_nonempty (sanitizeColumns now stored f e).
Proof.
  unfold sanitizeColumns.
  assert (names_nonempty (normalizeExistingColumns now stored f e)) as H.
  { unfold normalizeExistingColumns. destruct stored; [destruct f|].
    - apply normalizeColumns_names_nonempty.
    - constructor.
    - apply normalizeColumns_names_nonempty. }
  destruct (normalizeExistingColumns now stored f e) as [|c l] eqn:Hl; [constructor|].
  apply names_nonempty_spec. rewrite names_of_reindexColumns.
  unfold names_of, sortColumnsByOrder. rewrite sort_Permutation.
  by apply names_nonempty_spec.
Qed.

Lemma canonical_list_perm ns ns' : ns ≡ₚ ns' → canonical_list ns → canonical_list ns'.
Proof. intros Hp [Hall Hdup]. split; by rewrite <- Hp. Qed.

Lemma canonical_list_delete ns i : canonical_list ns → canonical_list (delete i ns).
Proof.
  intros [Hall Hdup]. split.
  - by apply Forall_delete.
  - rewrite list_fmap_delete. eapply sublist_NoDup; [done|apply sublist_delete].
Qed.

Lemma canonical_list_cons n ns :
  n ≠ "" → Js.trim n = n → nameKey (Some n) ∉ nameKey <$> ns →
  canonical_list ns → canonical_list (Some n :: ns).
Proof.
  intros Hne Htrim Hfresh [Hall Hdup]. split.
  - constructor; [eauto|done].
  - rewrite fmap_cons. by constructor.
Qed.

Lemma normalizeColumns_names_kept now c columns e :
  names_nonempty (c :: columns) →
  names_of (normalizeColumns now (c :: columns) e) = names_of (c :: columns).
Proof.
  intros Hall. rewrite normalizeColumns_cons. unfold names_of.
  apply list_eq. intros i. rewrite !list_lookup_fmap, list_lookup_imap.
  destruct ((c :: columns) !! i) as [d|] eqn:Hd; [|done].
  change (Some (col_name (normalizeColumn now e i d)) = Some (col_name d)).
  destruct (Forall_lookup_1 _ _ _ _ Hall Hd) as (n & Hn & Hne).
  by rewrite (normalizeColumn_name_given now e i d n), Hn.
Qed.

Lemma sanitizeColumns_names now stored e :
  names_nonempty stored →
  names_of (sanitizeColumns now stored false e) ≡ₚ names_of stored.
Proof.
  intros Hall. unfold sanitizeColumns, normalizeExistingColumns.
  destruct stored as [|c stored]; [done|].
  destruct (normalizeColumns now (c :: stored) e) as [|c' l] eqn:Hl; [done|].
  rewrite names_of_reindexColumns. unfold names_of at 1, sortColumnsByOrder.
  rewrite sort_Permutation. fold (names_of (c' :: l)).
  by rewrite <- Hl, normalizeColumns_names_kept.
Qed.

Lemma names_canonical_nonempty columns : names_canonical columns → names_nonempty columns.
Proof.
  intros [Hall _]. eapply Forall_impl; [exact Hall|].
  intros c (n & ? & ? & ?). eauto.
Qed.

Lemma sanitizeColumns_canonical now stored e :
  names_canonical stored → names_canonical (sanitizeColumns now stored false e).
Proof.
  intros Hc. apply names_canonical_spec.
  eapply canonical_list_perm.
  - symmetry. by apply sanitizeColumns_names, names_canonical_nonempty.
  - by apply names_canonical_spec.
Qed.

(** What the create endpoint stores: the sanitized board and the prepared
    column, which bears the trimmed name, reindexed. *)
Lemma createColumn_written now stored name order cards result :
  let columns := sanitizeColumns now stored false false in
  written (createColumn now (Some stored) name order cards) = Some result →
  ∃ prepared moved,
    normalizeColumnName name ≠ ""
    ∧ columnNameExists columns (Some (normalizeColumnName name)) None = false
    ∧ col_name prepared = Some (normalizeColumnName name)
    ∧ result = reindexColumns moved
    ∧ moved ≡ₚ prepared :: columns.
Proof.
  intros columns. unfold createColumn. cbv zeta. fold columns.
  case_decide as Hne; [done|].
  destruct (match cards with CardsUndefined | CardsArray _ => false | _ => true end);
    [done|].
  destruct (columnNameExists _ _ _) eqn:Hex; [done|].
  intros [= <-]. eexists _, _. split; [done|]. split; [done|].
  split; last (split; [reflexivity|apply splice_insert_Permutation]).
  by apply normalizeColumn_name_given.
Qed.

(** What the delete endpoint stores: the sanitized board without the
    addressed column, names untouched, reindexed. *)
Lemma deleteColumn_written now stored columnName targetColumn result :
  let columns := sanitizeColumns now stored false false in
  written (deleteColumn now (Some stored) columnName targetColumn) = Some result →
  ∃ ci, findColumnIndex columns (Some columnName) = Some ci
        ∧ names_of result = delete ci (names_of columns).
Proof.
  intros columns. unfold deleteColumn. cbv zeta. fold columns.
  destruct (findColumnIndex columns (Some columnName)) as [ci|]; [|done].
  intros Hw. exists ci. split; [done|].
  assert (∀ f i, names_of (alter (λ c, set_cards (f c) c) i (delete ci columns))
                 = delete ci (names_of columns)) as Halter.
  { intros f i. unfold names_of. rewrite <- list_fmap_delete.
    apply list_eq. intros j. rewrite !list_lookup_fmap, list_lookup_alter.
    destruct (decide (i = j)) as [->|?]; [by destruct (delete ci columns !! j)|done]. }
  repeat case_match; simplify_eq/=;
    rewrite names_of_reindexColumns;
    try (unfold names_of; by rewrite list_fmap_delete);
    apply Halter.
Qed.

Lemma withCards_name now cards c : col_name (withCards now cards c) = col_name c.
Proof. by destruct cards. Qed.

Lemma names_of_perm l l' : l ≡ₚ l' → names_of l ≡ₚ names_of l'.
Proof. intros H. unfold names_of. by rewrite H. Qed.

Lemma fresh_key_outside columns name ci :
  columnNameExists columns name (Some ci) = false →
  nameKey name ≠ "" →
  nameKey name ∉ nameKey <$> delete ci (names_of columns).
Proof.
  intros Hex Hne Hin. unfold names_of in Hin.
  rewrite <- list_fmap_delete, <- list_fmap_compose in Hin.
  apply list_elem_of_fmap in Hin as (d & Hk & Hd).
  apply elem_of_delete_lookup in Hd as (j & Hj & Hd).
  eapply (columnNameExists_false _ _ _ j d Hex); [done|done| |by symmetry].
  intros [= ?]. done.
Qed.

Lemma fresh_key_everywhere columns name :
  columnNameExists columns name None = false →
  nameKey name ≠ "" →
  nameKey name ∉ nameKey <$> names_of columns.
Proof.
  intros Hex Hne Hin. unfold names_of in Hin. rewrite <- list_fmap_compose in Hin.
  apply list_elem_of_fmap in Hin as (d & Hk & [j Hd]%list_elem_of_lookup).
  by eapply (columnNameExists_false _ _ _ j d Hex).
Qed.

Lemma createColumn_names_nonempty now stored name order cards :
  stores names_nonempty (createColumn now (Some stored) name order cards).
Proof.
  unfold stores. destruct (written _) as [result|] eqn:Hw; [|done].
  apply createColumn_written in Hw
    as (prepared & moved & Hne & _ & Hname & -> & Hperm).
  apply names_nonempty_spec. rewrite names_of_reindexColumns.
  rewrite (names_of_perm _ _ Hperm). apply names_nonempty_spec.
  constructor; [eauto|apply sanitizeColumns_names_nonempty].
Qed.

Lemma updateColumn_names_nonempty now stored columnName name order cards :
  stores names_nonempty (updateColumn now (Some stored) columnName name order cards).
Proof.
  unfold stores. destruct (written _) as [result|] eqn:Hw; [|done].
  apply updateColumn_written in Hw
    as (ci & column & moved & _ & Hcol & Hname & _ & -> & Hperm).
  pose proof (sanitizeColumns_names_nonempty now stored false false) as Hall.
  apply names_nonempty_spec. rewrite names_of_reindexColumns.
  rewrite (names_of_perm _ _ Hperm). apply names_nonempty_spec.
  constructor; [|by apply Forall_delete].
  rewrite withCards_name. destruct name as [n|]; simpl.
  - destruct (Hname n eq_refl) as [Hne _]. eauto.
  - by eapply (Forall_lookup_1 _ _ _ _ Hall).
Qed.

Lemma deleteColumn_names_nonempty now stored columnName targetColumn :
  stores names_nonempty (deleteColumn now (Some stored) columnName targetColumn).
Proof.
  unfold stores. destruct (written _) as [result|] eqn:Hw; [|done].
  apply deleteColumn_written in Hw as (ci & _ & Hnames).
  apply names_nonempty_spec. rewrite Hnames. apply Forall_delete.
  apply names_nonempty_spec, sanitizeColumns_names_nonempty.
Qed.

Lemma createColumn_names_canonical now stored name order cards :
  names_canonical stored →
  stores names_canonical (createColumn now (Some stored) name order cards).
Proof.
  intros Hstored. unfold stores. destruct (written _) as [result|] eqn:Hw; [|done].
  apply createColumn_written in Hw
    as (prepared & moved & Hne & Hex & Hname & -> & Hperm).
  apply names_canonical_spec. rewrite names_of_reindexColumns.
  eapply canonical_list_perm; [symmetry; apply (names_of_perm _ _ Hperm)|].
  cbn [names_of fmap list_fmap]. rewrite Hname. apply canonical_list_cons.
  - done.
  - apply trim_idem.
  - apply fresh_key_everywhere; [done|by apply nameKey_new_nonempty].
  - by apply names_canonical_spec, sanitizeColumns_canonical.
Qed.

Lemma updateColumn_names_canonical now stored columnName name order cards :
  names_canonical stored →
  stores names_canonical (updateColumn now (Some stored) columnName name order cards).
Proof.
  intros Hstored. unfold stores. destruct (written _) as [result|] eqn:Hw; [|done].
  apply updateColumn_written in Hw
    as (ci & column & moved & _ & Hcol & Hname & _ & -> & Hperm).
  pose proof (sanitizeColumns_canonical now stored false Hstored) as Hcan.
  apply names_canonical_spec in Hcan.
  apply names_canonical_spec. rewrite names_of_reindexColumns.
  eapply canonical_list_perm; [symmetry; apply (names_of_perm _ _ Hperm)|].
  cbn [names_of fmap list_fmap]. rewrite withCards_name.
  destruct name as [n|]; cbn [renamedColumn set_cards set_name col_name].
  - destruct (Hname n eq_refl) as [Hne Hex].
    rewrite list_fmap_delete. apply canonical_list_cons.
    + done.
    + rewrite normalizeColumnName_Some. apply trim_idem.
    + apply fresh_key_outside; [done|by apply nameKey_new_nonempty].
    + by apply canonical_list_delete.
  - eapply canonical_list_perm; [|exact Hcan].
    change (col_name column :: (col_name <$> delete ci (sanitizeColumns now stored false false)))
      with (names_of (column :: delete ci (sanitizeColumns now stored false false))).
    apply names_of_perm. by apply delete_Permutation.
Qed.

Lemma deleteColumn_names_canonical now stored columnName targetColumn :
  names_canonical stored →
  stores names_canonical (deleteColumn now (Some stored) columnName targetColumn).
Proof.
  intros Hstored. unfold stores. destruct (written _) as [result|] eqn:Hw; [|done].
  apply deleteColumn_written in Hw as (ci & _ & Hnames).
  apply names_canonical_spec. rewrite Hnames. apply canonical_list_delete.
  by apply names_canonical_spec, sanitizeColumns_canonical.
Qed.

(** C6, as amended: after project create, project update with a [columns]
    payload, column create, column update and column delete every stored
    column name is non-empty.  Project create and update store the names as
    [normalizeColumns] resolves them, neither trimmed nor checked for
    duplicates; column create, update and delete keep the names trimmed and
    unique up to letter case when the board they start from has them so. *)
Theorem names_after_column_producing_operations
    now stored projectName payload name newName order cards columnName targetColumn :
  stores names_nonempty (createProject now projectName payload)
  ∧ stores names_nonempty (updateProject now (Some stored) payload)
  ∧ stores names_nonempty (createColumn now (Some stored) name order cards)
  ∧ stores names_nonempty (updateColumn now (Some stored) columnName newName order cards)
  ∧ stores names_nonempty (deleteColumn now (Some stored) columnName targetColumn)
  ∧ (names_canonical stored →
     stores names_canonical (createColumn now (Some stored) name order cards)
     ∧ stores names_canonical (updateColumn now (Some stored) columnName newName order cards)
     ∧ stores names_canonical (deleteColumn now (Some stored) columnName targetColumn)).
Proof.
  split.
  { unfold createProject, stores. destruct (Js.or_null projectName); [|done].
    apply normalizeColumns_names_nonempty. }
  split.
  { unfold updateProject, stores. destruct payload; [|done].
    apply normalizeColumns_names_nonempty. }
  split; [apply createColumn_names_nonempty|].
  split; [apply updateColumn_names_nonempty|].
  split; [apply deleteColumn_names_nonempty|].
  intros Hstored.
  split; [by apply createColumn_names_canonical|].
  split; [by apply updateColumn_names_canonical|by apply deleteColumn_names_canonical].
Qed.

Lemma sampleBoard_canonical : names_canonical sampleBoard.
Proof.
  split.
  - repeat constructor; (eexists; split; [reflexivity|split; [done|reflexivity]]).
  - apply (bool_decide_unpack _). vm_compute. exact I.
Qed.

(** The naming claim as stated fails for project creation: two names that
    differ only in letter case are both stored. *)
Lemma createProject_stores_duplicate_names :
  ¬ stores_canonical_names
      (createProject 0 (Some "Apollo")
         (Some [mkColumn (Some "Bug") None None None;
                mkColumn (Some "bug") None None None])).
Proof.
  intros [_ Hdup]. vm_compute in Hdup.
  apply NoDup_cons in Hdup as [Hnin _]. apply Hnin. left.
Qed.

(** ** Sorting on read *)

Lemma localeCompare_total (a b : string) :
  Js.localeCompare a b = Gt → Js.localeCompare b a ≠ Gt.
Proof. intros Hab. by rewrite Js.localeCompare_swap, Hab. Qed.

Lemma upper_bound c : Js.is_upper c = true → (N_of_ascii c + 32 < 256)%N.
Proof.
  unfold Js.is_upper. intros [_ H]%andb_true_iff. apply N.leb_le in H. lia.
Qed.

Lemma compareColumns_precedes a b : compareColumns a b ≠ Gt ↔ precedes a b.
Proof.
  unfold compareColumns, precedes. fold (orderOf a) (orderOf b).
  destruct (Qeq_bool (orderOf a) (orderOf b)) eqn:Heq.
  - apply Qeq_bool_iff in Heq. split; [by right|].
    intros [Hlt|[_ H]]; [|done]. rewrite Heq in Hlt. by apply Qlt_irrefl in Hlt.
  - apply Qeq_bool_neq in Heq.
    destruct (Qcompare_spec (orderOf a) (orderOf b)) as [He|Hlt|Hgt].
    + done.
    + split; [by left|done].
    + split; [done|]. intros [Hlt|[He _]]; [|done]. lra.
Qed.

Lemma precedes_trans a b c : precedes a b → precedes b c → precedes a c.
Proof.
  unfold precedes. intros [H1|[H1 L1]] [H2|[H2 L2]].
  - left. lra.
  - left. lra.
  - left. lra.
  - right. split; [lra|]. by eapply Js.localeCompare_trans.
Qed.

Lemma compareColumns_total a b : compareColumns a b = Gt → precedes b a.
Proof.
  unfold compareColumns, precedes. fold (orderOf a) (orderOf b).
  destruct (Qeq_bool (orderOf a) (orderOf b)) eqn:Heq.
  - apply Qeq_bool_iff in Heq. intros H%localeCompare_total. right. split; [lra|done].
  - intros H. left. by apply Qgt_alt.
Qed.

Lemma sort_insert_sorted x l :
  StronglySorted precedes l →
  StronglySorted precedes (Js.sort_insert compareColumns x l).
Proof.
  induction 1 as [|y l Hl IH Hy]; simpl; [repeat constructor|].
  destruct (compareColumns x y) eqn:Hxy.
  - assert (precedes x y) as Hp by (apply compareColumns_precedes; congruence).
    constructor; [by constructor|]. constructor; [done|].
    eapply Forall_impl; [exact Hy|]. intros z. by apply precedes_trans.
  - assert (precedes x y) as Hp by (apply compareColumns_precedes; congruence).
    constructor; [by constructor|]. constructor; [done|].
    eapply Forall_impl; [exact Hy|]. intros z. by apply precedes_trans.
  - constructor; [done|]. rewrite sort_insert_Permutation.
    constructor; [by apply compareColumns_total|done].
Qed.

Lemma sortColumnsByOrder_StronglySorted columns :
  StronglySorted precedes (sortColumnsByOrder columns).
Proof.
  unfold sortColumnsByOrder. induction columns as [|c columns IH]; simpl.
  - constructor.
  - by apply sort_insert_sorted.
Qed.

(** C7, as amended: [sortColumnsByOrder] rearranges the columns so that
    orders ascend (a column without a numeric order counts as
    [MAX_SAFE_INTEGER]) and columns of equal order follow the platform's
    [localeCompare] on their trimmed names, whatever the collation of the
    platform is.  The names are compared as they are, not in lower case:
    between two columns of equal order the comparison function returns what
    [localeCompare] returns for their trimmed names, so they tie exactly
    when the collation ties those names. *)
Theorem sortColumnsByOrder_sorted columns :
  sortColumnsByOrder columns ≡ₚ columns
  ∧ StronglySorted precedes (sortColumnsByOrder columns)
  ∧ ∀ a b, (orderOf a == orderOf b)%Q →
      compareColumns a b
      = Js.localeCompare (normalizeColumnName (col_name a))
                         (normalizeColumnName (col_name b)).
Proof.
  split; [apply sort_Permutation|].
  split; [apply sortColumnsByOrder_StronglySorted|].
  intros a b Heq. unfold compareColumns. fold (orderOf a) (orderOf b).
  apply Qeq_bool_iff in Heq. by rewrite Heq.
Qed.

(** What letter case does to the order of two columns is the collation's
    decision.  Compared in lower case, as the specification has it, [Bug] and
    [bug] tie under every collation and stay as they came; the routes swap
    them exactly when the collation puts ["Bug"] after ["bug"]. *)
Lemma letter_case_left_to_collation :
  sortColumns_ignoring_case [bugUpper; bugLower] = [bugUpper; bugLower]
  ∧ (sortColumnsByOrder [bugUpper; bugLower] = [bugLower; bugUpper]
     ↔ Js.localeCompare "Bug" "bug" = Gt).
Proof.
  unfold sortColumns_ignoring_case, sortColumnsByOrder. cbn [Js.sort Js.sort_insert].
  assert (compareColumns bugUpper bugLower = Js.localeCompare "Bug" "bug") as ->
    by reflexivity.
  assert (compareColumns_ignoring_case bugUpper bugLower = Js.localeCompare "bug" "bug")
    as -> by reflexivity.
  rewrite Js.localeCompare_refl. split; [done|].
  destruct (Js.localeCompare "Bug" "bug"); split; try done; discriminate.
Qed.

(** ** Normalizing twice *)

Lemma or_else_idem o d : Js.or_else (Some (Js.or_else o d)) d = Js.or_else o d.
Proof. destruct o as [[|]|]; simpl; by destruct d. Qed.

Lemma or_null_idem o : Js.or_null (Js.or_null o) = Js.or_null o.
Proof. by destruct o as [[|]|]. Qed.

Lemma prepareCard_idem now n k :
  prepareCard now n (prepareCard now n k) = prepareCard now n k.
Proof.
  unfold prepareCard. cbn [card_title card_description card_status card_assignee
                             card_dueDate from_option id].
  by rewrite !or_else_idem, or_null_idem.
Qed.

Lemma fmap_prepareCard_idem now n (l : list Card) :
  prepareCard now n <$> (prepareCard now n <$> l) = prepareCard now n <$> l.
Proof.
  rewrite <- list_fmap_compose. apply list_fmap_ext. intros ? ? _. apply prepareCard_idem.
Qed.

Lemma resolvedName_nonempty index col : resolvedName index col ≠ "".
Proof. apply or_else_default_nonempty, or_else_default_nonempty, column_name_ne. Qed.

Lemma fallback_defaultCard index :
  col_defaultCard (default emptyColumn (DEFAULT_BOARD_COLUMNS !! index))
  = if decide (index = 0) then Some true else None.
Proof. by destruct index as [|[|[|[|[|]]]]]. Qed.

Lemma createDefaultCards_named now n c :
  n ≠ "" →
  createDefaultCards now (set_name n c)
  = match col_defaultCard c with Some true => [taskCard now n] | _ => [] end.
Proof.
  intros Hne. unfold createDefaultCards. cbn [set_name col_defaultCard col_name].
  destruct (col_defaultCard c) as [[|]|]; [|done|done].
  rewrite or_else_nonempty by done. reflexivity.
Qed.

Lemma prepareCard_task now n : n ≠ "" → prepareCard now n (taskCard now n) = taskCard now n.
Proof.
  intros Hne. unfold prepareCard, taskCard.
  cbn [card_title card_description card_status card_assignee card_dueDate].
  rewrite (or_else_nonempty n) by done. reflexivity.
Qed.

Lemma normalizeColumn_idem now e index col :
  (e = true → index = 0 → col_defaultCard col = Some false → cardsOf col ≠ []) →
  normalizeColumn now e index (normalizeColumn now e index col)
  = normalizeColumn now e index col.
Proof.
  intros Hopt. pose proof (resolvedName_nonempty index col) as Hne.
  pose proof (fallback_defaultCard index) as Hfb.
  unfold normalizeColumn at 1. fold (resolvedName index (normalizeColumn now e index col)).
  assert (resolvedName index (normalizeColumn now e index col) = resolvedName index col)
    as ->.
  { unfold resolvedName at 1. cbn [normalizeColumn col_name].
    fold (resolvedName index col). by rewrite or_else_nonempty. }
  unfold normalizeColumn. fold (resolvedName index col).
  cbn [col_name col_order col_cards col_defaultCard from_option id].
  set (n := resolvedName index col) in *.
  set (fb := default emptyColumn (DEFAULT_BOARD_COLUMNS !! index)) in *.
  rewrite !createDefaultCards_named by done.
  cbn [spread col_defaultCard from_option]. rewrite Hfb.
  f_equal. f_equal.
  assert (e = true → col_defaultCard col = Some false → cardsOf col = [] → index ≠ 0)
    as Hidx by (intros ? ? ? ?; by apply Hopt).
  destruct (col_cards col) as [[|k l]|] eqn:Hcards;
    [|rewrite fmap_cons; cbv iota; rewrite fmap_cons; cbv iota;
      f_equal; [apply prepareCard_idem|apply fmap_prepareCard_idem]|];
    cbn [fmap list_fmap];
    (destruct e; [|done]);
    (destruct (col_defaultCard col) as [[|]|] eqn:Hdc; cbn [from_option];
     [cbn [fmap list_fmap]; by rewrite prepareCard_task
     |rewrite decide_False; [done|apply Hidx; try done; unfold cardsOf; by rewrite Hcards]
     |case_decide; cbn [fmap list_fmap]; [by rewrite prepareCard_task|done]]).
Qed.

(** C9, as amended: [normalizeColumns] is idempotent for either flag and
    every column list, except when [enforceDefaultCard] is true and the first
    column has a falsy [defaultCard] of its own and no cards. *)
Theorem normalizeColumns_idempotent now columns enforceDefaultCard :
  enforceDefaultCard && firstOptsOut columns = false →
  normalize_idempotent now columns enforceDefaultCard.
Proof.
  intros Hopt. unfold normalize_idempotent.
  destruct columns as [|c columns]; [by destruct enforceDefaultCard|].
  rewrite normalizeColumns_cons.
  destruct (imap _ (c :: columns)) as [|c' l] eqn:Himap; [done|].
  rewrite normalizeColumns_cons, <- Himap. clear Himap c' l.
  apply list_eq. intros i. rewrite !list_lookup_imap.
  destruct ((c :: columns) !! i) as [d|] eqn:Hd; [|done].
  cbn [fmap option_fmap option_map]. f_equal. apply normalizeColumn_idem.
  intros -> -> Hdc Hcards. simplify_eq/=.
  rewrite Hdc in Hopt. by destruct (cardsOf d).
Qed.

Lemma normalizeColumns_idempotent_witness :
  normalize_idempotent 0 sampleBoard true
  ∧ normalize_idempotent 0 [mkColumn None None None (Some false)] false.
Proof.
  split; apply normalizeColumns_idempotent; reflexivity.
Defined.

(** The exception is real: when the flag is set and the first column opts
    out, the second pass seeds the card that the first pass withheld. *)
Lemma normalizeColumns_reseeds now columns :
  firstOptsOut columns = true → ¬ normalize_idempotent now columns true.
Proof.
  unfold normalize_idempotent.
  destruct columns as [|c columns]; [done|]. cbn [firstOptsOut].
  destruct (col_defaultCard c) as [[|]|] eqn:Hdc; try done.
  unfold cardsOf. destruct (col_cards c) as [[|k l]|] eqn:Hcards; try done; intros _ H;
    apply (f_equal (λ l, cardsOf <$> head l)) in H;
    rewrite normalizeColumns_cons in H; cbn [imap head] in H;
    destruct (imap _ columns); cbn [normalizeColumns imap head fmap option_fmap option_map] in H;
    injection H as H; unfold normalizeColumn, cardsOf in H;
    cbn [col_cards col_name col_defaultCard from_option id] in H;
    rewrite ?Hcards, ?Hdc in H; cbn [fmap list_fmap] in H;
    rewrite !createDefaultCards_named in H
      by apply or_else_default_nonempty, or_else_default_nonempty, column_name_ne;
    cbn [spread col_defaultCard from_option] in H; rewrite ?Hdc in H;
    cbn [from_option DEFAULT_BOARD_COLUMNS lookup list_lookup from_option id
         col_defaultCard emptyColumn] in H; done.
Qed.

(** The idempotence claim as stated fails: a first column that declines the
    default card comes out of the first pass without cards and out of the
    second with one. *)
Lemma normalizeColumns_not_idempotent :
  ¬ normalize_idempotent 0 [mkColumn (Some "Ideas") None None (Some false)] true.
Proof. vm_compute. discriminate. Qed.

(** ** Inviting an existing account *)

Lemma acceptFor_nil now invite : acceptFor now [] invite = invite.
Proof.
  unfold acceptFor. rewrite bool_decide_eq_false_2; [done|]. apply not_elem_of_nil.
Qed.

Lemma acceptFor_email now targets invite :
  invite_email (acceptFor now targets invite) = invite_email invite.
Proof. unfold acceptFor. by case_match. Qed.

Lemma markInviteAccepted_acceptFor now targets e (invites : list Invite) :
  markInviteAccepted now e (acceptFor now targets <$> invites)
  = acceptFor now (targets ++ [e]) <$> invites.
Proof.
  unfold markInviteAccepted. rewrite <- list_fmap_compose.
  apply list_fmap_ext. intros _ i _. cbn [compose].
  rewrite acceptFor_email. unfold acceptFor.
  destruct (decide (invite_status i = Pending)) as [Hp|Hp].
  - rewrite (bool_decide_eq_true_2 (invite_status i = Pending)) by done.
    rewrite !andb_true_r.
    destruct (decide (invite_email i ∈ targets)) as [Hin|Hin].
    + rewrite (bool_decide_eq_true_2 (invite_email i ∈ targets)) by done.
      rewrite (bool_decide_eq_true_2 (invite_email i ∈ targets ++ [e]))
        by (apply elem_of_app; by left).
      cbn [acceptedInvite invite_status].
      rewrite (bool_decide_eq_false_2 (Accepted = Pending)) by done.
      by rewrite andb_false_r.
    + rewrite (bool_decide_eq_false_2 (invite_email i ∈ targets)) by done.
      rewrite Hp, (bool_decide_eq_true_2 (Pending = Pending)), andb_true_r by done.
      destruct (decide (invite_email i = e)) as [He|He].
      * rewrite (bool_decide_eq_true_2 (invite_email i = e)) by done.
        rewrite bool_decide_eq_true_2; [done|]. apply elem_of_app. right.
        rewrite He. left.
      * rewrite (bool_decide_eq_false_2 (invite_email i = e)) by done.
        rewrite bool_decide_eq_false_2; [done|].
        intros [?|?%list_elem_of_singleton]%elem_of_app; done.
  - rewrite (bool_decide_eq_false_2 (invite_status i = Pending)) by done.
    rewrite !andb_false_r.
    rewrite (bool_decide_eq_false_2 (invite_status i = Pending)) by done.
    by rewrite andb_false_r.
Qed.

Section invite_loop.
Variables (now : Z) (requester : UserId) (project : Project).
Variable userByEmail : gmap string User.
Variable invites0 : list Invite.

(** Two emails never resolve to the same account. *)
Hypothesis one_email_per_account :
  ∀ e1 e2 u1 u2,
    userByEmail !! e1 = Some u1 → userByEmail !! e2 = Some u2 →
    user_id u1 = user_id u2 → e1 = e2.

Local Abbreviation step := (inviteStep now requester project userByEmail).
Local Abbreviation Inv := (LoopInv now requester userByEmail invites0).

Lemma step_added_mono st e e' :
  e' ∈ addedMembers (results st) → e' ∈ addedMembers (results (step st e)).
Proof.
  intros H. unfold inviteStep. repeat case_match; cbn; try done.
  apply elem_of_app. by left.
Qed.

Lemma step_members_mono st e m :
  m ∈ membersToAdd st → m ∈ membersToAdd (step st e).
Proof.
  intros H. unfold inviteStep. repeat case_match; cbn; try done.
  apply elem_of_app. by left.
Qed.

Lemma step_inv st e : Inv st → Inv (step st e).
Proof.
  intros [Hm Ha Hs Hi]. unfold inviteStep.
  destruct (userByEmail !! e) as [u|] eqn:Hu.
  - destruct (existsb _ _ || isProjectMember _ _) eqn:Hsched.
    + by split.
    + split; cbn.
      * intros m [Hin|Hin%list_elem_of_singleton]%elem_of_app; [|subst m].
        -- destruct (Hm m Hin) as (? & ? & e' & u' & ? & ? & ?).
           split; [done|]. split; [done|]. exists e', u'.
           split; [apply elem_of_app; by left|done].
        -- split; [done|]. split; [done|]. exists e, u.
           split; [apply elem_of_app; right; left|done].
      * intros e' [Hin|Hin%list_elem_of_singleton]%elem_of_app; [|subst e'].
        -- destruct (Ha e' Hin) as (u' & m & ? & ? & ?). exists u', m.
           split; [done|]. split; [apply elem_of_app; by left|done].
        -- exists u, (mkMember (user_id u) RoleCollaborator requester now).
           split; [done|]. split; [apply elem_of_app; right; left|done].
      * done.
      * rewrite Hi. apply markInviteAccepted_acceptFor.
  - destruct (existsb _ _).
    + by split.
    + split; cbn; try done.
      intros i [Hin|Hin%list_elem_of_singleton]%elem_of_app; [by apply Hs|by subst i].
Qed.

Lemma step_adds st e u :
  Inv st →
  userByEmail !! e = Some u →
  isProjectMember project (user_id u) = false →
  e ∈ addedMembers (results (step st e)).
Proof.
  intros [Hm Ha Hs Hi] Hu Hnot. unfold inviteStep. rewrite Hu, Hnot.
  rewrite orb_false_r.
  destruct (existsb _ _) eqn:Hex; cbn.
  - apply existsb_exists in Hex as (m & Hin%list_elem_of_In & Hid).
    apply bool_decide_eq_true_1 in Hid.
    destruct (Hm m Hin) as (_ & _ & e' & u' & He' & Hu' & Hid').
    rewrite (one_email_per_account e e' u u'); [done|done|done|congruence].
  - apply elem_of_app. right. left.
Qed.

Lemma loop_inv st emails : Inv st → Inv (foldl step st emails).
Proof.
  revert st. induction emails as [|e emails IH]; intros st Hst; [done|].
  apply IH. by apply step_inv.
Qed.

Lemma loop_added_mono st emails e :
  e ∈ addedMembers (results st) → e ∈ addedMembers (results (foldl step st emails)).
Proof.
  revert st. induction emails as [|e' emails IH]; intros st Hst; [done|].
  apply IH. by apply step_added_mono.
Qed.

Lemma loop_adds st emails e u :
  Inv st →
  e ∈ emails →
  userByEmail !! e = Some u →
  isProjectMember project (user_id u) = false →
  e ∈ addedMembers (results (foldl step st emails)).
Proof.
  intros Hst Hin Hu Hnot. revert st Hst.
  induction emails as [|e' emails IH]; intros st Hst.
  - by apply elem_of_nil in Hin.
  - cbn [foldl]. apply elem_of_cons in Hin as [->|Hin].
    + apply loop_added_mono. by eapply step_adds.
    + apply IH; [done|]. by apply step_inv.
Qed.

End invite_loop.

Lemma userMap_lookup existingUsers e u :
  userMap existingUsers !! e = Some u →
  u ∈ existingUsers ∧ normalizeEmail (EmailString (user_email u)) = e.
Proof.
  unfold userMap.
  assert (∀ (m : gmap string User),
            (∀ e u, m !! e = Some u →
                    u ∈ existingUsers ∧ normalizeEmail (EmailString (user_email u)) = e) →
            ∀ l, (∀ x, x ∈ l → x ∈ existingUsers) →
            ∀ e u,
              foldl (λ m user, <[normalizeEmail (EmailString (user_email user)) := user]> m)
                    m l !! e = Some u →
              u ∈ existingUsers ∧ normalizeEmail (EmailString (user_email u)) = e) as H.
  { intros m Hm l. revert m Hm. induction l as [|x l IH]; intros m Hm Hl e' u'.
    - apply Hm.
    - cbn [foldl]. apply IH.
      + intros e2 u2. rewrite lookup_insert. case_decide as Heq.
        * intros [= <-]. split; [apply Hl; left|done].
        * apply Hm.
      + intros y Hy. apply Hl. by right. }
  apply (H ∅); [|done]. intros e' u'. by rewrite lookup_empty.
Qed.

Lemma unique_ids (users : list User) u1 u2 :
  NoDup (user_id <$> users) → u1 ∈ users → u2 ∈ users →
  user_id u1 = user_id u2 → u1 = u2.
Proof.
  induction users as [|x users IH]; [by intros _ ?%elem_of_nil|].
  rewrite fmap_cons. intros [Hx Hnd]%NoDup_cons H1 H2 Hid.
  apply elem_of_cons in H1 as [->|H1]; apply elem_of_cons in H2 as [->|H2].
  - done.
  - exfalso. apply Hx. rewrite Hid. by apply list_elem_of_fmap_2.
  - exfalso. apply Hx. rewrite <- Hid. by apply list_elem_of_fmap_2.
  - by apply IH.
Qed.

Lemma one_email_per_account users emails e1 e2 u1 u2 :
  NoDup (user_id <$> users) →
  userMap (findUsers users emails) !! e1 = Some u1 →
  userMap (findUsers users emails) !! e2 = Some u2 →
  user_id u1 = user_id u2 → e1 = e2.
Proof.
  intros Hnd [H1 <-]%userMap_lookup [H2 <-]%userMap_lookup Hid.
  unfold findUsers in H1, H2.
  apply list_elem_of_filter in H1 as [_ H1]. apply list_elem_of_filter in H2 as [_ H2].
  by rewrite (unique_ids users u1 u2).
Qed.

(** C8: when the project owner invites an email that resolves to an
    existing account which is not a member yet, the saved project has that
    account among its members as a collaborator added by the requester, every
    invite for the email that was pending is accepted, no invite for the
    email is pending (none was created), and the email is reported under
    [addedMembers].  Accounts are told apart by their ids. *)
Theorem invite_existing_account now project users requester email emails e u :
  let normalizedEmails := normalizedEmailsOf (requestedEmails email emails) in
  project_owner project = requester →
  NoDup (user_id <$> users) →
  e ∈ normalizedEmails →
  userMap (findUsers users normalizedEmails) !! e = Some u →
  isProjectMember project (user_id u) = false →
  ∃ project' report,
    invite now (Some project) users requester email emails
    = mkInviteReply 200 (Some project') (Some report)
    ∧ (∃ m, m ∈ project_members project'
            ∧ member_user m = user_id u
            ∧ member_role m = RoleCollaborator
            ∧ member_addedBy m = requester)
    ∧ (∀ k i, project_invites project !! k = Some i →
              invite_email i = e → invite_status i = Pending →
              ∃ i', project_invites project' !! k = Some i'
                    ∧ invite_email i' = e ∧ invite_status i' = Accepted)
    ∧ (∀ i, i ∈ project_invites project' → invite_email i = e →
            invite_status i ≠ Pending)
    ∧ e ∈ addedMembers report.
Proof.
  intros normalizedEmails Howner Hnd Hin Hu Hnot.
  unfold invite. fold normalizedEmails.
  destruct normalizedEmails as [|e0 rest] eqn:Hemails; [by apply elem_of_nil in Hin|].
  rewrite <- Hemails in *. clear Hemails e0 rest.
  unfold findProject, isProjectOwner.
  rewrite (bool_decide_eq_true_2 (project_owner project = requester)) by done.
  cbn [orb negb].
  rewrite (bool_decide_eq_true_2 (project_owner project = requester)) by done.
  cbn [negb].
  set (userByEmail := userMap (findUsers users normalizedEmails)) in *.
  set (st0 := mkLoop (project_invites project) [] [] _).
  set (st := foldl (inviteStep now requester project userByEmail) st0 normalizedEmails).
  assert (LoopInv now requester userByEmail (project_invites project) st0) as Hst0.
  { split; cbn.
    - by intros m ?%elem_of_nil.
    - by intros e' ?%elem_of_nil.
    - by intros i ?%elem_of_nil.
    - symmetry. rewrite <- (list_fmap_id (project_invites project)) at 2.
      apply list_fmap_ext. intros. apply acceptFor_nil. }
  assert (∀ e1 e2 u1 u2,
            userByEmail !! e1 = Some u1 → userByEmail !! e2 = Some u2 →
            user_id u1 = user_id u2 → e1 = e2) as Hinj.
  { intros. by eapply one_email_per_account. }
  pose proof (loop_inv now requester project userByEmail (project_invites project)
                st0 normalizedEmails Hst0) as [Hm Ha Hs Hi].
  pose proof (loop_adds now requester project userByEmail (project_invites project)
                Hinj st0 normalizedEmails e u Hst0 Hin Hu Hnot) as Hadded.
  fold st in Hm, Ha, Hs, Hi, Hadded.
  eexists _, _. split; [reflexivity|]. cbn [project_members project_invites].
  split; [|split; [|split]].
  - destruct (Ha e Hadded) as (u' & m & Hu' & Hmin & Hid).
    rewrite Hu in Hu'. injection Hu' as <-.
    destruct (Hm m Hmin) as (Hrole & Hby & _).
    exists m. split; [apply elem_of_app; by right|done].
  - intros k i Hk He Hp. exists (acceptedInvite now i).
    split; [|done].
    apply lookup_app_l_Some. rewrite Hi, list_lookup_fmap, Hk. cbn.
    unfold acceptFor. rewrite He, Hp.
    by rewrite !bool_decide_eq_true_2.
  - intros i [Hil|Hir]%elem_of_app He.
    + rewrite Hi in Hil. apply list_elem_of_fmap in Hil as (i0 & -> & _).
      rewrite acceptFor_email in He. unfold acceptFor.
      destruct (decide (invite_status i0 = Pending)) as [Hp|Hp].
      * rewrite He, Hp. by rewrite !bool_decide_eq_true_2.
      * rewrite (bool_decide_eq_false_2 (invite_status i0 = Pending)) by done.
        by rewrite andb_false_r.
    + apply Hs in Hir. rewrite He in Hir. congruence.
  - done.
Qed.

Lemma invite_existing_account_witness :
  ∃ project' report,
    invite 5 (Some sampleProject) sampleUsers 1%N (Some " Ann@X.io ") None
    = mkInviteReply 200 (Some project') (Some report)
    ∧ (∀ i, i ∈ project_invites project' → invite_email i = "ann@x.io" →
            invite_status i ≠ Pending)
    ∧ "ann@x.io" ∈ addedMembers report.
Proof.
  destruct (invite_existing_account 5 sampleProject sampleUsers 1%N
              (Some " Ann@X.io ") None "ann@x.io" (mkUser 2%N "ann@x.io"))
    as (project' & report & Hreply & _ & _ & Hpending & Hadded).
  - reflexivity.
  - apply (bool_decide_unpack _). vm_compute. exact I.
  - apply (bool_decide_unpack _). vm_compute. exact I.
  - vm_compute. reflexivity.
  - vm_compute. reflexivity.
  - exists project', report. split; [exact Hreply|]. split; [exact Hpending|exact Hadded].
Defined.

Example invite_sample_run :
  invite 5 (Some sampleProject) sampleUsers 1%N (Some " Ann@X.io ") None
  = mkInviteReply 200
      (Some (mkProject 1%N
               [mkMember 1%N RoleOwner 1%N 0%Z;
                mkMember 2%N RoleCollaborator 1%N 5%Z]
               [mkInvite "ann@x.io" 1%N Accepted 0%Z (Some 5%Z) None]))
      (Some (mkResults ["ann@x.io"] [] [] [] [])).
Proof. vm_compute. reflexivity. Qed.

(** ** Sanitizing keeps the cards *)

(** Sanitizing keeps the cards: column by column the card lists of the
    sanitized board are those of the stored board, in sorted order, each
    card prepared in place, so the card counts that the delete endpoint
    starts from are the stored ones. *)
Lemma sanitizeColumns_card_counts now stored :
  (λ c, length (cardsOf c)) <$> sanitizeColumns now stored false false
  ≡ₚ (λ c, length (cardsOf c)) <$> stored.
Proof.
  unfold sanitizeColumns, normalizeExistingColumns.
  destruct stored as [|c stored]; [done|].
  destruct (normalizeColumns now (c :: stored) false) as [|c' l] eqn:Hl; [done|].
  assert ((λ c, length (cardsOf c)) <$> reindexColumns (sortColumnsByOrder (c' :: l))
          = (λ c, length (cardsOf c)) <$> sortColumnsByOrder (c' :: l)) as ->.
  { apply list_eq. intros i. rewrite !list_lookup_fmap, reindexColumns_lookup.
    by destruct (sortColumnsByOrder (c' :: l) !! i). }
  unfold sortColumnsByOrder. rewrite sort_Permutation, <- Hl, normalizeColumns_cons.
  apply reflexive_eq, list_eq. intros i.
  rewrite !list_lookup_fmap, list_lookup_imap.
  destruct ((c :: stored) !! i) as [d|]; [|done].
  cbn [fmap option_fmap option_map]. f_equal.
  unfold normalizeColumn, cardsOf. cbn [col_cards from_option id].
  destruct (col_cards d) as [[|k ks]|]; cbn [fmap list_fmap from_option id length];
    [done| |done].
  by rewrite length_fmap.
Qed.

(** With named columns, sanitizing also keeps which column holds how many
    cards. *)
Lemma sanitizeColumns_keeps_columns now stored :
  names_nonempty stored →
  (λ c, (col_name c, length (cardsOf c))) <$> sanitizeColumns now stored false false
  ≡ₚ (λ c, (col_name c, length (cardsOf c))) <$> stored.
Proof.
  intros Hall. unfold sanitizeColumns, normalizeExistingColumns.
  destruct stored as [|c stored]; [done|].
  destruct (normalizeColumns now (c :: stored) false) as [|c' l] eqn:Hl; [done|].
  assert ((λ c, (col_name c, length (cardsOf c)))
            <$> reindexColumns (sortColumnsByOrder (c' :: l))
          = (λ c, (col_name c, length (cardsOf c))) <$> sortColumnsByOrder (c' :: l)) as ->.
  { apply list_eq. intros i. rewrite !list_lookup_fmap, reindexColumns_lookup.
    by destruct (sortColumnsByOrder (c' :: l) !! i). }
  unfold sortColumnsByOrder. rewrite sort_Permutation, <- Hl, normalizeColumns_cons.
  apply reflexive_eq, list_eq. intros i.
  rewrite !list_lookup_fmap, list_lookup_imap.
  destruct ((c :: stored) !! i) as [d|] eqn:Hd; [|done].
  destruct (Forall_lookup_1 _ _ _ _ Hall Hd) as (n & Hn & Hne).
  cbn [fmap option_fmap option_map]. f_equal. f_equal.
  - by rewrite (normalizeColumn_name_given now false i d n), Hn.
  - unfold normalizeColumn, cardsOf. cbn [col_cards from_option id].
    destruct (col_cards d) as [[|k ks]|]; cbn [fmap list_fmap from_option id length];
      [done| |done].
    by rewrite length_fmap.
Qed.

(** * Further properties of the column helpers and endpoints *)

(** ** Letter case and white space *)

Lemma lower_char_upper_range c :
  Js.is_upper c = true → N_of_ascii (Js.lower_char c) = (N_of_ascii c + 32)%N.
Proof.
  intros Hc. unfold Js.lower_char. rewrite Hc.
  apply N_ascii_embedding. by apply upper_bound.
Qed.

Lemma is_upper_range c :
  Js.is_upper c = true ↔ (65 ≤ N_of_ascii c ∧ N_of_ascii c ≤ 90)%N.
Proof.
  unfold Js.is_upper. rewrite andb_true_iff, !N.leb_le. done.
Qed.

Lemma is_space_range c :
  Js.is_space c = true ↔
  ((9 ≤ N_of_ascii c ∧ N_of_ascii c ≤ 13) ∨ N_of_ascii c = 32)%N.
Proof.
  unfold Js.is_space. rewrite orb_true_iff, andb_true_iff, !N.leb_le, N.eqb_eq. done.
Qed.

Lemma lower_char_space c : Js.is_space (Js.lower_char c) = Js.is_space c.
Proof.
  destruct (Js.is_upper c) eqn:Hc.
  - pose proof (lower_char_upper_range c Hc) as Hl.
    apply is_upper_range in Hc.
    transitivity false; [|symmetry]; apply not_true_iff_false;
      rewrite is_space_range; lia.
  - unfold Js.lower_char. by rewrite Hc.
Qed.

Lemma lower_char_idem c : Js.lower_char (Js.lower_char c) = Js.lower_char c.
Proof.
  destruct (Js.is_upper c) eqn:Hc.
  - pose proof (lower_char_upper_range c Hc) as Hl.
    apply is_upper_range in Hc.
    unfold Js.lower_char at 1.
    replace (Js.is_upper (Js.lower_char c)) with false; [done|].
    symmetry. apply not_true_iff_false. rewrite is_upper_range. lia.
  - unfold Js.lower_char. by rewrite !Hc.
Qed.

Lemma toLowerCase_idem s : Js.toLowerCase (Js.toLowerCase s) = Js.toLowerCase s.
Proof. induction s as [|c s IH]; simpl; [done|]. by rewrite lower_char_idem, IH. Qed.

Lemma trimStart_toLowerCase s :
  Js.trimStart (Js.toLowerCase s) = Js.toLowerCase (Js.trimStart s).
Proof.
  induction s as [|c s IH]; simpl; [done|].
  rewrite lower_char_space. by destruct (Js.is_space c).
Qed.

Lemma trimEnd_toLowerCase s :
  Js.trimEnd (Js.toLowerCase s) = Js.toLowerCase (Js.trimEnd s).
Proof.
  induction s as [|c s IH]; simpl; [done|].
  rewrite IH, lower_char_space.
  destruct (Js.trimEnd s); simpl; [by destruct (Js.is_space c)|done].
Qed.

Lemma trim_toLowerCase s : Js.trim (Js.toLowerCase s) = Js.toLowerCase (Js.trim s).
Proof. unfold Js.trim. by rewrite trimStart_toLowerCase, trimEnd_toLowerCase. Qed.

(** The key of a name is its own key. *)
Lemma nameKey_idem name : nameKey (Some (nameKey name)) = nameKey name.
Proof.
  unfold nameKey at 1. rewrite normalizeColumnName_Some.
  unfold nameKey, normalizeColumnName.
  by rewrite trim_toLowerCase, trim_idem, toLowerCase_idem.
Qed.

Lemma nameKey_of_normalized name :
  nameKey (Some (normalizeColumnName name)) = nameKey name.
Proof. by rewrite nameKey_normalized. Qed.

(** ** Finding a column by name *)

Lemma columnNameExists_true_iff columns name ignoreIndex :
  columnNameExists columns name ignoreIndex = true ↔
  nameKey name ≠ ""
  ∧ ∃ j c, columns !! j = Some c ∧ Some j ≠ ignoreIndex
           ∧ nameKey (col_name c) = nameKey name.
Proof.
  unfold columnNameExists. case_decide as Hk.
  - split; [done|]. by intros [? _].
  - rewrite existsb_exists. split.
    + intros (b & Hin%list_elem_of_In & Hb). split; [done|].
      apply list_elem_of_lookup in Hin as [j Hj].
      rewrite list_lookup_imap in Hj.
      destruct (columns !! j) as [c|] eqn:Hc; [|done].
      injection Hj as Hj. unfold id in Hb. rewrite Hb in Hj.
      apply andb_true_iff in Hj as [H1%bool_decide_eq_true_1 H2%bool_decide_eq_true_1].
      eauto.
    + intros (_ & j & c & Hc & Hj & Hkey). exists true. split; [|done].
      apply list_elem_of_In, list_elem_of_lookup. exists j.
      rewrite list_lookup_imap, Hc. simpl. by rewrite !bool_decide_eq_true_2.
Qed.

Lemma findColumnIndex_Some_iff columns name i :
  findColumnIndex columns name = Some i ↔
  nameKey name ≠ ""
  ∧ (∃ c, columns !! i = Some c ∧ nameKey (col_name c) = nameKey name)
  ∧ ∀ j c, columns !! j = Some c → j < i → nameKey (col_name c) ≠ nameKey name.
Proof.
  unfold findColumnIndex. case_decide as Hk.
  - split; [done|]. by intros [? _].
  - split.
    + destruct (list_find _ _) as [[j c]|] eqn:Hf; [|done].
      intros [= <-]. apply list_find_Some in Hf as (Hc & Hkey & Hfirst).
      split; [done|]. split; [eauto|]. intros k d Hd Hlt. by eapply Hfirst.
    + intros (_ & (c & Hc & Hkey) & Hfirst).
      assert (list_find (λ column, nameKey (col_name column) = nameKey name) columns
              = Some (i, c)) as ->; [|done].
      apply list_find_Some. split; [done|]. split; [done|].
      intros k d Hd Hlt. by eapply Hfirst.
Qed.

Lemma findColumnIndex_None_iff columns name :
  findColumnIndex columns name = None ↔
  nameKey name = ""
  ∨ ∀ j c, columns !! j = Some c → nameKey (col_name c) ≠ nameKey name.
Proof.
  unfold findColumnIndex. case_decide as Hk.
  - split; [by left|done].
  - destruct (list_find _ _) as [[j c]|] eqn:Hf.
    + apply list_find_Some in Hf as (Hc & Hkey & _). split; [done|].
      intros [?|Hno]; [done|]. by destruct (Hno j c Hc).
    + split; [|done]. intros _. right. intros j c Hc Hkey.
      eapply list_find_None in Hf.
      apply (Forall_lookup_1 _ _ _ _ Hf Hc Hkey).
Qed.

Lemma exists_when_found columns name :
  columnNameExists columns name None = true ↔ is_Some (findColumnIndex columns name).
Proof.
  rewrite columnNameExists_true_iff. split.
  - intros (Hk & j & c & Hc & _ & Hkey).
    destruct (findColumnIndex columns name) as [i|] eqn:Hf; [by eexists|].
    apply findColumnIndex_None_iff in Hf as [?|Hno]; [done|]. by destruct (Hno j c Hc).
  - intros [i Hi]. apply findColumnIndex_Some_iff in Hi as (Hk & (c & Hc & Hkey) & _).
    split; [done|]. exists i, c. done.
Qed.

(** X1: [columnNameExists] without an ignored index and [findColumnIndex]
    agree: a name exists among the columns exactly when it can be found, and
    a blank name neither exists nor is found. *)
Theorem columnNameExists_iff_found columns name :
  (columnNameExists columns name None = true ↔ is_Some (findColumnIndex columns name))
  ∧ (nameKey name = "" →
     columnNameExists columns name None = false ∧ findColumnIndex columns name = None).
Proof.
  split; [apply exists_when_found|].
  intros Hk. unfold columnNameExists, findColumnIndex. by rewrite !decide_True.
Qed.

Lemma columnNameExists_iff_found_witness :
  columnNameExists sampleBoard None None = false
  ∧ findColumnIndex sampleBoard None = None.
Proof.
  apply (proj2 (columnNameExists_iff_found sampleBoard None)). reflexivity.
Defined.

Lemma canonical_key_lookup columns i c :
  names_canonical columns → columns !! i = Some c →
  ∃ n, col_name c = Some n ∧ n ≠ "" ∧ Js.trim n = n
       ∧ nameKey (col_name c) = Js.toLowerCase n
       ∧ (nameKey <$> names_of columns) !! i = Some (Js.toLowerCase n).
Proof.
  intros [Hall _] Hc.
  destruct (Forall_lookup_1 _ _ _ _ Hall Hc) as (n & Hn & Hne & Htrim).
  exists n. rewrite Hn, nameKey_trimmed by done. repeat split; try done.
  unfold names_of. rewrite !list_lookup_fmap, Hc. simpl.
  by rewrite Hn, nameKey_trimmed.
Qed.

(** X2: on a board whose names are canonical every column is found at its
    own index, by its name as stored and by its name in lower case; so the
    name in the URL of the column endpoints addresses one column, whatever
    its letter case. *)
Theorem findColumnIndex_own_name columns i c n :
  names_canonical columns →
  columns !! i = Some c →
  col_name c = Some n →
  findColumnIndex columns (Some n) = Some i
  ∧ findColumnIndex columns (Some (Js.toLowerCase n)) = Some i.
Proof.
  intros Hcan Hc Hn.
  destruct (canonical_key_lookup columns i c Hcan Hc) as (n' & Hn' & Hne & Htrim & Hkey & Hi).
  rewrite Hn in Hn'. injection Hn' as <-. rewrite Hn in Hkey.
  apply names_canonical_spec in Hcan as Hspec. destruct Hspec as [_ Hdup].
  assert (Js.toLowerCase n ≠ "") as Hlow by by rewrite toLowerCase_empty.
  assert (∀ name, nameKey name = Js.toLowerCase n → findColumnIndex columns name = Some i)
    as Hfind.
  { intros name Hname. apply findColumnIndex_Some_iff. rewrite Hname.
    split; [done|]. split; [exists c; by rewrite Hn|].
    intros j d Hd Hlt Heq.
    destruct (canonical_key_lookup columns j d Hcan Hd) as (m & Hm & _ & _ & Hkm & Hj).
    rewrite Heq in Hkm. rewrite <- Hkm in Hj.
    pose proof (NoDup_lookup _ _ _ _ Hdup Hi Hj). lia. }
  split; apply Hfind; [done|].
  rewrite <- Hkey. apply nameKey_idem.
Qed.

Lemma findColumnIndex_own_name_witness :
  findColumnIndex sampleBoard (Some "Done") = Some 1
  ∧ findColumnIndex sampleBoard (Some (Js.toLowerCase "Done")) = Some 1.
Proof.
  apply (findColumnIndex_own_name sampleBoard 1
           (mkColumn (Some "Done") (Some 2%Q) (Some []) None) "Done").
  - exact sampleBoard_canonical.
  - reflexivity.
  - reflexivity.
Defined.

(** ** Validation comes before the write *)

(** X3: validation comes before the write.  Project create and project
    update store columns only together with status 201 or 200.  Each column
    endpoint (create, update, delete) either answers with an error status
    (400, 404 or 409) and writes nothing, or answers 201 or 200 and has
    written the board. *)
Theorem rejections_never_write
    now project projectName payload name order cards columnName newName targetColumn :
  writes_only_on_success (createProject now projectName payload)
  ∧ writes_only_on_success (updateProject now project payload)
  ∧ writes_iff_success (createColumn now project name order cards)
  ∧ writes_iff_success (updateColumn now project columnName newName order cards)
  ∧ writes_iff_success (deleteColumn now project columnName targetColumn).
Proof.
  unfold writes_only_on_success, writes_iff_success.
  split; [|split; [|split; [|split]]].
  - unfold createProject. destruct (Js.or_null projectName); cbn; auto.
  - unfold updateProject. destruct project, payload; cbn; auto.
  - unfold createColumn. repeat case_match; cbn;
      first [left; split; [done|lia] | right; split; [by eexists|auto]].
  - unfold updateColumn. destruct newName; repeat case_match; simplify_eq; cbn;
      first [left; split; [done|lia] | right; split; [by eexists|auto]].
  - unfold deleteColumn. repeat case_match; cbn;
      first [left; split; [done|lia] | right; split; [by eexists|auto]].
Qed.

(** ** Reading a column and creating it *)

Lemma found_iff_key columns name :
  is_Some (findColumnIndex columns name) ↔
  nameKey name ≠ "" ∧ nameKey name ∈ nameKey <$> names_of columns.
Proof.
  unfold names_of. rewrite <- list_fmap_compose. split.
  - intros [i Hi]. apply findColumnIndex_Some_iff in Hi as (Hk & (c & Hc & Hkey) & _).
    split; [done|]. rewrite <- Hkey.
    apply (list_elem_of_fmap_2 (nameKey ∘ col_name)). by eapply list_elem_of_lookup_2.
  - intros [Hk (c & Hkey & [j Hc]%list_elem_of_lookup)%list_elem_of_fmap].
    destruct (findColumnIndex columns name) as [i|] eqn:Hf; [by eexists|].
    apply findColumnIndex_None_iff in Hf as [?|Hno]; [done|].
    by destruct (Hno j c Hc).
Qed.

Lemma sanitizeColumns_names_unsorted now stored :
  names_of (sanitizeColumns now stored false false)
  ≡ₚ names_of (normalizeExistingColumns now stored false false).
Proof.
  unfold sanitizeColumns.
  destruct (normalizeExistingColumns now stored false false) as [|c l]; [done|].
  rewrite names_of_reindexColumns. unfold sortColumnsByOrder.
  apply names_of_perm, sort_Permutation.
Qed.

Lemma found_after_sanitize now stored name :
  is_Some (findColumnIndex (sanitizeColumns now stored false false) name)
  ↔ is_Some (findColumnIndex (normalizeExistingColumns now stored false false) name).
Proof.
  rewrite !found_iff_key. by rewrite sanitizeColumns_names_unsorted.
Qed.

(** X4: reading and creating a column agree on whether a name is taken.
    For a request with a non-blank name and valid [cards]: if
    [GET /columns/:name] finds a column under the trimmed name (in any letter
    case), creating it is rejected with 409 and writes nothing; if the read
    answers 404, creating it answers 201. *)
Theorem create_conflicts_iff_readable now stored name order cards :
  normalizeColumnName name ≠ "" →
  (cards = CardsUndefined ∨ ∃ l, cards = CardsArray l) →
  (fst (getColumn now (Some stored) (normalizeColumnName name)) = 200 →
   createColumn now (Some stored) name order cards = reject 409)
  ∧ (fst (getColumn now (Some stored) (normalizeColumnName name)) = 404 →
     status (createColumn now (Some stored) name order cards) = 201).
Proof.
  intros Hname Hcards.
  assert (match cards with CardsUndefined | CardsArray _ => false | _ => true end = false)
    as Hok by (destruct Hcards as [->|[l ->]]; done).
  assert (columnNameExists (sanitizeColumns now stored false false)
            (Some (normalizeColumnName name)) None = true
          ↔ fst (getColumn now (Some stored) (normalizeColumnName name)) = 200) as Hiff.
  { rewrite exists_when_found, found_after_sanitize.
    unfold getColumn.
    destruct (findColumnIndex _ _) as [i|]; cbn; split;
      first [done | by eexists | by intros [? ?]]. }
  unfold createColumn. rewrite decide_False, Hok by done.
  destruct (columnNameExists _ _ _) eqn:Hex; split; try done.
  - intros H404. apply proj1 in Hiff. rewrite (Hiff eq_refl) in H404. done.
  - intros H200. apply Hiff in H200. done.
Qed.

(** ** Where a new column lands *)

Lemma Qfloor_ge_1 p : (1 <= p)%Q → (1 ≤ Qfloor p)%Z.
Proof. intros H. change 1%Z with (Qfloor 1). by apply Qfloor_resp_le. Qed.

Lemma Qfloor_fraction p : (0 < p)%Q → (p < 1)%Q → Qfloor p = 0%Z.
Proof.
  intros Hpos Hlt.
  pose proof (Qfloor_le p) as Hle. pose proof (Qlt_floor p) as Hup.
  assert (inject_Z (Qfloor p) < inject_Z 1)%Q as H1 by (change (inject_Z 1) with 1%Q; lra).
  assert (inject_Z 0 < inject_Z (Qfloor p + 1))%Q as H2 by (change (inject_Z 0) with 0%Q; lra).
  rewrite <- Zlt_Qlt in H1, H2. lia.
Qed.

Lemma splice_insert_at {A} (start : Z) (x : A) (l : list A) (k : nat) :
  (if (start <? 0)%Z then Z.max (Z.of_nat (length l) + start) 0
   else Z.min start (Z.of_nat (length l))) = Z.of_nat k →
  Js.splice_insert start x l = take k l ++ x :: drop k l.
Proof. unfold Js.splice_insert. intros ->. by rewrite Nat2Z.id. Qed.

Lemma reindexColumns_delete_inserted (columns : list Column) (k : nat) x :
  (k ≤ length columns)%nat →
  names_of (delete k (reindexColumns (take k columns ++ x :: drop k columns)))
  = names_of columns
  ∧ col_cards <$> delete k (reindexColumns (take k columns ++ x :: drop k columns))
    = col_cards <$> columns.
Proof.
  intros Hk.
  assert (∀ {B} (f : Column → B),
            delete k ((f <$> take k columns) ++ f x :: (f <$> drop k columns))
            = f <$> columns) as Hdel.
  { intros B f.
    replace k with (length (f <$> take k columns)) at 1
      by (rewrite length_fmap, length_take; lia).
    rewrite delete_middle. by rewrite <- fmap_app, take_drop. }
  split.
  - unfold names_of at 1. rewrite list_fmap_delete.
    fold (names_of (reindexColumns (take k columns ++ x :: drop k columns))).
    rewrite names_of_reindexColumns. unfold names_of.
    by rewrite fmap_app, fmap_cons, Hdel.
  - rewrite list_fmap_delete, cards_of_reindexColumns.
    by rewrite fmap_app, fmap_cons, Hdel.
Qed.

(** X5: a created column is spliced into the sanitized board; the columns
    that were there keep their order, names and cards.  It is appended when
    [order] is absent, not a number, zero or negative; for [order >= 1] it
    goes to index [floor(order) - 1], or to the end when that is beyond it;
    and for a positive [order] below one the index is [-1], which [splice]
    counts from the end, so it goes before the last column. *)
Theorem createColumn_placement now stored name order cards result :
  let columns := sanitizeColumns now stored false false in
  createColumn now (Some stored) name order cards = persist 201 result →
  ∃ (k : nat) prepared,
    (k ≤ length columns)%nat
    ∧ result = reindexColumns (take k columns ++ prepared :: drop k columns)
    ∧ col_name prepared = Some (normalizeColumnName name)
    ∧ names_of (delete k result) = names_of columns
    ∧ col_cards <$> delete k result = col_cards <$> columns
    ∧ match toNumber order with
      | Some p =>
          if Qle_bool p 0 then k = length columns
          else if Qle_bool 1 p
               then k = Z.to_nat (Qfloor p - 1) `min` length columns
               else k = length columns - 1
      | None => k = length columns
      end.
Proof.
  intros columns Hcreate.
  destruct (createColumn_written now stored name order cards result)
    as (prepared0 & moved & Hne & Hex & _ & _ & _); [by rewrite Hcreate|].
  fold columns in Hex.
  revert Hcreate. unfold createColumn. fold columns.
  rewrite decide_False by done.
  destruct (match cards with CardsUndefined | CardsArray _ => false | _ => true end);
    [done|].
  rewrite Hex.
  set (prepared := default emptyColumn _).
  assert (col_name prepared = Some (normalizeColumnName name)) as Hprep.
  { subst prepared. rewrite normalizeColumns_cons. cbn [imap head from_option id].
    by apply normalizeColumn_name_given. }
  set (start := match toNumber order with Some _ => _ | None => _ end).
  assert (∃ k : nat, (k ≤ length columns)%nat
               ∧ (if (start <? 0)%Z then Z.max (Z.of_nat (length columns) + start) 0
                  else Z.min start (Z.of_nat (length columns))) = Z.of_nat k
               ∧ match toNumber order with
                 | Some p =>
                     if Qle_bool p 0 then k = length columns
                     else if Qle_bool 1 p
                          then k = Z.to_nat (Qfloor p - 1) `min` length columns
                          else k = length columns - 1
                 | None => k = length columns
                 end) as (k & Hk & Hstart & Hcase).
  { subst start. destruct (toNumber order) as [p|].
    - destruct (Qle_bool p 0) eqn:H0; cbn [negb].
      + exists (length columns). split; [done|]. split; [|done].
        destruct (Z.ltb_spec (Z.of_nat (length columns)) 0); lia.
      + assert (0 < p)%Q as Hpos.
        { apply Qnot_le_lt. intros Hle%Qle_bool_iff. congruence. }
        destruct (Qle_bool 1 p) eqn:H1.
        * apply Qle_bool_iff, Qfloor_ge_1 in H1.
          exists (Z.to_nat (Qfloor p - 1) `min` length columns).
          split; [lia|]. split; [|done].
          destruct (Z.ltb_spec (Z.min (Qfloor p - 1) (Z.of_nat (length columns))) 0); lia.
        * assert (p < 1)%Q as Hlt.
          { apply Qnot_le_lt. intros Hle%Qle_bool_iff. congruence. }
          rewrite (Qfloor_fraction p Hpos Hlt).
          exists (length columns - 1). split; [lia|]. split; [|done].
          destruct (Z.ltb_spec (Z.min (0 - 1) (Z.of_nat (length columns))) 0); lia.
    - exists (length columns). split; [done|]. split; [|done].
      destruct (Z.ltb_spec (Z.of_nat (length columns)) 0); lia. }
  rewrite (splice_insert_at start prepared columns k Hstart).
  intros [= <-]. exists k, prepared.
  destruct (reindexColumns_delete_inserted columns k prepared Hk) as [Hnames Hcards].
  done.
Qed.

(** ** Where an updated column lands *)

Lemma insert_take_drop {A} (l : list A) i x :
  i < length l → <[i := x]> l = take i (delete i l) ++ x :: drop i (delete i l).
Proof.
  revert i. induction l as [|y l IH]; intros [|i] Hi; simpl in *; try lia.
  - by rewrite drop_0.
  - destruct l as [|z l]; [simpl in Hi; lia|].
    rewrite (IH i) by lia. reflexivity.
Qed.

(** The board the update endpoint stores, before reindexing: the addressed
    column, renamed and refilled, at index [k] among the others. *)
Lemma updateColumn_stored now stored columnName name order cards result :
  let columns := sanitizeColumns now stored false false in
  updateColumn now (Some stored) columnName name order cards = persist 200 result →
  ∃ (ci k : nat) column,
    findColumnIndex columns (Some columnName) = Some ci
    ∧ columns !! ci = Some column
    ∧ (k ≤ length (delete ci columns))%nat
    ∧ result = reindexColumns
                 (take k (delete ci columns)
                  ++ withCards now cards (renamedColumn name column)
                  :: drop k (delete ci columns))
    ∧ match order with
      | OrderUndefined | OrderNull => k = ci
      | _ => ∃ p, toNumber order = Some p
                  ∧ k = Z.to_nat (Z.max (Qfloor p - 1) 0) `min` length (delete ci columns)
      end.
Proof.
  intros columns Hupd.
  destruct (updateColumn_written now stored columnName name order cards result)
    as (ci & column & moved & Hci & Hcol & Hname & _ & _ & _); [by rewrite Hupd|].
  fold columns in Hci, Hcol, Hname.
  assert (ci < length columns) as Hlt by by eapply lookup_lt_Some.
  revert Hupd. unfold updateColumn. cbv zeta. fold columns.
  destruct (negb _); [done|].
  destruct (match cards with CardsOther => true | _ => false end); [done|].
  rewrite Hci, Hcol. cbn [from_option id].
  set (renamed := match name with Some _ => _ | None => _ end).
  assert (renamed = inr (renamedColumn name column)) as ->.
  { subst renamed. destruct name as [n|]; [|done].
    destruct (Hname n eq_refl) as [Hne Hex].
    by rewrite decide_False, Hex. }
  set (column' := match cards with CardsArray _ => _ | _ => _ end).
  assert (column' = withCards now cards (renamedColumn name column)) as ->.
  { subst column'. by destruct cards. }
  set (column' := withCards now cards (renamedColumn name column)).
  assert (length (delete ci columns) = length columns - 1) as Hlen.
  { rewrite length_delete; [done|]. by eexists. }
  assert (∀ p, Js.splice_insert
                 (Z.min (Z.max (Qfloor p - 1) 0)
                        (Z.of_nat (length (delete ci (<[ci:=column']> columns)))))
                 column' (delete ci (<[ci:=column']> columns))
               = take (Z.to_nat (Z.max (Qfloor p - 1) 0) `min` length (delete ci columns))
                      (delete ci columns)
                 ++ column'
                 :: drop (Z.to_nat (Z.max (Qfloor p - 1) 0) `min` length (delete ci columns))
                      (delete ci columns)) as Hsplice.
  { intros p. rewrite delete_insert_same. apply splice_insert_at.
    destruct (Z.ltb_spec (Z.min (Z.max (Qfloor p - 1) 0)
                                (Z.of_nat (length (delete ci columns)))) 0); lia. }
  destruct order as [| |q|[q|]]; cbn [toNumber]; try done; intros [= <-].
  - exists ci, ci, column. rewrite insert_take_drop by done.
    repeat split; try done. lia.
  - exists ci, ci, column. rewrite insert_take_drop by done.
    repeat split; try done. lia.
  - eexists ci, _, column. rewrite Hsplice.
    repeat split; try done; [lia|]. by eexists.
  - eexists ci, _, column. rewrite Hsplice.
    repeat split; try done; [lia|]. by eexists.
Qed.

(** X6: the update endpoint moves or keeps one column and touches no other.
    On success the addressed column (renamed and refilled as requested)
    stands at index [k] of the stored board, where [k] is its old index when
    [order] is absent or null and [floor(order) - 1] clamped to the board
    otherwise; the other columns keep their relative order, names and
    cards. *)
Theorem updateColumn_placement now stored columnName name order cards result :
  let columns := sanitizeColumns now stored false false in
  updateColumn now (Some stored) columnName name order cards = persist 200 result →
  ∃ (ci k : nat) column,
    findColumnIndex columns (Some columnName) = Some ci
    ∧ columns !! ci = Some column
    ∧ length result = length columns
    ∧ result !! k
      = Some (set_order (position k) (withCards now cards (renamedColumn name column)))
    ∧ names_of (delete k result) = names_of (delete ci columns)
    ∧ col_cards <$> delete k result = col_cards <$> delete ci columns
    ∧ match order with
      | OrderUndefined | OrderNull => k = ci
      | _ => ∃ p, toNumber order = Some p
                  ∧ k = Z.to_nat (Z.max (Qfloor p - 1) 0) `min` (length columns - 1)
      end.
Proof.
  intros columns Hupd.
  destruct (updateColumn_stored now stored columnName name order cards result Hupd)
    as (ci & k & column & Hci & Hcol & Hk & -> & Horder).
  fold columns in Hci, Hcol, Hk, Horder |- *.
  assert (length (delete ci columns) = length columns - 1) as Hlen.
  { rewrite length_delete; [done|]. by eexists. }
  assert (ci < length columns) as Hlt by by eapply lookup_lt_Some.
  destruct (reindexColumns_delete_inserted (delete ci columns) k
              (withCards now cards (renamedColumn name column)) Hk) as [Hnames Hcards].
  exists ci, k, column.
  split; [done|]. split; [done|].
  split.
  { rewrite reindexColumns_length, length_app, length_take. cbn [length].
    rewrite length_drop. lia. }
  split.
  { rewrite reindexColumns_lookup.
    rewrite lookup_app_r by (rewrite length_take; lia).
    rewrite length_take. replace (k - k `min` length (delete ci columns)) with 0 by lia.
    reflexivity. }
  split; [done|]. split; [done|].
  rewrite <- Hlen. done.
Qed.

(** ** Renaming a column to its own name *)

Lemma canonical_keys_distinct columns i j ci cj :
  names_canonical columns →
  columns !! i = Some ci → columns !! j = Some cj →
  nameKey (col_name ci) = nameKey (col_name cj) → i = j.
Proof.
  intros Hcan Hi Hj Hkey.
  destruct (canonical_key_lookup columns i ci Hcan Hi) as (n & _ & _ & _ & Hki & Hli).
  destruct (canonical_key_lookup columns j cj Hcan Hj) as (m & _ & _ & _ & Hkj & Hlj).
  apply names_canonical_spec in Hcan as [_ Hdup].
  rewrite <- Hki in Hli. rewrite <- Hkj, <- Hkey in Hlj.
  by eapply NoDup_lookup.
Qed.

(** X7: the collision check of a rename leaves the renamed column itself
    out.  On a board with canonical names, renaming a column to any spelling
    of its own name (another letter case, surrounding white space) is not a
    conflict: the update answers 200 and the column, at its place, bears the
    trimmed new name. *)
Theorem rename_to_own_name_allowed now stored columnName newName ci :
  let columns := sanitizeColumns now stored false false in
  names_canonical stored →
  findColumnIndex columns (Some columnName) = Some ci →
  nameKey (Some newName) = nameKey (Some columnName) →
  ∃ result c,
    updateColumn now (Some stored) columnName (Some newName) OrderUndefined CardsUndefined
    = persist 200 result
    ∧ result !! ci = Some c
    ∧ col_name c = Some (Js.trim newName).
Proof.
  intros columns Hcan Hci Hsame.
  pose proof (sanitizeColumns_canonical now stored false Hcan) as Hcan'.
  fold columns in Hcan'.
  apply findColumnIndex_Some_iff in Hci as Hfound.
  destruct Hfound as (Hk & (column & Hcol & Hkey) & _).
  assert (normalizeColumnName (Some newName) ≠ "") as Hne.
  { intros Hempty. apply Hk. rewrite <- Hsame. unfold nameKey. by rewrite Hempty. }
  assert (columnNameExists columns (Some (normalizeColumnName (Some newName))) (Some ci)
          = false) as Hex.
  { apply not_true_iff_false. rewrite columnNameExists_true_iff.
    intros (_ & j & c & Hc & Hj & Hkj).
    rewrite nameKey_of_normalized, Hsame, <- Hkey in Hkj.
    apply Hj. f_equal. by eapply canonical_keys_distinct. }
  unfold updateColumn. cbn [bool_decide orb negb]. cbv zeta. fold columns.
  rewrite bool_decide_eq_true_2 by by eexists. cbn [orb negb].
  rewrite Hci, Hcol. cbn [from_option id].
  rewrite decide_False, Hex by done.
  eexists _, _. split; [reflexivity|].
  rewrite reindexColumns_lookup, list_lookup_insert_eq by by eapply lookup_lt_Some.
  split; [reflexivity|]. cbn [col_name set_order set_cards set_name].
  by rewrite normalizeColumnName_Some.
Qed.

(** ** Deleting a column without cards *)

(** X8: a column that holds no cards is deleted without a [targetColumn],
    and whatever [targetColumn] says: the answer is 200, the stored board is
    the sanitized board without that column, one column shorter, and the
    remaining columns keep their order, names and cards. *)
Theorem delete_empty_column now stored columnName targetColumn ci removed :
  let columns := sanitizeColumns now stored false false in
  findColumnIndex columns (Some columnName) = Some ci →
  columns !! ci = Some removed →
  cardsOf removed = [] →
  ∃ result,
    deleteColumn now (Some stored) columnName targetColumn = persist 200 result
    ∧ result = reindexColumns (delete ci columns)
    ∧ S (length result) = length columns
    ∧ names_of result = delete ci (names_of columns)
    ∧ col_cards <$> result = delete ci (col_cards <$> columns).
Proof.
  intros columns Hci Hremoved Hcards.
  assert (deleteColumn now (Some stored) columnName targetColumn
          = persist 200 (reindexColumns (delete ci columns))) as Hdel.
  { unfold deleteColumn. cbv zeta. fold columns. rewrite Hci, Hremoved.
    cbn [from_option id]. unfold cardsOf in Hcards.
    destruct (col_cards removed) as [[|k ks]|]; simplify_eq/=; done. }
  eexists. split; [exact Hdel|]. split; [done|].
  split.
  { rewrite reindexColumns_length, length_delete by by eexists.
    apply lookup_lt_Some in Hremoved. lia. }
  split.
  - rewrite names_of_reindexColumns. unfold names_of. by rewrite list_fmap_delete.
  - by rewrite cards_of_reindexColumns, list_fmap_delete.
Qed.

(** ** Reading back what was stored *)

Lemma prepareCard_stable now n k : n ≠ "" → stable_card (prepareCard now n k).
Proof.
  intros Hne now' n'. unfold prepareCard.
  cbn [card_title card_description card_status card_assignee card_dueDate from_option id].
  rewrite or_null_idem. f_equal.
  - f_equal. apply or_else_nonempty. by apply or_else_default_nonempty.
  - f_equal. by destruct (card_description k) as [[|]|].
  - f_equal. apply or_else_nonempty.
    destruct (card_status k) as [[|]|]; simpl; done.
Qed.

Lemma set_status_stable m k : m ≠ "" → stable_card k → stable_card (set_status (Some m) k).
Proof.
  intros Hne Hk now n. specialize (Hk now n). destruct k as [t d s a due].
  unfold prepareCard, set_status in *.
  cbn [card_title card_description card_status card_assignee card_dueDate] in *.
  injection Hk as Ht Hd Hs Ha Hdue. rewrite (or_else_nonempty m) by done.
  by rewrite Ht, Hd, Ha, Hdue.
Qed.

Lemma normalizeColumn_stable now i c : stable_column (normalizeColumn now false i c).
Proof.
  pose proof (resolvedName_nonempty i c) as Hne.
  unfold stable_column, normalizeColumn. fold (resolvedName i c).
  cbn [col_name col_order col_cards col_defaultCard].
  split; [eauto|]. split; [by eexists|]. split; [|done].
  eexists. split; [reflexivity|].
  destruct (col_cards c) as [[|k l]|]; try constructor.
  - by apply prepareCard_stable.
  - apply Forall_fmap, Forall_true. intros k'. by apply prepareCard_stable.
Qed.

Lemma normalizeColumn_fixes_stable now i c :
  stable_column c → normalizeColumn now false i c = c.
Proof.
  intros ((n & Hn & Hne) & [q Hq] & (cards & Hcards & Hall) & Hdc).
  destruct c as [name order cs dc]. cbn in *. subst.
  unfold normalizeColumn. cbn [col_name col_order col_cards].
  rewrite (or_else_nonempty n) by done. cbn [from_option id].
  do 2 f_equal.
  assert (prepareCard now n <$> cards = cards) as ->.
  { rewrite <- (list_fmap_id cards) at 2. apply Forall_fmap_ext_1.
    eapply Forall_impl; [exact Hall|]. intros k Hk. apply Hk. }
  by destruct cards.
Qed.

Lemma set_order_stable q c : stable_column c → stable_column (set_order q c).
Proof. intros (? & _ & ? & ?). split; [done|]. split; [by eexists|done]. Qed.

Lemma normalizeExisting_fixes_stable now columns :
  Forall stable_column columns →
  normalizeExistingColumns now columns false false = columns.
Proof.
  intros Hall. unfold normalizeExistingColumns.
  destruct columns as [|c columns]; [done|]. rewrite normalizeColumns_cons.
  apply list_eq. intros i. rewrite list_lookup_imap.
  destruct ((c :: columns) !! i) as [d|] eqn:Hd; [|done]. cbn.
  f_equal. apply normalizeColumn_fixes_stable. by eapply Forall_lookup_1.
Qed.

Lemma sort_insert_head {A} (cmp : A → A → comparison) x y l :
  cmp x y ≠ Gt → Js.sort_insert cmp x (y :: l) = x :: y :: l.
Proof. intros H. simpl. by destruct (cmp x y). Qed.

Lemma position_lt i j : i < j → (position i < position j)%Q.
Proof. intros H. unfold position. rewrite <- Zlt_Qlt. lia. Qed.

Lemma compareColumns_ordered a b i j :
  col_order a = Some (position i) → col_order b = Some (position j) → i < j →
  compareColumns a b ≠ Gt.
Proof.
  intros Ha Hb Hlt. apply compareColumns_precedes. left.
  unfold orderOf. rewrite Ha, Hb. by apply position_lt.
Qed.

Lemma sort_reindexed_from k (columns : list Column) :
  Js.sort compareColumns (imap (λ i c, set_order (position (k + i)) c) columns)
  = imap (λ i c, set_order (position (k + i)) c) columns.
Proof.
  revert k. induction columns as [|c columns IH]; intros k; [done|].
  cbn [imap Js.sort].
  assert (imap ((λ i c0, set_order (position (k + i)) c0) ∘ S) columns
          = imap (λ i c0, set_order (position (S k + i)) c0) columns) as ->.
  { apply imap_ext. intros i x _. cbn. do 2 f_equal. lia. }
  rewrite IH. destruct columns as [|d columns]; [done|].
  cbn [imap]. apply sort_insert_head.
  eapply (compareColumns_ordered _ _ (k + 0) (S k + 0)); [done|done|lia].
Qed.

Lemma sort_reindexed columns :
  sortColumnsByOrder (reindexColumns columns) = reindexColumns columns.
Proof.
  unfold sortColumnsByOrder, reindexColumns.
  apply (sort_reindexed_from 0).
Qed.

Lemma reindexColumns_idem columns :
  reindexColumns (reindexColumns columns) = reindexColumns columns.
Proof.
  apply list_eq. intros i. rewrite !reindexColumns_lookup.
  by destruct (columns !! i).
Qed.

Lemma reindexColumns_stable columns :
  Forall stable_column columns → Forall stable_column (reindexColumns columns).
Proof.
  intros Hall. apply Forall_lookup. intros i c. rewrite reindexColumns_lookup.
  destruct (columns !! i) as [d|] eqn:Hd; intros [= <-].
  apply set_order_stable. by eapply Forall_lookup_1.
Qed.

Lemma reindexed_reads_back columns :
  Forall stable_column columns → reads_back (reindexColumns columns).
Proof.
  intros Hall now. apply reindexColumns_stable in Hall.
  unfold sanitizeColumns, getColumns.
  rewrite (normalizeExisting_fixes_stable now _ Hall).
  pose proof (reindexColumns_idem columns) as Hid.
  pose proof (sort_reindexed columns) as Hsort.
  split; [|by rewrite Hsort].
  destruct (reindexColumns columns); [done|]. by rewrite Hsort.
Qed.

Lemma sanitizeColumns_stable now stored :
  Forall stable_column (sanitizeColumns now stored false false).
Proof.
  unfold sanitizeColumns, normalizeExistingColumns.
  destruct stored as [|c stored]; [constructor|].
  destruct (normalizeColumns now (c :: stored) false) as [|c' l] eqn:Hl; [constructor|].
  apply reindexColumns_stable. unfold sortColumnsByOrder.
  rewrite sort_Permutation, <- Hl, normalizeColumns_cons.
  apply Forall_imap. intros. apply normalizeColumn_stable.
Qed.

Lemma stable_cardsOf c : stable_column c → Forall stable_card (cardsOf c).
Proof. intros (_ & _ & (cards & Hc & Hall) & _). unfold cardsOf. by rewrite Hc. Qed.

Lemma set_cards_stable cards c :
  stable_column c → Forall stable_card cards → stable_column (set_cards cards c).
Proof.
  intros (? & ? & _ & ?) Hall. split; [done|]. split; [done|]. split; [|done].
  by exists cards.
Qed.

Lemma renamedColumn_stable name c :
  (∀ n, name = Some n → normalizeColumnName (Some n) ≠ "") →
  stable_column c → stable_column (renamedColumn name c).
Proof.
  intros Hname Hc. destruct name as [n|]; [|done]. cbn [renamedColumn].
  specialize (Hname n eq_refl). apply set_cards_stable.
  - destruct Hc as (_ & ? & ? & ?). split; [eauto|done].
  - apply Forall_fmap. eapply Forall_impl; [by apply stable_cardsOf|].
    intros k Hk. by apply set_status_stable.
Qed.

Lemma withCards_stable now cards c : stable_column c → stable_column (withCards now cards c).
Proof.
  intros Hc. destruct cards as [| |l|]; try done. cbn [withCards].
  apply set_cards_stable; [done|]. apply stable_cardsOf, normalizeColumn_stable.
Qed.

Lemma createColumn_reads_back now stored name order cards :
  stores reads_back (createColumn now (Some stored) name order cards).
Proof.
  unfold stores, createColumn. repeat case_match; simplify_eq/=; try done;
    (apply reindexed_reads_back; rewrite splice_insert_Permutation;
     constructor; [apply normalizeColumn_stable|apply sanitizeColumns_stable]).
Qed.

Lemma updateColumn_reads_back now stored columnName name order cards :
  stores reads_back (updateColumn now (Some stored) columnName name order cards).
Proof.
  unfold stores. destruct (written _) as [result|] eqn:Hw; [|done].
  apply updateColumn_written in Hw
    as (ci & column & moved & _ & Hcol & Hname & _ & -> & Hperm).
  pose proof (sanitizeColumns_stable now stored) as Hall.
  apply reindexed_reads_back. rewrite Hperm.
  constructor; [|by apply Forall_delete].
  apply withCards_stable, renamedColumn_stable.
  - intros n Hn. by apply Hname.
  - by eapply Forall_lookup_1.
Qed.

Lemma deleteColumn_reads_back now stored columnName targetColumn :
  stores reads_back (deleteColumn now (Some stored) columnName targetColumn).
Proof.
  pose proof (sanitizeColumns_stable now stored) as Hall.
  unfold stores, deleteColumn. cbv zeta.
  destruct (findColumnIndex _ (Some columnName)) as [ci|] eqn:Hci; [|done].
  destruct (findColumnIndex_lookup _ _ _ Hci) as (removed & Hremoved & _).
  rewrite Hremoved. cbn [from_option id].
  assert (stable_column removed) as Hrem by by eapply Forall_lookup_1.
  pose proof (Forall_delete _ _ ci Hall) as Hrest.
  destruct (col_cards removed) as [[|k ks]|] eqn:Hcards;
    try (cbn; by apply reindexed_reads_back).
  case_decide; [done|].
  destruct (findColumnIndex _ (Some (normalizeColumnName targetColumn))) as [ti|] eqn:Hti;
    [|done].
  destruct (findColumnIndex_lookup _ _ _ Hti) as (dest & Hdest & _).
  rewrite Hdest. cbn [from_option id written].
  apply reindexed_reads_back, Forall_alter; [done|].
  intros c Hc _. rewrite Hdest in Hc. injection Hc as <-.
  assert (stable_column dest) as Hd by by eapply Forall_lookup_1.
  apply set_cards_stable; [done|].
  apply Forall_app. split; [by apply stable_cardsOf|].
  destruct Hd as ((n & Hn & Hne) & _). rewrite Hn.
  apply Forall_fmap. apply stable_cardsOf in Hrem. unfold cardsOf in Hrem.
  rewrite Hcards in Hrem. eapply Forall_impl; [exact Hrem|].
  intros k' Hk'. by apply set_status_stable.
Qed.

(** X9: what the column endpoints store reads back unchanged.  The board
    that [sanitizeColumns] returns, and the board that column create, update
    or delete stores, is a fixed point of sanitize-on-read: sanitizing it
    again, at any later time, gives the same board, and the column listing
    returns it as it is. *)
Theorem stored_boards_read_back
    now stored name order cards columnName newName targetColumn :
  reads_back (sanitizeColumns now stored false false)
  ∧ stores reads_back (createColumn now (Some stored) name order cards)
  ∧ stores reads_back (updateColumn now (Some stored) columnName newName order cards)
  ∧ stores reads_back (deleteColumn now (Some stored) columnName targetColumn).
Proof.
  split; [|split; [apply createColumn_reads_back|
           split; [apply updateColumn_reads_back|apply deleteColumn_reads_back]]].
  pose proof (sanitizeColumns_stable now stored) as Hall.
  unfold sanitizeColumns in *.
  destruct (normalizeExistingColumns now stored false false) as [|c l].
  - apply (reindexed_reads_back []). constructor.
  - intros now'. unfold sanitizeColumns, getColumns.
    rewrite (normalizeExisting_fixes_stable now' _ Hall), sort_reindexed.
    split; [|done].
    pose proof (reindexColumns_idem (sortColumnsByOrder (c :: l))) as Hid.
    pose proof (sort_reindexed (sortColumnsByOrder (c :: l))) as Hsort.
    destruct (reindexColumns (sortColumnsByOrder (c :: l))); [done|].
    by rewrite Hsort.
Qed.

(** ** The normalizer's output and the schema *)

Lemma prepareCard_status now n k :
  n ≠ "" → ∃ s, card_status (prepareCard now n k) = Some s ∧ s ≠ "".
Proof.
  intros Hne. eexists. split; [reflexivity|]. by apply or_else_default_nonempty.
Qed.

Lemma normalizeColumn_schema_valid now e i c : schema_valid (normalizeColumn now e i c).
Proof.
  pose proof (resolvedName_nonempty i c) as Hne.
  unfold schema_valid, normalizeColumn. fold (resolvedName i c).
  cbn [col_name col_cards]. split; [eauto|].
  eexists. split; [reflexivity|].
  assert (Forall (λ k, ∃ s, card_status k = Some s ∧ s ≠ "")
            (createDefaultCards now
               (set_name (resolvedName i c)
                  (spread (default emptyColumn (DEFAULT_BOARD_COLUMNS !! i)) c)))) as Hseed.
  { rewrite createDefaultCards_named by done.
    repeat case_match; repeat constructor. by eexists. }
  destruct (col_cards c) as [[|k l]|]; cbn [fmap list_fmap].
  - destruct e; [done|constructor].
  - constructor; [by apply prepareCard_status|].
    apply Forall_fmap, Forall_true. intros k'. by apply prepareCard_status.
  - destruct e; [done|constructor].
Qed.

(** X10: [normalizeColumns] never returns an empty board and always returns
    one the schema accepts.  For an empty input it returns four columns, for
    any other input as many columns as it was given; every column it returns
    has a non-empty name and an array of cards, and every card a non-empty
    status, whatever the client supplied and for either flag. *)
Theorem normalizeColumns_schema_valid now columns enforceDefaultCard :
  length (normalizeColumns now columns enforceDefaultCard)
  = (if decide (columns = []) then 4 else length columns)
  ∧ normalizeColumns now columns enforceDefaultCard ≠ []
  ∧ Forall schema_valid (normalizeColumns now columns enforceDefaultCard).
Proof.
  destruct columns as [|c columns].
  - split; [done|]. split; [done|].
    repeat constructor; try (eexists; split; [reflexivity|done]);
      eexists; (split; [reflexivity|]); repeat constructor.
    by eexists.
  - rewrite normalizeColumns_cons. split; [by rewrite length_imap|].
    split; [done|]. apply Forall_imap. intros. apply normalizeColumn_schema_valid.
Qed.

(** * Further properties of the membership endpoints *)

(** ** The emails of a request *)

Lemma unique_NoDup l : NoDup (unique l).
Proof. unfold unique. rewrite reverse_Permutation. apply NoDup_remove_dups. Qed.

Lemma elem_of_unique l (x : string) : x ∈ unique l ↔ x ∈ l.
Proof.
  unfold unique. by rewrite elem_of_reverse, elem_of_remove_dups, elem_of_reverse.
Qed.

Lemma normalizeEmail_idem raw :
  normalizeEmail (EmailString (normalizeEmail raw)) = normalizeEmail raw.
Proof.
  destruct raw as [s|]; [|done]. cbn [normalizeEmail].
  by rewrite trim_toLowerCase, trim_idem, toLowerCase_idem.
Qed.

(** X11: the emails a membership request is processed for.  An email is on
    the list exactly when it is the non-empty normal form (trimmed, lower
    case) of an entry of the request; the list has no repetition, so no
    email is handled twice, and each email on it is its own normal form.
    Entries that are not strings normalize to the empty string and are
    never on it. *)
Theorem normalizedEmails_spec email emails :
  let requested := requestedEmails email emails in
  (∀ e, e ∈ normalizedEmailsOf requested ↔
        e ≠ "" ∧ ∃ raw, raw ∈ requested ∧ normalizeEmail raw = e)
  ∧ NoDup (normalizedEmailsOf requested)
  ∧ (∀ e, e ∈ normalizedEmailsOf requested → normalizeEmail (EmailString e) = e)
  ∧ normalizeEmail EmailOther = "".
Proof.
  intros requested.
  assert (∀ e, e ∈ normalizedEmailsOf requested ↔
               e ≠ "" ∧ ∃ raw, raw ∈ requested ∧ normalizeEmail raw = e) as Hiff.
  { intros e. unfold normalizedEmailsOf.
    rewrite elem_of_unique, list_elem_of_filter, list_elem_of_fmap.
    split; intros [Hne (raw & H1 & H2)]; (split; [done|]); by exists raw. }
  split; [done|]. split; [apply unique_NoDup|]. split; [|done].
  intros e (_ & raw & _ & <-)%Hiff. apply normalizeEmail_idem.
Qed.

(** ** Who may change the membership *)

Lemma findProject_member project userId :
  findProject (Some project) userId
  = if isProjectMember project userId then Some project else None.
Proof.
  unfold findProject, isProjectMember.
  by destruct (bool_decide (project_owner project = userId)).
Qed.

Lemma owner_is_member project userId :
  isProjectOwner project userId = true → isProjectMember project userId = true.
Proof. unfold isProjectOwner, isProjectMember. by intros ->. Qed.

(** X12: only the owner changes members and invitations.  The invite and
    the revoke endpoint save a project only when the requester is its owner.
    With at least one valid email in the request, a requester who is a
    member but not the owner gets 403, one who has no access gets 404, and
    in both cases nothing is saved; without a valid email the answer is 400
    before the project is even looked up. *)
Theorem membership_changes_need_owner now store users requester email emails :
  (∀ p', saved (invite now store users requester email emails) = Some p' →
         ∃ p, store = Some p ∧ project_owner p = requester)
  ∧ (∀ p', revoke_saved (revoke now store users requester email emails) = Some p' →
           ∃ p, store = Some p ∧ project_owner p = requester)
  ∧ (∀ p, store = Some p → project_owner p ≠ requester →
          normalizedEmailsOf (requestedEmails email emails) ≠ [] →
          let code := if isProjectMember p requester then 403 else 404 in
          invite now store users requester email emails = mkInviteReply code None None
          ∧ revoke now store users requester email emails = mkRevokeReply code None None)
  ∧ (normalizedEmailsOf (requestedEmails email emails) = [] →
     invite now store users requester email emails = mkInviteReply 400 None None
     ∧ revoke now store users requester email emails = mkRevokeReply 400 None None).
Proof.
  split; [|split; [|split]].
  - intros p'. unfold invite.
    destruct (normalizedEmailsOf _) as [|e0 es]; [done|].
    destruct store as [p|]; [|done]. rewrite findProject_member.
    destruct (isProjectMember p requester); [|done]. unfold isProjectOwner.
    case_bool_decide; [|done]. intros _. eauto.
  - intros p'. unfold revoke.
    destruct (normalizedEmailsOf _) as [|e0 es]; [done|].
    destruct store as [p|]; [|done]. rewrite findProject_member.
    destruct (isProjectMember p requester); [|done]. unfold isProjectOwner.
    case_bool_decide; [|done]. intros _. eauto.
  - intros p -> Hno Hemails. unfold invite, revoke.
    destruct (normalizedEmailsOf _) as [|e0 es]; [done|].
    rewrite findProject_member.
    destruct (isProjectMember p requester); [|done]. unfold isProjectOwner.
    by rewrite bool_decide_eq_false_2.
  - intros Hemails. unfold invite, revoke. by rewrite Hemails.
Qed.

(** ** Members after an invitation *)

Lemma isProjectMember_false project userId :
  isProjectMember project userId = false ↔
  project_owner project ≠ userId ∧ userId ∉ member_users (project_members project).
Proof.
  unfold isProjectMember, member_users. case_bool_decide as Ho.
  - split; [done|]. by intros [? _].
  - rewrite <- not_true_iff_false, existsb_exists. split.
    + intros Hno. split; [done|]. intros (m & -> & Hm)%list_elem_of_fmap.
      apply Hno. exists m. split; [by apply list_elem_of_In|].
      by apply bool_decide_eq_true_2.
    + intros [_ Hno] (m & Hm%list_elem_of_In & Hid%bool_decide_eq_true_1).
      apply Hno. rewrite <- Hid. by apply list_elem_of_fmap_2.
Qed.

Lemma scheduled_false (l : list Member) userId :
  existsb (λ member, bool_decide (member_user member = userId)) l = false ↔
  userId ∉ member_users l.
Proof.
  unfold member_users. rewrite <- not_true_iff_false, existsb_exists. split.
  - intros Hno (m & -> & Hm)%list_elem_of_fmap. apply Hno. exists m.
    split; [by apply list_elem_of_In|]. by apply bool_decide_eq_true_2.
  - intros Hno (m & Hm%list_elem_of_In & Hid%bool_decide_eq_true_1).
    apply Hno. rewrite <- Hid. by apply list_elem_of_fmap_2.
Qed.

Lemma inviteStep_scheduled now requester project userByEmail st e :
  scheduled_ok requester project st →
  scheduled_ok requester project (inviteStep now requester project userByEmail st e).
Proof.
  intros (Hnd & Hall & Hlen). unfold inviteStep.
  destruct (userByEmail !! e) as [u|]; [|by case_match].
  destruct (existsb _ _) eqn:Hsched; cbn [orb]; [done|].
  destruct (isProjectMember project (user_id u)) eqn:Hmem; [done|].
  unfold scheduled_ok. cbn [membersToAdd results addedMembers].
  split; [|split].
  - unfold member_users. rewrite fmap_app. apply NoDup_app. split; [done|].
    split; [|apply NoDup_singleton].
    intros x Hx ->%list_elem_of_singleton. by apply scheduled_false in Hsched.
  - apply Forall_app. split; [done|]. by repeat constructor.
  - rewrite !length_app. cbn. lia.
Qed.

Lemma inviteLoop_scheduled now requester project userByEmail st emails :
  scheduled_ok requester project st →
  scheduled_ok requester project
    (foldl (inviteStep now requester project userByEmail) st emails).
Proof.
  revert st. induction emails as [|e emails IH]; intros st Hst; [done|].
  apply IH. by apply inviteStep_scheduled.
Qed.

(** X13: an invitation only ever adds members.  When the invite endpoint
    saves, the owner is unchanged and the members are the old members
    followed by the new ones, one for each email reported under
    [addedMembers]; each new member is a collaborator added by the requester
    whose account was not a member before; and if no account was a member
    twice before, none is afterwards. *)
Theorem invite_only_adds_members now project users requester email emails project' report :
  invite now (Some project) users requester email emails
  = mkInviteReply 200 (Some project') (Some report) →
  project_owner project' = project_owner project
  ∧ ∃ added,
      project_members project' = project_members project ++ added
      ∧ length added = length (addedMembers report)
      ∧ Forall (λ m, member_role m = RoleCollaborator ∧ member_addedBy m = requester
                     ∧ isProjectMember project (member_user m) = false) added
      ∧ (NoDup (member_users (project_members project)) →
         NoDup (member_users (project_members project'))).
Proof.
  unfold invite. destruct (normalizedEmailsOf _) as [|e0 es] eqn:Hemails; [done|].
  rewrite <- Hemails. clear Hemails e0 es.
  destruct (findProject _ _) as [p|] eqn:Hfind; [|done].
  assert (p = project) as ->.
  { rewrite findProject_member in Hfind. by destruct (isProjectMember _ _); simplify_eq. }
  destruct (negb _); [done|].
  set (st0 := mkLoop _ [] [] _).
  set (st := foldl _ st0 _).
  assert (scheduled_ok requester project st) as (Hnd & Hall & Hlen).
  { apply inviteLoop_scheduled. split; [constructor|]. split; [constructor|done]. }
  intros [= <- <-]. cbn [project_owner project_members].
  split; [done|]. exists (membersToAdd st).
  split; [done|]. split; [done|]. split; [done|].
  intros Hold. unfold member_users. rewrite fmap_app. apply NoDup_app.
  split; [done|]. split; [|done].
  intros x Hx (m & -> & Hm)%list_elem_of_fmap.
  rewrite Forall_forall in Hall.
  destruct (Hall m Hm) as (_ & _ & Hnot).
  apply isProjectMember_false in Hnot as [_ Hnot]. by apply Hnot.
Qed.

Lemma invite_only_adds_members_witness :
  ∃ added,
    [mkMember 1%N RoleOwner 1%N 0%Z; mkMember 2%N RoleCollaborator 1%N 5%Z]
    = project_members sampleProject ++ added
    ∧ length added = 1.
Proof.
  destruct (invite_only_adds_members 5 sampleProject sampleUsers 1%N (Some " Ann@X.io ") None
              (mkProject 1%N
                 [mkMember 1%N RoleOwner 1%N 0%Z; mkMember 2%N RoleCollaborator 1%N 5%Z]
                 [mkInvite "ann@x.io" 1%N Accepted 0%Z (Some 5%Z) None])
              (mkResults ["ann@x.io"] [] [] [] []))
    as (_ & added & Hmembers & Hlen & _); [vm_compute; reflexivity|].
  exists added. split; [exact Hmembers|exact Hlen].
Defined.

(** ** Pending invitations after an invitation *)

Lemma pending_for_marked now e e' (invites : list Invite) :
  pending_for e' (markInviteAccepted now e invites)
  = if decide (e' = e) then [] else pending_for e' invites.
Proof.
  unfold pending_for, markInviteAccepted.
  induction invites as [|i invites IH]; [by case_decide|].
  rewrite fmap_cons, !filter_cons, IH. clear IH.
  destruct (decide (invite_email i = e)) as [He|He];
    destruct (decide (invite_status i = Pending)) as [Hp|Hp];
    rewrite ?(bool_decide_eq_true_2 (invite_email i = e)),
            ?(bool_decide_eq_false_2 (invite_email i = e)),
            ?(bool_decide_eq_true_2 (invite_status i = Pending)),
            ?(bool_decide_eq_false_2 (invite_status i = Pending)) by done;
    cbn [andb invite_email invite_status];
    repeat case_decide; destruct_and?; simplify_eq; try done; exfalso; tauto.
Qed.

Lemma no_pending_found e (invites : list Invite) :
  existsb (λ invite, bool_decide (invite_email invite = e)
                     && bool_decide (invite_status invite = Pending)) invites = false
  ↔ pending_for e invites = [].
Proof.
  unfold pending_for. induction invites as [|i invites IH]; [done|].
  cbn [existsb]. rewrite filter_cons, orb_false_iff, IH.
  destruct (decide (invite_email i = e ∧ invite_status i = Pending)) as [[He Hp]|Hno].
  - rewrite !bool_decide_eq_true_2 by done. split; [by intros [? _]|done].
  - split; [by intros [_ ?]|]. intros Hnil. split; [|done].
    apply andb_false_iff.
    destruct (decide (invite_email i = e)); [right|left];
      apply bool_decide_eq_false_2; intros ?; by apply Hno.
Qed.

Lemma pending_for_distinct e (invites : list Invite) :
  NoDup (invite_email <$> invites) → (length (pending_for e invites) ≤ 1)%nat.
Proof.
  unfold pending_for. induction invites as [|i invites IH]; [simpl; lia|].
  rewrite fmap_cons. intros [Hi Hnd]%NoDup_cons. rewrite filter_cons.
  case_decide as Hd; [|by apply IH].
  destruct Hd as [<- _].
  assert (filter (λ i0, invite_email i0 = invite_email i ∧ invite_status i0 = Pending)
                 invites = []) as ->; [|simpl; lia].
  destruct (filter _ invites) as [|j l] eqn:Hf; [done|].
  assert (j ∈ filter (λ i0, invite_email i0 = invite_email i ∧ invite_status i0 = Pending)
                     invites) as Hj by (rewrite Hf; left).
  apply list_elem_of_filter in Hj as [[Hej _] Hj].
  exfalso. apply Hi. rewrite <- Hej. by apply list_elem_of_fmap_2.
Qed.

Lemma inviteStep_pending now requester project userByEmail invites0 st e rest :
  e ∉ rest →
  pending_ok invites0 (e :: rest) st →
  pending_ok invites0 rest (inviteStep now requester project userByEmail st e).
Proof.
  intros Hfresh (Hle & Hnd & Hall).
  assert (Forall (λ i, invite_status i = Pending ∧ (invite_email i ∉ rest)
                       ∧ pending_for (invite_email i) (loop_invites st) = [])
                 (invitesToAdd st)) as Hall'.
  { eapply Forall_impl; [exact Hall|]. intros i (? & Hi & ?).
    split; [done|]. split; [|done]. intros ?. apply Hi. by right. }
  unfold inviteStep. destruct (userByEmail !! e) as [u|].
  - destruct (existsb _ _ || isProjectMember _ _); [done|].
    split; [|split]; cbn [loop_invites invitesToAdd].
    + intros e'. rewrite pending_for_marked. case_decide; [simpl; lia|apply Hle].
    + done.
    + eapply Forall_impl; [exact Hall'|]. intros i (? & ? & Hnil).
      split; [done|]. split; [done|]. rewrite pending_for_marked.
      by case_decide.
  - destruct (existsb _ _) eqn:Hex; [done|]. apply no_pending_found in Hex.
    split; [|split]; cbn [loop_invites invitesToAdd].
    + done.
    + rewrite fmap_app. apply NoDup_app. split; [done|]. split; [|apply NoDup_singleton].
      intros x (i & -> & Hi)%list_elem_of_fmap Hx%list_elem_of_singleton.
      rewrite Forall_forall in Hall. destruct (Hall i Hi) as (_ & Hrest & _).
      apply Hrest. cbn in Hx. rewrite Hx. left.
    + apply Forall_app. split; [done|]. by repeat constructor.
Qed.

Lemma inviteLoop_pending now requester project userByEmail invites0 st emails :
  NoDup emails →
  pending_ok invites0 emails st →
  pending_ok invites0 []
    (foldl (inviteStep now requester project userByEmail) st emails).
Proof.
  revert st. induction emails as [|e emails IH]; intros st Hnd Hst; [done|].
  apply NoDup_cons in Hnd as [He Hnd]. cbn [foldl].
  apply IH; [done|]. by apply inviteStep_pending.
Qed.

(** X14: the invite endpoint never gives an email a second pending
    invitation.  If no email had two pending invitations in the project, none
    has in the project that is saved: an email without an account gets a new
    pending invitation only when it has none, emails with an account get
    none, and each email of the request is handled once. *)
Theorem invite_keeps_one_pending now project users requester email emails project' report :
  one_pending_each (project_invites project) →
  invite now (Some project) users requester email emails
  = mkInviteReply 200 (Some project') (Some report) →
  one_pending_each (project_invites project').
Proof.
  intros Hone. unfold invite.
  pose proof (unique_NoDup (filter (λ e, e ≠ "")
                              (normalizeEmail <$> requestedEmails email emails))) as Hnd.
  fold (normalizedEmailsOf (requestedEmails email emails)) in Hnd.
  destruct (normalizedEmailsOf _) as [|e0 es] eqn:Hemails; [done|].
  rewrite <- Hemails in *. clear Hemails e0 es.
  destruct (findProject _ _) as [p|] eqn:Hfind; [|done].
  assert (p = project) as ->.
  { rewrite findProject_member in Hfind. by destruct (isProjectMember _ _); simplify_eq. }
  destruct (negb _); [done|].
  set (st0 := mkLoop _ [] [] _).
  set (st := foldl _ st0 _).
  assert (pending_ok (project_invites project) [] st) as (Hle & Hdist & Hall).
  { apply inviteLoop_pending; [done|]. split; [done|]. split; constructor. }
  intros [= <- <-]. cbn [project_invites]. intros e.
  unfold pending_for. rewrite filter_app, length_app.
  fold (pending_for e (loop_invites st)) (pending_for e (invitesToAdd st)).
  destruct (pending_for e (invitesToAdd st)) as [|i l] eqn:Hnew.
  - specialize (Hle e). specialize (Hone e). simpl. lia.
  - assert (i ∈ pending_for e (invitesToAdd st)) as Hi by (rewrite Hnew; left).
    apply list_elem_of_filter in Hi as [[<- _] Hi].
    rewrite Forall_forall in Hall. destruct (Hall i Hi) as (_ & _ & ->).
    rewrite <- Hnew. cbn. by apply pending_for_distinct.
Qed.

Lemma invite_keeps_one_pending_witness :
  one_pending_each [mkInvite "ann@x.io" 1%N Accepted 0%Z (Some 5%Z) None].
Proof.
  apply (invite_keeps_one_pending 5 sampleProject sampleUsers 1%N (Some " Ann@X.io ") None
           (mkProject 1%N
              [mkMember 1%N RoleOwner 1%N 0%Z; mkMember 2%N RoleCollaborator 1%N 5%Z]
              [mkInvite "ann@x.io" 1%N Accepted 0%Z (Some 5%Z) None])
           (mkResults ["ann@x.io"] [] [] [] [])).
  - intros e. unfold pending_for, sampleProject. cbn [project_invites].
    rewrite filter_cons, filter_nil. case_decide; simpl; lia.
  - vm_compute. reflexivity.
Defined.

(** ** Inviting twice *)

Lemma pending_for_app e (l k : list Invite) :
  pending_for e (l ++ k) = pending_for e l ++ pending_for e k.
Proof. unfold pending_for. apply filter_app. Qed.

Lemma isProjectMember_true project userId :
  isProjectMember project userId = true ↔
  project_owner project = userId ∨ userId ∈ member_users (project_members project).
Proof.
  destruct (isProjectMember project userId) eqn:H.
  - split; [intros _|done]. apply not_false_iff_true in H.
    rewrite isProjectMember_false in H.
    destruct (decide (project_owner project = userId)); [by left|right].
    destruct (decide (userId ∈ member_users (project_members project))); [done|].
    exfalso. by apply H.
  - apply isProjectMember_false in H as [H1 H2]. split; [done|]. by intros [?|?].
Qed.

Lemma inviteStep_settles now requester project userByEmail st e :
  settled project userByEmail (inviteStep now requester project userByEmail st e) e.
Proof.
  unfold settled, inviteStep. destruct (userByEmail !! e) as [u|] eqn:Hu.
  - destruct (existsb _ _) eqn:Hsched; cbn [orb].
    + right. destruct (decide (user_id u ∈ member_users (membersToAdd st))); [done|].
      apply scheduled_false in n. congruence.
    + destruct (isProjectMember project (user_id u)) eqn:Hmem; [by left|].
      right. cbn [membersToAdd]. unfold member_users. rewrite fmap_app.
      apply elem_of_app. right. left.
  - destruct (existsb _ _) eqn:Hex.
    + left. cbn [loop_invites]. intros Hnil%no_pending_found. congruence.
    + right. cbn [invitesToAdd]. rewrite pending_for_app.
      unfold pending_for at 2. rewrite filter_cons, decide_True by done.
      by destruct (pending_for e (invitesToAdd st)).
Qed.

Lemma inviteStep_keeps_settled now requester project userByEmail st e e0 :
  settled project userByEmail st e0 →
  settled project userByEmail (inviteStep now requester project userByEmail st e) e0.
Proof.
  unfold settled, inviteStep. intros H0.
  destruct (userByEmail !! e) as [u|] eqn:Hu.
  - destruct (existsb _ _ || isProjectMember _ _); [done|].
    cbn [membersToAdd loop_invites invitesToAdd].
    destruct (userByEmail !! e0) as [u0|] eqn:Hu0.
    + destruct H0 as [?|H0]; [by left|right].
      unfold member_users. rewrite fmap_app. apply elem_of_app. by left.
    + rewrite pending_for_marked. rewrite decide_False; [done|].
      intros ->. congruence.
  - destruct (existsb _ _); [done|].
    cbn [membersToAdd loop_invites invitesToAdd].
    destruct (userByEmail !! e0) as [u0|]; [done|].
    destruct H0 as [?|H0]; [by left|right].
    rewrite pending_for_app. by destruct (pending_for e0 (invitesToAdd st)).
Qed.

Lemma inviteLoop_settles now requester project userByEmail st emails :
  (∀ e, settled project userByEmail st e
        → settled project userByEmail
            (foldl (inviteStep now requester project userByEmail) st emails) e)
  ∧ ∀ e, e ∈ emails →
         settled project userByEmail
           (foldl (inviteStep now requester project userByEmail) st emails) e.
Proof.
  revert st. induction emails as [|e emails IH]; intros st.
  - split; [done|]. by intros e ?%elem_of_nil.
  - destruct (IH (inviteStep now requester project userByEmail st e)) as [IH1 IH2].
    cbn [foldl]. split.
    + intros e0 H0. by apply IH1, inviteStep_keeps_settled.
    + intros e0 [->|Hin]%elem_of_cons; [|by apply IH2].
      apply IH1, inviteStep_settles.
Qed.

Lemma inviteLoop_nothing_new now requester project userByEmail st emails :
  (∀ e, e ∈ emails →
        match userByEmail !! e with
        | Some u => isProjectMember project (user_id u) = true
        | None => pending_for e (loop_invites st) ≠ []
        end) →
  let st' := foldl (inviteStep now requester project userByEmail) st emails in
  loop_invites st' = loop_invites st
  ∧ membersToAdd st' = membersToAdd st
  ∧ invitesToAdd st' = invitesToAdd st
  ∧ addedMembers (results st') = addedMembers (results st)
  ∧ invitationsSent (results st') = invitationsSent (results st).
Proof.
  revert st. induction emails as [|e emails IH]; intros st Hall; [done|].
  cbn [foldl].
  set (st1 := inviteStep now requester project userByEmail st e).
  assert (loop_invites st1 = loop_invites st
          ∧ membersToAdd st1 = membersToAdd st
          ∧ invitesToAdd st1 = invitesToAdd st
          ∧ addedMembers (results st1) = addedMembers (results st)
          ∧ invitationsSent (results st1) = invitationsSent (results st))
    as (H1 & H2 & H3 & H4 & H5).
  { subst st1. unfold inviteStep. specialize (Hall e (list_elem_of_here _ _)).
    destruct (userByEmail !! e) as [u|].
    - rewrite Hall, orb_true_r. done.
    - destruct (existsb _ _) eqn:Hex; [done|].
      apply no_pending_found in Hex. done. }
  destruct (IH st1) as (? & ? & ? & ? & ?).
  { intros e' He'. specialize (Hall e' (list_elem_of_further _ _ _ He')).
    by rewrite H1. }
  cbn zeta. repeat split; congruence.
Qed.

(** X15: inviting is idempotent.  When the invite endpoint has saved a
    project, the same request sent again by the owner, at any later time,
    changes nothing: it answers 200, saves the very same project, and reports
    no added member and no invitation sent, since every email with an account
    is a member by then and every other email has its pending invitation. *)
Theorem invite_twice_changes_nothing
    now now' project users requester email emails project' report :
  invite now (Some project) users requester email emails
  = mkInviteReply 200 (Some project') (Some report) →
  ∃ report',
    invite now' (Some project') users requester email emails
    = mkInviteReply 200 (Some project') (Some report')
    ∧ addedMembers report' = [] ∧ invitationsSent report' = [].
Proof.
  unfold invite. destruct (normalizedEmailsOf _) as [|e0 es] eqn:Hemails; [done|].
  rewrite <- Hemails. clear Hemails e0 es.
  set (emails' := normalizedEmailsOf (requestedEmails email emails)).
  destruct (findProject (Some project) requester) as [p|] eqn:Hfind; [|done].
  assert (p = project) as ->.
  { rewrite findProject_member in Hfind. by destruct (isProjectMember _ _); simplify_eq. }
  unfold isProjectOwner. case_bool_decide as Howner; [|done]. cbn [negb].
  set (userByEmail := userMap (findUsers users emails')).
  set (st0 := mkLoop _ [] [] _).
  set (st := foldl _ st0 emails').
  intros [= <- <-].
  set (project' := mkProject _ _ _).
  assert (findProject (Some project') requester = Some project') as ->.
  { unfold findProject. cbn [project_owner]. by rewrite bool_decide_eq_true_2. }
  cbn [project_owner]. rewrite bool_decide_eq_true_2 by done. cbn [negb].
  destruct (inviteLoop_settles now requester project userByEmail st0 emails')
    as [_ Hsettled]. fold st in Hsettled.
  set (st0' := mkLoop (project_invites project') [] [] _).
  destruct (inviteLoop_nothing_new now' requester project' userByEmail st0' emails')
    as (H1 & H2 & H3 & H4 & H5).
  { intros e He. specialize (Hsettled e He). unfold settled in Hsettled.
    destruct (userByEmail !! e) as [u|].
    - apply isProjectMember_true. cbn [project' project_owner project_members].
      destruct Hsettled as [Hm|Hs].
      + apply isProjectMember_true in Hm as [?|Hm]; [by left|right].
        unfold member_users. rewrite fmap_app. apply elem_of_app. by left.
      + right. unfold member_users. rewrite fmap_app. apply elem_of_app. by right.
    - cbn [st0' loop_invites project' project_invites]. rewrite pending_for_app.
      destruct Hsettled as [H|H].
      + by destruct (pending_for e (loop_invites st)).
      + destruct (pending_for e (loop_invites st)); [done|]. done. }
  eexists. split; [|split; [exact H4|exact H5]].
  rewrite H1, H2, H3. cbn [st0' loop_invites membersToAdd invitesToAdd].
  by rewrite !app_nil_r.
Qed.

Lemma invite_twice_changes_nothing_witness :
  ∃ report',
    invite 9 (Some (mkProject 1%N
                      [mkMember 1%N RoleOwner 1%N 0%Z; mkMember 2%N RoleCollaborator 1%N 5%Z]
                      [mkInvite "ann@x.io" 1%N Accepted 0%Z (Some 5%Z) None]))
      sampleUsers 1%N (Some " Ann@X.io ") None
    = mkInviteReply 200
        (Some (mkProject 1%N
                 [mkMember 1%N RoleOwner 1%N 0%Z; mkMember 2%N RoleCollaborator 1%N 5%Z]
                 [mkInvite "ann@x.io" 1%N Accepted 0%Z (Some 5%Z) None]))
        (Some report')
    ∧ addedMembers report' = [] ∧ invitationsSent report' = [].
Proof.
  apply (invite_twice_changes_nothing 5 9 sampleProject sampleUsers 1%N
           (Some " Ann@X.io ") None _ (mkResults ["ann@x.io"] [] [] [] [])).
  vm_compute. reflexivity.
Defined.

(** ** Revoking access *)

Lemma pending_for_replaced e (l : list Invite) i inv x :
  l !! i = Some inv → invite_email inv = e → invite_status inv = Pending →
  invite_status x ≠ Pending →
  (length (pending_for e (<[i := x]> l)) + 1 = length (pending_for e l))%nat.
Proof.
  intros Hi He Hp Hx. unfold pending_for.
  revert i Hi. induction l as [|y l IH]; intros [|i] Hi; simplify_eq/=.
  - rewrite !filter_cons.
    destruct (decide (invite_email x = invite_email inv ∧ invite_status x = Pending))
      as [[_ ?]|_]; [done|].
    destruct (decide (invite_email inv = invite_email inv ∧ invite_status inv = Pending))
      as [_|Hno]; [simpl; lia|]. by destruct Hno.
  - rewrite !filter_cons. specialize (IH i Hi).
    case_decide; simpl; lia.
Qed.

Lemma pending_for_replaced_other e e' (l : list Invite) i inv x :
  l !! i = Some inv → invite_email inv = e → e' ≠ e →
  invite_status x ≠ Pending →
  pending_for e' (<[i := x]> l) = pending_for e' l.
Proof.
  intros Hi He Hne Hx. unfold pending_for.
  revert i Hi. induction l as [|y l IH]; intros [|i] Hi; simplify_eq/=.
  - rewrite !filter_cons.
    destruct (decide (invite_email x = e' ∧ invite_status x = Pending))
      as [[_ ?]|_]; [done|].
    destruct (decide (invite_email inv = e' ∧ invite_status inv = Pending))
      as [[? _]|_]; [by subst|done].
  - rewrite !filter_cons. by rewrite (IH i Hi).
Qed.

Lemma filter_delete_other {A} (P : A → Prop) `{∀ x, Decision (P x)} (l : list A) i x :
  l !! i = Some x → ¬ P x → filter P (delete i l) = filter P l.
Proof.
  revert i. induction l as [|y l IH]; intros [|i] Hi Hx; simplify_eq/=.
  - by rewrite filter_cons, decide_False.
  - rewrite !filter_cons, (IH i) by done. done.
Qed.

Lemma Forall2_insert_cancelled now (l : list Invite) i inv :
  l !! i = Some inv → invite_status inv = Pending →
  Forall2 (λ i i', i' = i ∨ (invite_status i = Pending ∧ i' = cancelledInvite now i))
          l (<[i := cancelledInvite now inv]> l).
Proof.
  revert i. induction l as [|y l IH]; intros [|i] Hi Hp; simplify_eq/=.
  - constructor; [by right|]. apply Forall2_same_length_lookup_2; [done|].
    intros j a b ??. left. congruence.
  - constructor; [by left|]. by apply IH.
Qed.

(** The three things an iteration of the revoke loop can do. *)
Lemma revokeStep_cases now project userByEmail st e :
  let st' := revokeStep now project userByEmail st e in
  let r := revoke_result st in
  let r' := revoke_result st' in
  (revoke_members st' = revoke_members st ∧ revoke_invites st' = revoke_invites st
   ∧ membersRemoved r' = membersRemoved r ∧ invitesCancelled r' = invitesCancelled r)
  ∨ (∃ idx m, revoke_members st !! idx = Some m
              ∧ member_user m ≠ project_owner project
              ∧ revoke_members st' = delete idx (revoke_members st)
              ∧ revoke_invites st' = revoke_invites st
              ∧ membersRemoved r' = membersRemoved r ++ [e]
              ∧ invitesCancelled r' = invitesCancelled r)
  ∨ (∃ i inv, revoke_invites st !! i = Some inv
              ∧ invite_email inv = e ∧ invite_status inv = Pending
              ∧ revoke_members st' = revoke_members st
              ∧ revoke_invites st' = <[i := cancelledInvite now inv]> (revoke_invites st)
              ∧ membersRemoved r' = membersRemoved r
              ∧ invitesCancelled r' = invitesCancelled r ++ [e]).
Proof.
  assert (let st' := revokeInvite now st e in
          let r := revoke_result st in
          let r' := revoke_result st' in
          (revoke_members st' = revoke_members st ∧ revoke_invites st' = revoke_invites st
           ∧ membersRemoved r' = membersRemoved r
           ∧ invitesCancelled r' = invitesCancelled r)
          ∨ (∃ i inv, revoke_invites st !! i = Some inv
              ∧ invite_email inv = e ∧ invite_status inv = Pending
              ∧ revoke_members st' = revoke_members st
              ∧ revoke_invites st' = <[i := cancelledInvite now inv]> (revoke_invites st)
              ∧ membersRemoved r' = membersRemoved r
              ∧ invitesCancelled r' = invitesCancelled r ++ [e])) as Hinvite.
  { unfold revokeInvite.
    destruct (list_find _ (revoke_invites st)) as [[i inv]|] eqn:Hfind; cbn.
    - right. apply list_find_Some in Hfind as (Hi & [He Hp] & _).
      exists i, inv. done.
    - by left. }
  unfold revokeStep. destruct (userByEmail !! e) as [u|].
  - case_bool_decide as Howner; [by left|].
    destruct (list_find _ (revoke_members st)) as [[idx m]|] eqn:Hfind.
    + right; left. apply list_find_Some in Hfind as (Hi & Hm & _).
      exists idx, m. cbn. repeat split; try done. congruence.
    + cbv zeta in Hinvite. destruct Hinvite as [?|?]; [by left|by right; right].
  - cbv zeta in Hinvite. destruct Hinvite as [?|?]; [by left|by right; right].
Qed.

Lemma revoked_from_refl now owner st : revoked_from now owner st st.
Proof.
  repeat split; try done. apply Forall2_same_length_lookup_2; [done|].
  intros i a b ??. left. congruence.
Qed.

Lemma revoked_from_trans now owner st1 st2 st3 :
  revoked_from now owner st1 st2 → revoked_from now owner st2 st3 →
  revoked_from now owner st1 st3.
Proof.
  intros (Hs1 & Hl1 & Hf1 & Hi1) (Hs2 & Hl2 & Hf2 & Hi2). repeat split.
  - by etrans.
  - lia.
  - congruence.
  - apply Forall2_same_length_lookup_2.
    { etrans; by eapply Forall2_length. }
    intros i a c Ha Hc.
    destruct (Forall2_lookup_l _ _ _ _ _ Hi1 Ha) as (b & Hb & Hab).
    destruct (Forall2_lookup_l _ _ _ _ _ Hi2 Hb) as (c' & Hc' & Hbc).
    simplify_eq. destruct Hab as [->|[Hp ->]]; [done|].
    destruct Hbc as [->|[Hp' _]]; [by right|]. done.
Qed.

Lemma revokeStep_revoked now project userByEmail st e :
  revoked_from now (project_owner project) st (revokeStep now project userByEmail st e).
Proof.
  destruct (revokeStep_cases now project userByEmail st e)
    as [(Hm & Hi & Hr & Hc)|[(idx & m & Hidx & Hno & Hm & Hi & Hr & Hc)
                            |(i & inv & Hidx & He & Hp & Hm & Hi & Hr & Hc)]];
    unfold revoked_from; rewrite Hm, Hi, Hr.
  - repeat split; try done. apply Forall2_same_length_lookup_2; [done|].
    intros j a b ??. left. congruence.
  - repeat split.
    + apply sublist_delete.
    + rewrite length_app, length_delete by done. simpl.
      apply lookup_lt_Some in Hidx. lia.
    + by eapply filter_delete_other.
    + apply Forall2_same_length_lookup_2; [done|].
      intros j a b ??. left. congruence.
  - repeat split; try done. by apply Forall2_insert_cancelled.
Qed.

Lemma revokeLoop_revoked now project userByEmail st emails :
  revoked_from now (project_owner project) st
    (foldl (revokeStep now project userByEmail) st emails).
Proof.
  revert st. induction emails as [|e emails IH]; intros st; cbn [foldl].
  - apply revoked_from_refl.
  - eapply revoked_from_trans; [apply revokeStep_revoked|apply IH].
Qed.

(** X16: revoking only takes away.  When the revoke endpoint saves, it
    answers 200 and the saved project has the same owner; its members are a
    sublist of the former members, shorter by the number of emails reported
    as removed, and every member row of the owner is still there; the list of
    invitations has the same length, each invitation being as it was or, if
    it was pending, cancelled at the time of the request; and at least one
    email is reported as removed or as cancelled. *)
Theorem revoke_only_takes_away
    now project users requester email emails code project' report :
  revoke now (Some project) users requester email emails
  = mkRevokeReply code (Some project') report →
  code = 200
  ∧ project_owner project' = project_owner project
  ∧ project_members project' `sublist_of` project_members project
  ∧ filter (λ m, member_user m = project_owner project) (project_members project')
    = filter (λ m, member_user m = project_owner project) (project_members project)
  ∧ Forall2 (λ i i', i' = i ∨ (invite_status i = Pending ∧ i' = cancelledInvite now i))
            (project_invites project) (project_invites project')
  ∧ ∃ r, report = Some r
         ∧ (length (project_members project)
            = length (project_members project') + length (membersRemoved r))%nat
         ∧ (membersRemoved r ≠ [] ∨ invitesCancelled r ≠ []).
Proof.
  unfold revoke. destruct (normalizedEmailsOf _) as [|e0 es] eqn:Hemails; [done|].
  rewrite <- Hemails. clear Hemails e0 es.
  destruct (findProject (Some project) requester) as [p|] eqn:Hfind; [|done].
  assert (p = project) as ->.
  { rewrite findProject_member in Hfind. by destruct (isProjectMember _ _); simplify_eq. }
  destruct (negb _); [done|].
  set (st0 := mkRevokeLoop _ _ _). set (userByEmail := userMap _).
  pose proof (revokeLoop_revoked now project userByEmail st0
                (normalizedEmailsOf (requestedEmails email emails)))
    as (Hs & Hl & Hf & Hi).
  set (st := foldl _ st0 _) in *.
  destruct (membersRemoved (revoke_result st)) as [|m ms] eqn:Hrem;
    [destruct (invitesCancelled (revoke_result st)) as [|c cs] eqn:Hcan; [done|]|];
    intros [= <- <- <-]; cbn [project_owner project_members project_invites];
    (repeat split; try done;
     exists (revoke_result st); rewrite Hrem; split; [done|];
     split; [cbn [st0 revoke_members revoke_result membersRemoved] in Hl;
             simpl in *; lia|]).
  - right. by rewrite Hcan.
  - by left.
Qed.

Lemma revoke_only_takes_away_witness :
  200 = 200
  ∧ project_owner (mkProject 1%N [mkMember 1%N RoleOwner 1%N 0%Z]
                     [mkInvite "bob@x.io" 1%N Cancelled 0%Z None (Some 7%Z)])
    = 1%N.
Proof.
  pose proof (revoke_only_takes_away 7
                (mkProject 1%N
                   [mkMember 1%N RoleOwner 1%N 0%Z; mkMember 2%N RoleCollaborator 1%N 0%Z]
                   [mkInvite "bob@x.io" 1%N Pending 0%Z None None])
                sampleUsers 1%N None
                (Some [EmailString "Ann@x.io"; EmailString "bob@x.io";
                       EmailString "owner@x.io"])
                200
                (mkProject 1%N [mkMember 1%N RoleOwner 1%N 0%Z]
                   [mkInvite "bob@x.io" 1%N Cancelled 0%Z None (Some 7%Z)])
                (Some (mkRevoked ["ann@x.io"] ["bob@x.io"] [] ["owner@x.io"] [])))
    as (H1 & H2 & _); [vm_compute; reflexivity|].
  split; [exact H1|exact H2].
Defined.

(** ** Accepting an invitation *)

Lemma findById_Some users caller u :
  findById users caller = Some u → user_id u = caller ∧ u ∈ users.
Proof.
  unfold findById. destruct (list_find _ users) as [[i x]|] eqn:Hfind; [|done].
  intros [= <-]. apply list_find_Some in Hfind as (Hi & Hx & _).
  split; [done|]. by eapply list_elem_of_lookup_2.
Qed.

Lemma pending_found e (invites : list Invite) :
  pending_for e invites ≠ [] ↔
  ∃ i inv, list_find (λ entry, invite_email entry = e ∧ invite_status entry = Pending)
                     invites = Some (i, inv).
Proof.
  unfold pending_for. split.
  - intros Hne. destruct (filter _ invites) as [|inv l] eqn:Hf; [done|].
    assert (inv ∈ filter (λ i, invite_email i = e ∧ invite_status i = Pending) invites)
      as [Hp Hin]%list_elem_of_filter by (rewrite Hf; left).
    destruct (list_find_elem_of
                (λ entry, invite_email entry = e ∧ invite_status entry = Pending)
                invites inv Hin Hp) as [[i x] Hx].
    by exists i, x.
  - intros (i & inv & (Hi & Hp & _)%list_find_Some) Hnil.
    assert (inv ∈ filter (λ i, invite_email i = e ∧ invite_status i = Pending) invites)
      as Hin.
    { apply list_elem_of_filter. split; [done|]. by eapply list_elem_of_lookup_2. }
    rewrite Hnil in Hin. by apply elem_of_nil in Hin.
Qed.

(** What a reply of the accept endpoint that saves was computed from. *)
Lemma acceptInvite_saved now project users caller code project' :
  acceptInvite now (Some project) users caller = (code, Some project') →
  ∃ u i inv,
    findById users caller = Some u ∧ user_email u ≠ ""
    ∧ project_invites project !! i = Some inv
    ∧ invite_email inv = normalizeEmail (EmailString (user_email u))
    ∧ invite_status inv = Pending
    ∧ code = 200
    ∧ project' =
        mkProject (project_owner project)
          (if isProjectMember project (user_id u) then project_members project
           else project_members project ++
                [mkMember (user_id u) RoleCollaborator (invite_invitedBy inv) now])
          (<[i := acceptedInvite now inv]> (project_invites project)).
Proof.
  unfold acceptInvite. destruct (findById users caller) as [u|] eqn:Hu; [|done].
  destruct (user_email u) as [|a s] eqn:Hemail; [done|]. cbn [Js.or_null].
  destruct (existsb _ _); [|done].
  destruct (list_find _ (project_invites project)) as [[i inv]|] eqn:Hfind; [|done].
  intros [= <- <-]. apply list_find_Some in Hfind as (Hi & [He Hp] & _).
  exists u, i, inv. by rewrite Hemail.
Qed.

(** When the accept endpoint answers 200. *)
Lemma acceptInvite_accepts now project users caller u :
  findById users caller = Some u →
  pending_for (normalizeEmail (EmailString (user_email u))) (project_invites project) ≠ [] →
  user_email u ≠ "" →
  ∃ project', acceptInvite now (Some project) users caller = (200, Some project').
Proof.
  intros Hu Hpending Hemail. unfold acceptInvite. rewrite Hu.
  destruct (user_email u) as [|a s] eqn:He; [done|]. cbn [Js.or_null].
  assert (existsb (λ entry,
             bool_decide (invite_email entry = normalizeEmail (EmailString (String a s))
                          ∧ invite_status entry = Pending))
            (project_invites project) = true) as ->.
  { apply pending_found in Hpending as (i & inv & (Hi & Hp & _)%list_find_Some).
    apply existsb_exists. exists inv. split.
    - apply list_elem_of_In. by eapply list_elem_of_lookup_2.
    - by apply bool_decide_eq_true_2. }
  apply pending_found in Hpending as (i & inv & ->). by eexists.
Qed.

(** When the accept endpoint finds no invitation. *)
Lemma acceptInvite_refuses now project users caller u :
  findById users caller = Some u →
  pending_for (normalizeEmail (EmailString (user_email u))) (project_invites project) = [] →
  acceptInvite now (Some project) users caller = (404, None).
Proof.
  intros Hu Hpending. unfold acceptInvite. rewrite Hu.
  destruct (Js.or_null _); [|done].
  destruct (existsb _ _); [|done].
  destruct (list_find _ (project_invites project)) as [[i inv]|] eqn:Hfind; [|done].
  exfalso. revert Hpending. apply pending_found. by exists i, inv.
Qed.

Lemma isProjectMember_appended owner members m invites :
  isProjectMember (mkProject owner (members ++ [m]) invites) (member_user m) = true.
Proof.
  apply isProjectMember_true. right. cbn [project_members]. unfold member_users.
  rewrite fmap_app. apply elem_of_app. right. left.
Qed.

Lemma joined_is_member project userId m invites :
  member_user m = userId →
  isProjectMember
    (mkProject (project_owner project)
       (if isProjectMember project userId then project_members project
        else project_members project ++ [m]) invites) userId = true.
Proof.
  intros <-. destruct (isProjectMember project (member_user m)) eqn:Hmem.
  - rewrite <- Hmem. by destruct project.
  - apply isProjectMember_appended.
Qed.

(** X17: accepting an invitation makes the caller a member.  When the accept
    endpoint saves, it answers 200 and, in the saved project, the caller is a
    member; the owner is the same; the former members are a prefix of the
    members, and no account becomes a member twice; one pending invitation
    for the caller's email, in its normal form, is pending no longer, and the
    pending invitations for every other email are the same. *)
Theorem acceptInvite_joins now project users caller code project' :
  acceptInvite now (Some project) users caller = (code, Some project') →
  code = 200
  ∧ isProjectMember project' caller = true
  ∧ project_owner project' = project_owner project
  ∧ project_members project `prefix_of` project_members project'
  ∧ (NoDup (member_users (project_members project))
     → NoDup (member_users (project_members project')))
  ∧ ∃ u, findById users caller = Some u
         ∧ let email := normalizeEmail (EmailString (user_email u)) in
           (length (pending_for email (project_invites project')) + 1
            = length (pending_for email (project_invites project)))%nat
           ∧ ∀ e, e ≠ email →
                  pending_for e (project_invites project')
                  = pending_for e (project_invites project).
Proof.
  intros (u & i & inv & Hu & Hemail & Hi & He & Hp & -> & ->)%acceptInvite_saved.
  destruct (findById_Some _ _ _ Hu) as [<- _].
  split; [done|]. cbn [project_owner project_members project_invites].
  destruct (isProjectMember project (user_id u)) eqn:Hmem.
  - repeat split; try done.
    exists u. split; [done|]. split.
    + by eapply pending_for_replaced.
    + intros e Hne. by eapply pending_for_replaced_other.
  - repeat split; try done.
    + apply (isProjectMember_appended _ _ (mkMember (user_id u) _ _ _)).
    + by apply prefix_app_r.
    + intros Hnd. unfold member_users. rewrite fmap_app.
      apply NoDup_app. split; [done|]. split; [|apply NoDup_singleton].
      intros x Hx ->%list_elem_of_singleton. cbn [member_user] in Hx.
      apply isProjectMember_false in Hmem as [_ Hmem]. by apply Hmem.
    + exists u. split; [done|]. split.
      * by eapply pending_for_replaced.
      * intros e Hne. by eapply pending_for_replaced_other.
Qed.

Lemma acceptInvite_joins_witness :
  200 = 200
  ∧ isProjectMember
      (mkProject 1%N
         [mkMember 1%N RoleOwner 1%N 0%Z; mkMember 2%N RoleCollaborator 1%N 8%Z]
         [mkInvite "ann@x.io" 1%N Accepted 0%Z (Some 8%Z) None]) 2%N = true.
Proof.
  pose proof (acceptInvite_joins 8 sampleProject sampleUsers 2%N 200
                (mkProject 1%N
                   [mkMember 1%N RoleOwner 1%N 0%Z; mkMember 2%N RoleCollaborator 1%N 8%Z]
                   [mkInvite "ann@x.io" 1%N Accepted 0%Z (Some 8%Z) None]))
    as (H1 & H2 & _); [vm_compute; reflexivity|].
  split; [exact H1|exact H2].
Defined.

(** X18: an invitation is accepted once.  On a project where no email has
    two pending invitations, after the accept endpoint has saved, the same
    caller accepting again on the saved project gets 404 and nothing is
    saved. *)
Theorem acceptInvite_only_once now now' project users caller code project' :
  one_pending_each (project_invites project) →
  acceptInvite now (Some project) users caller = (code, Some project') →
  acceptInvite now' (Some project') users caller = (404, None).
Proof.
  intros Hone (u & i & inv & Hu & Hemail & Hi & He & Hp & -> & ->)%acceptInvite_saved.
  apply (acceptInvite_refuses _ _ _ _ u Hu). cbn [project_invites].
  assert (invite_status (acceptedInvite now inv) ≠ Pending) as Hacc by done.
  pose proof (pending_for_replaced _ _ i inv (acceptedInvite now inv) Hi He Hp Hacc)
    as Hlen.
  specialize (Hone (invite_email inv)). rewrite He in Hone.
  destruct (pending_for _ (<[i := _]> _)); [done|].
  cbn [length] in Hlen. lia.
Qed.

Lemma acceptInvite_only_once_witness :
  acceptInvite 9
    (Some (mkProject 1%N
             [mkMember 1%N RoleOwner 1%N 0%Z; mkMember 2%N RoleCollaborator 1%N 8%Z]
             [mkInvite "ann@x.io" 1%N Accepted 0%Z (Some 8%Z) None]))
    sampleUsers 2%N
  = (404, None).
Proof.
  apply (acceptInvite_only_once 8 9 sampleProject sampleUsers 2%N 200).
  - intros e. unfold pending_for, sampleProject. cbn [project_invites].
    rewrite filter_cons, filter_nil. case_decide; simpl; lia.
  - vm_compute. reflexivity.
Defined.

(** ** Invitations through their life *)

Lemma inviteStep_invited now requester project userByEmail st e :
  invited_ok userByEmail st →
  invited_ok userByEmail (inviteStep now requester project userByEmail st e).
Proof.
  unfold invited_ok, inviteStep. intros Hok.
  destruct (userByEmail !! e) as [u|] eqn:Hu.
  - destruct (existsb _ _ || isProjectMember _ _); [done|].
    cbn [results invitationsSent alreadyInvited loop_invites invitesToAdd].
    intros e0 H0. destruct (Hok e0 H0) as [Hnone Hpend]. split; [done|].
    rewrite pending_for_marked. rewrite decide_False; [done|].
    intros ->. congruence.
  - destruct (existsb _ _) eqn:Hex;
      cbn [results invitationsSent alreadyInvited loop_invites invitesToAdd].
    + intros e0 [H0|[H0|H0%list_elem_of_singleton]%elem_of_app];
        [by apply Hok; left|by apply Hok; right|subst e0].
      split; [done|]. left. intros Hnil%no_pending_found. congruence.
    + intros e0 H0. rewrite pending_for_app.
      destruct H0 as [[H0|H0%list_elem_of_singleton]%elem_of_app|H0]; [|subst e0|].
      * destruct (Hok e0 (or_introl H0)) as [? [?|?]]; split; try done; [by left|right].
        by destruct (pending_for e0 (invitesToAdd st)).
      * split; [done|]. right. unfold pending_for at 2.
        rewrite filter_cons, decide_True by done.
        by destruct (pending_for e (invitesToAdd st)).
      * destruct (Hok e0 (or_intror H0)) as [? [?|?]]; split; try done; [by left|right].
        by destruct (pending_for e0 (invitesToAdd st)).
Qed.

Lemma inviteLoop_invited now requester project userByEmail st emails :
  invited_ok userByEmail st →
  invited_ok userByEmail (foldl (inviteStep now requester project userByEmail) st emails).
Proof.
  revert st. induction emails as [|e emails IH]; intros st Hok; [done|].
  cbn [foldl]. by apply IH, inviteStep_invited.
Qed.

Lemma normalizedEmails_nonempty requested e :
  e ∈ normalizedEmailsOf requested → e ≠ "".
Proof.
  unfold normalizedEmailsOf. rewrite elem_of_unique.
  by intros [? _]%list_elem_of_filter.
Qed.

(** X19: an invitation that was sent can be accepted.  When the invite
    endpoint has saved a project and reports an email as invited, now or
    already, an account that bears that email in its normal form, whenever it
    was created, gets 200 from the accept endpoint on the saved project and
    is a member of the project saved then. *)
Theorem invited_can_accept
    now now' project users requester email emails project' report users' caller u e :
  invite now (Some project) users requester email emails
  = mkInviteReply 200 (Some project') (Some report) →
  e ∈ invitationsSent report ∨ e ∈ alreadyInvited report →
  findById users' caller = Some u →
  user_email u ≠ "" →
  normalizeEmail (EmailString (user_email u)) = e →
  ∃ project'',
    acceptInvite now' (Some project') users' caller = (200, Some project'')
    ∧ isProjectMember project'' caller = true.
Proof.
  unfold invite. destruct (normalizedEmailsOf _) as [|e0 es] eqn:Hemails; [done|].
  rewrite <- Hemails. clear Hemails e0 es.
  destruct (findProject (Some project) requester) as [p|] eqn:Hfind; [|done].
  assert (p = project) as ->.
  { rewrite findProject_member in Hfind. by destruct (isProjectMember _ _); simplify_eq. }
  destruct (negb _); [done|].
  set (userByEmail := userMap _). set (st0 := mkLoop _ [] [] _).
  pose proof (inviteLoop_invited now requester project userByEmail st0
                (normalizedEmailsOf (requestedEmails email emails))) as Hok.
  set (st := foldl _ st0 _) in *.
  intros [= <- <-] He Hu Hemail Hnorm.
  destruct Hok with e as [_ Hpending]; [|done|].
  { intros e1 [H1|H1]; cbn in H1; by apply elem_of_nil in H1. }
  destruct (acceptInvite_accepts now'
              (mkProject (project_owner project)
                 (project_members project ++ membersToAdd st)
                 (loop_invites st ++ invitesToAdd st)) users' caller u Hu)
    as [project'' Haccept]; [|done|].
  { rewrite Hnorm. cbn [project_invites]. rewrite pending_for_app.
    destruct Hpending as [H|H].
    - by destruct (pending_for e (loop_invites st)).
    - destruct (pending_for e (loop_invites st)); [done|]. done. }
  exists project''. split; [done|].
  apply acceptInvite_saved in Haccept
    as (u1 & i & inv & Hu1 & _ & _ & _ & _ & _ & ->).
  rewrite Hu in Hu1. injection Hu1 as <-.
  destruct (findById_Some _ _ _ Hu) as [<- _].
  by apply joined_is_member.
Qed.

Lemma invited_can_accept_witness :
  ∃ project'',
    acceptInvite 9
      (Some (mkProject 1%N [mkMember 1%N RoleOwner 1%N 0%Z]
               [mkInvite "ann@x.io" 1%N Pending 0%Z None None;
                mkInvite "bob@x.io" 1%N Pending 5%Z None None]))
      [mkUser 3%N "Bob@x.io"] 3%N
    = (200, Some project'')
    ∧ isProjectMember project'' 3%N = true.
Proof.
  apply (invited_can_accept 5 9 sampleProject [] 1%N (Some "bob@x.io") None _
           (mkResults [] ["bob@x.io"] [] [] []) [mkUser 3%N "Bob@x.io"] 3%N
           (mkUser 3%N "Bob@x.io") "bob@x.io").
  - vm_compute. reflexivity.
  - left. left.
  - vm_compute. reflexivity.
  - done.
  - vm_compute. reflexivity.
Defined.

Lemma revokeStep_cancelled now project userByEmail st e :
  cancelled_ok st → cancelled_ok (revokeStep now project userByEmail st e).
Proof.
  intros [Hone Hcan].
  destruct (revokeStep_cases now project userByEmail st e)
    as [(Hm & Hi & Hr & Hc)|[(idx & m & Hidx & Hno & Hm & Hi & Hr & Hc)
                            |(i & inv & Hidx & He & Hp & Hm & Hi & Hr & Hc)]];
    unfold cancelled_ok; rewrite Hi, Hc; [done|done|].
  assert (∀ e', (length (pending_for e' (<[i := cancelledInvite now inv]> (revoke_invites st)))
                 ≤ length (pending_for e' (revoke_invites st)))%nat) as Hle.
  { intros e'. destruct (decide (e' = e)) as [->|Hne].
    - pose proof (pending_for_replaced e _ i inv (cancelledInvite now inv) Hidx He Hp
                    ltac:(done)). lia.
    - by rewrite (pending_for_replaced_other e e' _ i inv). }
  split.
  - intros e'. specialize (Hone e'). specialize (Hle e'). lia.
  - intros e' [H'|H'%list_elem_of_singleton]%elem_of_app; [|subst e'].
    + specialize (Hle e'). rewrite (Hcan e' H') in Hle.
      destruct (pending_for e' (<[_ := _]> _)); [done|cbn [length] in Hle; lia].
    + pose proof (pending_for_replaced e _ i inv (cancelledInvite now inv) Hidx He Hp
                    ltac:(done)) as Hlen.
      specialize (Hone e).
      destruct (pending_for e (<[_ := _]> _)); [done|cbn [length] in Hlen; lia].
Qed.

Lemma revokeLoop_cancelled now project userByEmail st emails :
  cancelled_ok st → cancelled_ok (foldl (revokeStep now project userByEmail) st emails).
Proof.
  revert st. induction emails as [|e emails IH]; intros st Hok; [done|].
  cbn [foldl]. by apply IH, revokeStep_cancelled.
Qed.

(** X20: a cancelled invitation cannot be accepted.  On a project where no
    email has two pending invitations, when the revoke endpoint has saved and
    reports an email as cancelled, an account bearing that email in its
    normal form gets 404 from the accept endpoint on the saved project, and
    nothing is saved. *)
Theorem revoked_cannot_accept
    now now' project users requester email emails project' report users' caller u e :
  one_pending_each (project_invites project) →
  revoke now (Some project) users requester email emails
  = mkRevokeReply 200 (Some project') (Some report) →
  e ∈ invitesCancelled report →
  findById users' caller = Some u →
  normalizeEmail (EmailString (user_email u)) = e →
  acceptInvite now' (Some project') users' caller = (404, None).
Proof.
  intros Hone. unfold revoke.
  destruct (normalizedEmailsOf _) as [|e0 es] eqn:Hemails; [done|].
  rewrite <- Hemails. clear Hemails e0 es.
  destruct (findProject (Some project) requester) as [p|] eqn:Hfind; [|done].
  assert (p = project) as ->.
  { rewrite findProject_member in Hfind. by destruct (isProjectMember _ _); simplify_eq. }
  destruct (negb _); [done|].
  set (st0 := mkRevokeLoop _ _ _). set (userByEmail := userMap _).
  pose proof (revokeLoop_cancelled now project userByEmail st0
                (normalizedEmailsOf (requestedEmails email emails))) as [_ Hcan].
  { split; [done|]. intros e1 H1. cbn in H1. by apply elem_of_nil in H1. }
  set (st := foldl _ st0 _) in *.
  intros Hreply He Hu Hnorm.
  assert (project' = mkProject (project_owner project) (revoke_members st)
                       (revoke_invites st) ∧ report = revoke_result st) as [-> ->].
  { destruct (membersRemoved (revoke_result st));
      [destruct (invitesCancelled (revoke_result st)); [done|]|];
      by injection Hreply as <- <-. }
  apply (acceptInvite_refuses _ _ _ _ u Hu). rewrite Hnorm. by apply Hcan.
Qed.

Lemma revoked_cannot_accept_witness :
  acceptInvite 9
    (Some (mkProject 1%N [mkMember 1%N RoleOwner 1%N 0%Z]
             [mkInvite "ann@x.io" 1%N Cancelled 0%Z None (Some 7%Z)]))
    sampleUsers 2%N
  = (404, None).
Proof.
  apply (revoked_cannot_accept 7 9 sampleProject [] 1%N (Some "ann@x.io") None _
           (mkRevoked [] ["ann@x.io"] [] [] []) sampleUsers 2%N
           (mkUser 2%N "ann@x.io") "ann@x.io").
  - intros e. unfold pending_for, sampleProject. cbn [project_invites].
    rewrite filter_cons, filter_nil. case_decide; simpl; lia.
  - vm_compute. reflexivity.
  - left.
  - vm_compute. reflexivity.
  - vm_compute. reflexivity.
Defined.

(** ** The names query of the column listing *)

(** X21: the names query of the column listing.  The [requestedColumns] of
    the listing bear the requested names trimmed, none empty and none twice;
    a name is reported as existing exactly when the single-column endpoint
    answers 200 for it, and exactly when a column comes with it; that
    column is one of the listing and has the requested name up to letter
    case; and when the names of the board are canonical it is the column the
    single-column endpoint returns. *)
Theorem requested_columns_agree now stored names code columns requested :
  listColumns now (Some stored) names = (code, columns, Some requested) →
  NoDup (requested_name <$> requested)
  ∧ Forall (λ r,
      requested_name r ≠ ""
      ∧ Js.trim (requested_name r) = requested_name r
      ∧ (requested_exists r = true
         ↔ fst (getColumn now (Some stored) (requested_name r)) = 200)
      ∧ (requested_exists r = true ↔ is_Some (requested_column r))
      ∧ (∀ c, requested_column r = Some c →
              c ∈ columns ∧ nameKey (col_name c) = nameKey (Some (requested_name r)))
      ∧ (names_canonical (normalizeExistingColumns now stored false false) →
         requested_column r = snd (getColumn now (Some stored) (requested_name r))))
      requested.
Proof.
  unfold listColumns. intros [= <- <- Hreq]. unfold requestedColumns in Hreq.
  destruct names as [names|]; [|done]. case_decide; [done|].
  set (requestedNames := unique _) in Hreq.
  assert (NoDup requestedNames) as Hnd by apply unique_NoDup.
  assert (∀ n, n ∈ requestedNames → n ≠ "" ∧ Js.trim n = n) as Hnames.
  { intros n [Hne (v & -> & _)%list_elem_of_fmap]%elem_of_unique%list_elem_of_filter.
    split; [done|]. unfold normalizeColumnName. apply trim_idem. }
  destruct requestedNames as [|n0 ns] eqn:Hns; [done|]. rewrite <- Hns in *.
  clear Hns n0 ns. injection Hreq as <-.
  set (stored' := normalizeExistingColumns now stored false false).
  split.
  { rewrite <- list_fmap_compose.
    by rewrite (list_fmap_ext _ id _ (λ _ _ _, eq_refl)), list_fmap_id. }
  apply Forall_fmap, Forall_forall. intros n Hn. cbn.
  destruct (Hnames n Hn) as [Hne Htrim].
  assert (Js.toLowerCase n ≠ "") as Hkey by (by rewrite toLowerCase_empty).
  set (found := snd <$> list_find _ (sortColumnsByOrder stored')).
  assert (∀ c, found = Some c →
               c ∈ stored' ∧ nameKey (col_name c) = nameKey (Some n)) as Hfound.
  { intros c Hc. subst found.
    destruct (list_find _ (sortColumnsByOrder stored')) as [[i x]|] eqn:Hf; [|done].
    injection Hc as ->. apply list_find_Some in Hf as (Hi & Hk & _).
    split.
    - apply list_elem_of_lookup_2 in Hi. unfold sortColumnsByOrder in Hi.
      by rewrite sort_Permutation in Hi.
    - by rewrite (nameKey_trimmed n). }
  assert (is_Some found ↔ is_Some (findColumnIndex stored' (Some n))) as Hsome.
  { rewrite found_iff_key, (nameKey_trimmed n) by done. split.
    - intros [c Hc]. destruct (Hfound c Hc) as [Hin Hk]. split; [done|].
      rewrite (nameKey_trimmed n) in Hk by done. rewrite <- Hk.
      unfold names_of. rewrite <- list_fmap_compose.
      apply list_elem_of_fmap. by exists c.
    - intros [_ Hin]. unfold names_of in Hin. rewrite <- list_fmap_compose in Hin.
      apply list_elem_of_fmap in Hin as (c & Hk & Hc).
      assert (c ∈ sortColumnsByOrder stored') as Hc'.
      { unfold sortColumnsByOrder. by rewrite sort_Permutation. }
      destruct (list_find_elem_of
                  (λ col, Js.toLowerCase (normalizeColumnName (col_name col))
                          = Js.toLowerCase n)
                  (sortColumnsByOrder stored') c Hc') as [[i x] Hx]; [done|].
      subst found. rewrite Hx. by eexists. }
  clearbody found. repeat split; try done.
  - intros Hex%bool_decide_eq_true. apply Hsome in Hex as [i Hi].
    unfold getColumn. fold stored'. by rewrite Hi.
  - intros H200. apply bool_decide_eq_true, Hsome. unfold getColumn in H200.
    fold stored' in H200. by destruct (findColumnIndex stored' (Some n)).
  - intros Hex. by apply bool_decide_eq_true in Hex.
  - intros Hex. by apply bool_decide_eq_true.
  - destruct (Hfound c H0) as [Hin _]. unfold sortColumnsByOrder.
    by rewrite sort_Permutation.
  - by destruct (Hfound c H0).
  - intros Hcan. unfold getColumn. fold stored'.
    destruct (findColumnIndex stored' (Some n)) as [i|] eqn:Hi.
    + destruct (proj2 Hsome) as [c Hc]; [by eexists|]. rewrite Hc.
      destruct (Hfound c Hc) as [[j Hj]%list_elem_of_lookup Hk].
      apply findColumnIndex_lookup in Hi as (c' & Hc' & Hk' & _).
      assert (j = i) as ->.
      { eapply canonical_keys_distinct; [done..|]. congruence. }
      cbn. congruence.
    + destruct found as [c|] eqn:Hc; [|done].
      destruct (proj1 Hsome) as [? ?]; [by eexists|done].
Qed.

End Routes.

(** * The properties at sample inputs

    The closed statements below evaluate the routes with [sampleCollation]
    as the collation of the platform. *)

#[local] Existing Instance sampleCollation.

Example sample_case : keyCompare "B" "b" = Gt ∧ keyCompare "a" "B" = Lt.
Proof. split; vm_compute; reflexivity. Qed.

(** The tie-break is not blind to letter case.  With a collation that puts
    lower case before upper case among equal letters, as the default
    collation does, of two columns with the same order whose names differ
    only in letter case the lower-case one is moved to the front, where a
    comparison that ignored case would leave them as they came. *)
Lemma sort_distinguishes_letter_case :
  sortColumnsByOrder [bugUpper; bugLower] = [bugLower; bugUpper]
  ∧ sortColumns_ignoring_case [bugUpper; bugLower] = [bugUpper; bugLower]
  ∧ sortColumnsByOrder [bugUpper; bugLower]
    ≠ sortColumns_ignoring_case [bugUpper; bugLower].
Proof.
  split; [vm_compute; reflexivity|].
  split; [vm_compute; reflexivity|].
  vm_compute. discriminate.
Qed.

Lemma empty_board_is_not_resurrected_witness :
  normalizeColumnName (Some " Backlog ") ≠ ""
  ∧ ∃ column,
      createColumn 0 (Some []) (Some " Backlog ") OrderUndefined CardsUndefined
      = persist 201 [column]
      ∧ col_name column = Some "Backlog".
Proof.
  split; [vm_compute; discriminate|].
  destruct (empty_board_is_not_resurrected 0 false (Some " Backlog ")
              OrderUndefined CardsUndefined) as (_ & _ & _ & c & Hc & Hn & _).
  - vm_compute. discriminate.
  - left. reflexivity.
  - exists c. split; [exact Hc|]. rewrite Hn. reflexivity.
Defined.

Lemma delete_migrates_cards_witness :
  ∃ result dest',
    deleteColumn 0 (Some sampleBoard) "to do" (Some "DONE ") = persist 200 result
    ∧ result !! 0 = Some dest'
    ∧ cardsOf dest' = [set_status (Some "Done") sampleCard].
Proof.
  destruct (delete_migrates_cards 0 sampleBoard "to do" (Some "DONE ") 0
              (mkColumn (Some "To Do") (Some 1%Q) (Some [sampleCard]) None)
              sampleCard [] 0
              (mkColumn (Some "Done") (Some 2%Q) (Some []) None))
    as (result & dest' & Hr & _ & Hd & _ & Hc & _);
    [vm_compute; reflexivity ..|].
  exists result, dest'. split; [exact Hr|]. split; [exact Hd|]. exact Hc.
Defined.

Lemma delete_rejections_do_not_write_witness :
  status (deleteColumn 0 (Some sampleBoard) "To Do" None) = 400
  ∧ status (deleteColumn 0 (Some sampleBoard) "To Do" (Some "Archive")) = 400.
Proof.
  split.
  - refine (proj1 (proj1 (delete_rejections_do_not_write 0 sampleBoard "To Do" None 0
              (mkColumn (Some "To Do") (Some 1%Q) (Some [sampleCard]) None)
              sampleCard [] _ _ _) _)); vm_compute; reflexivity.
  - refine (proj1 (proj2 (delete_rejections_do_not_write 0 sampleBoard "To Do"
              (Some "Archive") 0
              (mkColumn (Some "To Do") (Some 1%Q) (Some [sampleCard]) None)
              sampleCard [] _ _ _) _ _)); vm_compute; (reflexivity || discriminate).
Defined.

(** With 404 for an unknown target the rejection rule fails: the endpoint
    answers 400 for a [targetColumn] that names no remaining column. *)
Lemma delete_unknown_target_is_not_404 :
  ¬ delete_rejects_with 400 404 0 sampleBoard "To Do" (Some "Archive").
Proof.
  intros H.
  destruct (H 0 (mkColumn (Some "To Do") (Some 1%Q) (Some [sampleCard]) None)
              sampleCard []) as [_ H2]; [vm_compute; reflexivity ..|].
  destruct H2 as (Hs & _); [vm_compute; discriminate|vm_compute; reflexivity|].
  vm_compute in Hs. discriminate.
Qed.

Lemma rename_rewrites_status_witness :
  ∃ result,
    updateColumn 0 (Some sampleBoard) "to do" (Some " Doing ") OrderUndefined CardsUndefined
    = persist 200 result
    ∧ ∀ c, c ∈ result → col_name c = Some "Doing" →
        Forall (λ k, card_status k = Some "Doing") (cardsOf c).
Proof.
  eexists. split; [vm_compute; reflexivity|].
  refine (proj2 (rename_rewrites_status 0 sampleBoard "to do" " Doing "
                   OrderUndefined CardsUndefined _ _)).
  vm_compute. reflexivity.
Defined.

(** The rename claim as stated fails when the renaming request also
    replaces the cards: a supplied card with a status of its own keeps it. *)
Lemma rename_with_cards_keeps_foreign_status :
  ¬ rename_mirrors_status 0 sampleBoard "To Do" "Doing" OrderUndefined
      (CardsArray [blockedCard]).
Proof.
  intros H.
  specialize (H _ eq_refl
                (mkColumn (Some "Doing") (Some 1%Q)
                   (Some [prepareCard 0 "Doing" blockedCard]) None)).
  apply Forall_inv in H; [vm_compute in H; discriminate| |reflexivity].
  vm_compute. left.
Qed.

Lemma names_after_column_producing_operations_witness :
  names_canonical sampleBoard
  ∧ stores names_canonical
      (createColumn 0 (Some sampleBoard) (Some " Review ") (OrderNumber 2) CardsUndefined).
Proof.
  split; [exact sampleBoard_canonical|].
  refine (proj1 (proj2 (proj2 (proj2 (proj2 (proj2
            (names_after_column_producing_operations 0 sampleBoard None None
               (Some " Review ") None (OrderNumber 2) CardsUndefined "" None)))))
            sampleBoard_canonical)).
Defined.

Lemma create_conflicts_iff_readable_witness :
  createColumn 0 (Some sampleBoard) (Some " to DO ") OrderUndefined CardsUndefined
  = reject 409
  ∧ status (createColumn 0 (Some sampleBoard) (Some "Review") OrderUndefined CardsUndefined)
    = 201.
Proof.
  split.
  - apply (create_conflicts_iff_readable 0 sampleBoard (Some " to DO ")
             OrderUndefined CardsUndefined);
      [vm_compute; discriminate|by left|vm_compute; reflexivity].
  - apply (create_conflicts_iff_readable 0 sampleBoard (Some "Review")
             OrderUndefined CardsUndefined);
      [vm_compute; discriminate|by left|vm_compute; reflexivity].
Defined.

Lemma createColumn_placement_witness :
  ∃ (k : nat) prepared,
    stored_after sampleBoard
      (createColumn 0 (Some sampleBoard) (Some "Review") (OrderNumber (1 # 2)) CardsUndefined)
    = reindexColumns (take k sampleBoard ++ prepared :: drop k sampleBoard)
    ∧ k = 1.
Proof.
  destruct (createColumn_placement 0 sampleBoard (Some "Review") (OrderNumber (1 # 2))
              CardsUndefined
              (stored_after sampleBoard
                 (createColumn 0 (Some sampleBoard) (Some "Review") (OrderNumber (1 # 2))
                    CardsUndefined)))
    as (k & prepared & _ & Hres & _ & _ & _ & Hk); [vm_compute; reflexivity|].
  exists k, prepared. split; [|exact Hk].
  rewrite Hres at 1. f_equal.
Defined.

Lemma updateColumn_placement_witness :
  ∃ (k : nat) column,
    (stored_after sampleBoard
       (updateColumn 0 (Some sampleBoard) "to do" None (OrderNumber 9) CardsUndefined)) !! k
    = Some (set_order (position k) column)
    ∧ col_name column = Some "To Do" ∧ k = 1.
Proof.
  destruct (updateColumn_placement 0 sampleBoard "to do" None (OrderNumber 9) CardsUndefined
              (stored_after sampleBoard
                 (updateColumn 0 (Some sampleBoard) "to do" None (OrderNumber 9)
                    CardsUndefined)))
    as (ci & k & column & Hci & Hcol & _ & Hk & _ & _ & p & Hp & Hkp);
    [vm_compute; reflexivity|].
  exists k, column. split; [exact Hk|].
  injection Hp as <-. vm_compute in Hci. injection Hci as <-.
  vm_compute in Hcol. injection Hcol as <-. split; [reflexivity|exact Hkp].
Defined.

Lemma rename_to_own_name_allowed_witness :
  ∃ result c,
    updateColumn 0 (Some sampleBoard) "to do" (Some " TO DO ") OrderUndefined CardsUndefined
    = persist 200 result
    ∧ result !! 0 = Some c
    ∧ col_name c = Some (Js.trim " TO DO ").
Proof.
  apply (rename_to_own_name_allowed 0 sampleBoard "to do" " TO DO " 0).
  - exact sampleBoard_canonical.
  - vm_compute. reflexivity.
  - vm_compute. reflexivity.
Defined.

Lemma delete_empty_column_witness :
  ∃ result,
    deleteColumn 0 (Some sampleBoard) "DONE" (Some "nowhere") = persist 200 result
    ∧ names_of result = [Some "To Do"].
Proof.
  destruct (delete_empty_column 0 sampleBoard "DONE" (Some "nowhere") 1
              (mkColumn (Some "Done") (Some 2%Q) (Some []) None))
    as (result & Hdel & _ & _ & Hnames & _); [vm_compute; reflexivity ..|].
  exists result. split; [exact Hdel|]. rewrite Hnames. reflexivity.
Defined.

Lemma requested_columns_agree_witness :
  NoDup ["done"; "Nope"]
  ∧ fst (getColumn 0 (Some sampleBoard) "done") = 200.
Proof.
  pose proof (requested_columns_agree 0 sampleBoard (Some " done ,Nope,, done") 200 _ _
                eq_refl) as [Hnd Hall].
  split; [exact Hnd|].
  apply Forall_cons in Hall as [(_ & _ & Hex & _) _].
  apply Hex. vm_compute. reflexivity.
Defined.
